(** * DataMining.py: the filterable aggregation pipeline of the dashboard

    A shallow embedding of the data path of [DataMining.py]: the global
    filters (lines 162-169), the KPI aggregates (182-187), the frequency
    tables (208, 236, 365), the keyword extractor (269-283), the CSV export
    and loader (124-129, 379-381) and the row appender (388, 410-421).

    pandas objects are modelled by what they hold: a [Series] is the list
    of its values in row order, a missing value (NaN) is [None], a
    [DataFrame] over the survey schema is the list of its rows.  The
    numeric cells of the survey (identifier, age, salary, score, number of
    applications) are integers and the categorical cells are strings, as
    the form of lines 392-408 produces them; means and rates are exact
    rationals.  What pandas leaves open is a parameter: the order in
    which [value_counts] puts equal counts ([SortValues]), the text of
    floats and the recognisers of the CSV loader ([Codec]), the Unicode
    database of the interpreter ([UnicodeData]).  The file at [csv_path]
    is a CSV document, header and records; the row appender reads it,
    puts one row under it and writes it back. *)

From Stdlib Require Import QArith Qcanon Ascii DecimalString DecimalZ.
From stdpp Require Import base option list sorting strings gmap.

Local Open Scope Z_scope.

(** ** Data model *)

(** One line of the survey table; the sixteen columns are those of the
    [new_row] dictionary (lines 411-417).  Every cell may be missing. *)
Record Row := {
  ID : option Z;
  Age : option Z;
  Sexe : option string;
  Diplome : option string;
  Q1_Domaine : option string;
  Q2_Stage : option string;
  Q3_Difficulte : option string;
  Q4_Informatique : option string;
  Q5_Langues : option string;
  Q6_Salaire_ZAR : option Z;
  Q7_Mobilite : option string;
  Q8_Formation : option Z;
  Q9_Entreprenariat : option string;
  Q10_LinkedIn : option string;
  Q11_Candidatures : option Z;
  Q12_Mentorat : option string
}.

#[export] Instance Row_eq_dec : EqDecision Row.
Proof. solve_decision. Defined.

Abbreviation DataFrame := (list Row).
Abbreviation Series := list.

(** [df["col"]] *)
Definition column {A} (col : Row → A) (df : DataFrame) : Series A := map col df.

(** A Python list used as a condition: empty is falsy. *)
Definition truthy {A} (l : list A) : bool :=
  match l with [] => false | _ :: _ => true end.

(** ** Filter state: the sidebar widgets (lines 153-159) *)

Record Filters := {
  f_age : Z * Z;
  f_sexe : list string;
  f_diplome : list string;
  f_domaine : list string;
  f_stage : list string;
  f_mobilite : list string;
  f_linkedin : list string
}.

(** ** Boolean masks *)

(** [Series.between(left, right)]: inclusive on both ends, false on NaN. *)
Definition between (s : Series (option Z)) (left right : Z) : Series bool :=
  map (λ v, match v with
            | Some a => (left <=? a) && (a <=? right)
            | None => false
            end) s.

(** [Series.isin(values)]: false on NaN (the widget options come from
    [dropna().unique()], so [values] holds no NaN). *)
Definition isin (s : Series (option string)) (values : list string) : Series bool :=
  map (λ v, match v with
            | Some x => bool_decide (x ∈ values)
            | None => false
            end) s.

(** [mask &= other], element by element. *)
Definition mask_and (mask other : Series bool) : Series bool :=
  zip_with andb mask other.

(** [df[mask]]: the rows whose mask entry is true, in order. *)
Fixpoint boolean_index (df : DataFrame) (mask : Series bool) : DataFrame :=
  match df, mask with
  | r :: df', b :: mask' =>
      if b then r :: boolean_index df' mask' else boolean_index df' mask'
  | _, _ => []
  end.

(** Lines 162-168. *)
Definition mask_of (df : DataFrame) (fs : Filters) : Series bool :=
  let mask := between (column Age df) (f_age fs).1 (f_age fs).2 in
  let mask := if truthy (f_sexe fs)
              then mask_and mask (isin (column Sexe df) (f_sexe fs)) else mask in
  let mask := if truthy (f_diplome fs)
              then mask_and mask (isin (column Diplome df) (f_diplome fs)) else mask in
  let mask := if truthy (f_domaine fs)
              then mask_and mask (isin (column Q1_Domaine df) (f_domaine fs)) else mask in
  let mask := if truthy (f_stage fs)
              then mask_and mask (isin (column Q2_Stage df) (f_stage fs)) else mask in
  let mask := if truthy (f_mobilite fs)
              then mask_and mask (isin (column Q7_Mobilite df) (f_mobilite fs)) else mask in
  let mask := if truthy (f_linkedin fs)
              then mask_and mask (isin (column Q10_LinkedIn df) (f_linkedin fs)) else mask in
  mask.

(** Line 169: [dff = df[mask].copy()]. *)
Definition apply_filters (df : DataFrame) (fs : Filters) : DataFrame :=
  boolean_index df (mask_of df fs).

(** The six categorical widgets as a list of (column, allowed values), in
    the order of lines 163-168, and the mask as the fold of the same step
    over any such list.  [mask_of] is the fold over [constraints fs]. *)
Definition Constraint : Type := (Row → option string) * list string.

Definition constraints (fs : Filters) : list Constraint :=
  [ (Sexe, f_sexe fs); (Diplome, f_diplome fs); (Q1_Domaine, f_domaine fs);
    (Q2_Stage, f_stage fs); (Q7_Mobilite, f_mobilite fs);
    (Q10_LinkedIn, f_linkedin fs) ].

Definition mask_step (df : DataFrame) (mask : Series bool) (c : Constraint)
  : Series bool :=
  if truthy c.2 then mask_and mask (isin (column c.1 df) c.2) else mask.

Definition mask_from (df : DataFrame) (age : Z * Z) (cs : list Constraint)
  : Series bool :=
  foldl (mask_step df) (between (column Age df) age.1 age.2) cs.

(** ** The predicates of a filter state, row by row *)

Definition age_in_range (age : Z * Z) (r : Row) : Prop :=
  ∃ a, Age r = Some a ∧ age.1 ≤ a ≤ age.2.

(** A set-membership constraint is active only when its allowed set is
    not empty. *)
Definition member_if_active (c : Constraint) (r : Row) : Prop :=
  c.2 ≠ [] → ∃ v, c.1 r = Some v ∧ v ∈ c.2.

Definition satisfies (fs : Filters) (r : Row) : Prop :=
  age_in_range (f_age fs) r ∧ Forall (λ c, member_if_active c r) (constraints fs).

#[export] Instance age_in_range_dec age r : Decision (age_in_range age r).
Proof.
  unfold age_in_range. destruct (Age r) as [a|].
  - destruct (decide (age.1 ≤ a ≤ age.2)) as [H|H].
    + left. eauto.
    + right. intros (a' & [= <-] & ?). done.
  - right. intros (a' & [=] & _).
Defined.

#[export] Instance member_if_active_dec c r : Decision (member_if_active c r).
Proof.
  unfold member_if_active. destruct (decide (c.2 = [])) as [E|E].
  - left. done.
  - destruct (c.1 r) as [v|].
    + destruct (decide (v ∈ c.2)) as [H|H].
      * left. eauto.
      * right. intros Hm. destruct (Hm E) as (v' & [= <-] & ?). done.
    + right. intros Hm. destruct (Hm E) as (v' & [=] & _).
Defined.

#[export] Instance satisfies_dec fs r : Decision (satisfies fs r).
Proof. unfold satisfies. apply _. Defined.

(** The mask entry of one row. *)
Definition member_b (c : Constraint) (r : Row) : bool :=
  if truthy c.2
  then match c.1 r with Some v => bool_decide (v ∈ c.2) | None => false end
  else true.

Definition age_b (age : Z * Z) (r : Row) : bool :=
  match Age r with
  | Some a => (age.1 <=? a) && (a <=? age.2)
  | None => false
  end.

Definition passes_b (age : Z * Z) (cs : list Constraint) (r : Row) : bool :=
  age_b age r && forallb (λ c, member_b c r) cs.

(** ** KPIs (lines 182-187) *)

(** A Python number as the KPIs hold it: NaN, or a finite value.  Finite
    values are exact rationals; the float64 result is the rounding of the
    value given here. *)
Inductive number := NaN | Fin (q : Qc).

Definition of_Z (z : Z) : Qc := Q2Qc (inject_Z z).
Definition of_nat (n : nat) : Qc := of_Z (Z.of_nat n).

(** [Series.eq(value)]: a boolean Series, false on NaN. *)
Definition eq_ (s : Series (option string)) (value : string) : Series bool :=
  map (λ x, bool_decide (x = Some value)) s.

(** [Series.dropna()] *)
Definition dropna {A} (s : Series (option A)) : Series A := omap id s.

(** [Series.mean()] of a boolean Series: the share of true entries; NaN
    on the empty Series. *)
Definition mean_bool (s : Series bool) : number :=
  match s with
  | [] => NaN
  | _ :: _ => Fin (of_nat (length (List.filter id s)) / of_nat (length s))%Qc
  end.

(** [Series.mean()] of a numeric Series: NaN entries are skipped; NaN when
    nothing is left. *)
Definition mean (s : Series (option Z)) : number :=
  match dropna s with
  | [] => NaN
  | x :: xs => Fin (of_Z (foldr Z.add 0%Z (x :: xs)) / of_nat (length (x :: xs)))%Qc
  end.

(** [x * 100] *)
Definition times (x : number) (k : Z) : number :=
  match x with NaN => NaN | Fin q => Fin (q * of_Z k)%Qc end.

Definition nb_rep (dff : DataFrame) : nat := length dff.

(** [dff["Q6_Salaire_ZAR"].mean() if nb_rep else 0] *)
Definition avg_salary (dff : DataFrame) : number :=
  match nb_rep dff with
  | O => Fin 0
  | S _ => mean (column Q6_Salaire_ZAR dff)
  end.

(** [dff[col].eq("Oui").mean() * 100 if nb_rep else 0] *)
Definition rate_kpi (col : Row → option string) (dff : DataFrame) : number :=
  match nb_rep dff with
  | O => Fin 0
  | S _ => times (mean_bool (eq_ (column col dff) "Oui")) 100
  end.

Definition stage_rate : DataFrame → number := rate_kpi Q2_Stage.
Definition mob_rate : DataFrame → number := rate_kpi Q7_Mobilite.
Definition entre_rate : DataFrame → number := rate_kpi Q9_Entreprenariat.
Definition li_rate : DataFrame → number := rate_kpi Q10_LinkedIn.

(** The rate as the specification words it: the rows whose value is
    missing are left out of the denominator. *)
Definition rate_over_present (col : Row → option string) (target : string)
    (view : DataFrame) : number :=
  match view with
  | [] => Fin 0
  | _ :: _ =>
      match dropna (column col view) with
      | [] => NaN
      | present =>
          Fin (of_nat (length (List.filter (String.eqb target) present))
               / of_nat (length present) * of_Z 100%Z)%Qc
      end
  end.

(** The rate over all the rows of the view. *)
Definition rate_over_rows (col : Row → option string) (target : string)
    (view : DataFrame) : number :=
  match view with
  | [] => Fin 0
  | _ :: _ =>
      Fin (of_nat (length (filter (λ r, col r = Some target) view))
           / of_nat (length view) * of_Z 100%Z)%Qc
  end.

(** A row with every cell missing, to build examples from. *)
Definition blank : Row :=
  {| ID := None; Age := None; Sexe := None; Diplome := None;
     Q1_Domaine := None; Q2_Stage := None; Q3_Difficulte := None;
     Q4_Informatique := None; Q5_Langues := None; Q6_Salaire_ZAR := None;
     Q7_Mobilite := None; Q8_Formation := None; Q9_Entreprenariat := None;
     Q10_LinkedIn := None; Q11_Candidatures := None; Q12_Mentorat := None |}.

Definition no_filter (age : Z * Z) : Filters :=
  {| f_age := age; f_sexe := []; f_diplome := []; f_domaine := [];
     f_stage := []; f_mobilite := []; f_linkedin := [] |}.

(** ** Frequency tables (lines 208, 220, 236) *)

(** The table of [value_counts]: (value, count) entries. *)
Abbreviation FrequencyTable := (list (string * nat)).

(** One step of the hash-table pass: count one more occurrence of [k]; a
    value seen for the first time takes the next slot. *)
Fixpoint bump (k : string) (tbl : FrequencyTable) : FrequencyTable :=
  match tbl with
  | [] => [(k, 1%nat)]
  | (k', n) :: tbl' =>
      if decide (k = k') then (k', S n) :: tbl' else (k', n) :: bump k tbl'
  end.

(** The distinct values with their counts, in order of first appearance. *)
Definition value_count (s : Series string) : FrequencyTable :=
  foldl (λ tbl k, bump k tbl) [] s.

(** A stable descending sort of the counts: entries with a higher count
    first, entries with the same count left in the order they come in.
    It is one of the orders [sort_values] can give, see [first_seen]. *)
Fixpoint insert_desc (e : string * nat) (l : FrequencyTable) : FrequencyTable :=
  match l with
  | [] => [e]
  | e' :: l' =>
      if (e.2 <? e'.2)%nat then e' :: insert_desc e l' else e :: e' :: l'
  end.

Definition sort_desc (l : FrequencyTable) : FrequencyTable :=
  foldr insert_desc [] l.

(** [.head(n)] *)
Definition head {A} (n : nat) (l : list A) : list A := take n l.

Definition keys (tbl : FrequencyTable) : list string := tbl.*1.
Definition counts (tbl : FrequencyTable) : list nat := tbl.*2.

(** The count a table holds for a value; 0 when it has no entry. *)
Fixpoint count_of (k : string) (tbl : FrequencyTable) : nat :=
  match tbl with
  | [] => 0
  | (k', n) :: tbl' => if decide (k = k') then n else count_of k tbl'
  end.

(** The order of the sorted table: the earlier entry has the higher or
    the same count. *)
Definition count_ge (a b : string * nat) : Prop := (b.2 ≤ a.2)%nat.

(** The number of distinct values of a Series. *)
Definition distinctValues (s : Series string) : nat := length (remove_dups s).

(** [sort_values(ascending=False)] as [value_counts] calls it.  The
    default sort ([kind="quicksort"]) is not stable: what order entries
    with the same count come out in depends on the NumPy build.  What
    the sort does give: a rearrangement of the table, counts in
    descending order. *)
Record SortValues := {
  sort_values : FrequencyTable → FrequencyTable;
  sort_values_Permutation : ∀ tbl, sort_values tbl ≡ₚ tbl;
  sort_values_sorted : ∀ tbl, StronglySorted count_ge (sort_values tbl)
}.

(** Two such sorts.  [first_seen] leaves entries with the same count in
    the order of the table, [last_seen] puts them in the opposite
    order. *)
Definition first_seen : SortValues.
Proof.
  assert (∀ e l, insert_desc e l ≡ₚ e :: l) as Hins.
  { intros e l. induction l as [|e' l IH]; cbn [insert_desc]; [done|].
    destruct (e.2 <? e'.2)%nat; [|done]. rewrite IH. apply Permutation_swap. }
  refine {| sort_values := sort_desc |}; unfold sort_desc.
  - intros tbl. induction tbl as [|e tbl IH]; cbn [foldr]; [done|].
    by rewrite Hins, IH.
  - intros tbl. induction tbl as [|e tbl IH]; cbn [foldr]; [constructor|].
    revert IH. generalize (foldr insert_desc [] tbl). intros l.
    induction 1 as [|e' l Hl IH Hall]; cbn [insert_desc]; [repeat constructor|].
    destruct (e.2 <? e'.2)%nat eqn:E.
    + apply Nat.ltb_lt in E. constructor; [done|].
      rewrite Hins. constructor; [|done]. unfold count_ge. lia.
    + apply Nat.ltb_ge in E. constructor; [by constructor|].
      constructor; [done|]. eapply Forall_impl; [exact Hall|].
      unfold count_ge. intros; cbn in *. lia.
Defined.

Definition last_seen : SortValues.
Proof.
  refine {| sort_values := λ tbl, sort_desc (reverse tbl) |}.
  - intros tbl. etrans; [apply (sort_values_Permutation first_seen)|].
    apply reverse_Permutation.
  - intros tbl. apply (sort_values_sorted first_seen).
Defined.

(** [Series.value_counts()]: NaN is dropped (the default [dropna=True]),
    the distinct values are counted in order of first appearance, and the
    table is sorted by descending count. *)
Definition value_counts (S : SortValues) (s : Series (option string))
  : FrequencyTable := sort_values S (value_count (dropna s)).

(** [valueCounts] and [topN] of the specification, for any categorical
    column. *)
Definition valueCounts (S : SortValues) (view : DataFrame)
    (col : Row → option string) : FrequencyTable :=
  value_counts S (column col view).

Definition topN (S : SortValues) (view : DataFrame) (col : Row → option string)
    (n : nat) : FrequencyTable := head n (valueCounts S view col).

(** ** Cross-tabulation (line 365) *)

(** Lexicographic order of the labels, as Python compares strings. *)
Definition str_le (a b : string) : Prop := String.leb a b = true.

#[export] Instance str_le_dec a b : Decision (str_le a b).
Proof. unfold str_le. apply _. Defined.

(** The table of [pd.crosstab]: row labels, column labels and the matrix
    of counts, one list per row label. *)
Record CrossTab := {
  index : list string;
  columns : list string;
  values : list (list nat)
}.

(** The pairs that [crosstab] groups: a row of the data counts only when
    both of its values are present (the group keys drop NaN). *)
Definition present_pairs (rows cols : Series (option string))
  : list (string * string) :=
  omap (λ p, match p with
             | (Some a, Some b) => Some (a, b)
             | _ => None
             end) (zip rows cols).

(** [pd.crosstab(rows, cols)]: the labels are the distinct values of the
    grouped pairs, sorted; every cell of the matrix is a count, 0 where the
    pair does not occur ([fill_value=0]). *)
Definition crosstab (rows cols : Series (option string)) : CrossTab :=
  let pairs := present_pairs rows cols in
  let idx := merge_sort str_le (remove_dups pairs.*1) in
  let cls := merge_sort str_le (remove_dups pairs.*2) in
  {| index := idx;
     columns := cls;
     values := (λ a, (λ b, length (filter ((a, b) =.) pairs)) <$> cls) <$> idx |}.

(** The tables the charts are drawn from. *)
Module Charts.
(** Line 208: [vc = dff["Diplôme"].value_counts()]. *)
Definition vc (S : SortValues) (dff : DataFrame) : FrequencyTable :=
  value_counts S (column Diplome dff).

(** Line 236: [dom = dff["Q1_Domaine"].value_counts().head(10)]. *)
Definition dom (S : SortValues) (dff : DataFrame) : FrequencyTable :=
  head 10 (value_counts S (column Q1_Domaine dff)).

(** Line 365: [ct = pd.crosstab(dff["Q3_Difficulté"], dff["Diplôme"])]. *)
Definition ct (dff : DataFrame) : CrossTab :=
  crosstab (column Q3_Difficulte dff) (column Diplome dff).
End Charts.

(** [crossTab] of the specification, for any two categorical columns. *)
Definition crossTab (view : DataFrame) (rowCol colCol : Row → option string)
  : CrossTab := crosstab (column rowCol view) (column colCol view).

(** The cell of a table at a position, if there is one. *)
Definition cell (t : CrossTab) (i j : nat) : option nat :=
  values t !! i ≫= (.!! j).

(** The distinct values observed in a column of a view. *)
Definition observed (col : Row → option string) (view : DataFrame) : list string :=
  remove_dups (dropna (column col view)).

Definition ab_rows : DataFrame :=
  [ {| ID := Some 1; Age := Some 22; Sexe := None; Diplome := None;
       Q1_Domaine := None; Q2_Stage := None; Q3_Difficulte := Some "A";
       Q4_Informatique := None; Q5_Langues := None; Q6_Salaire_ZAR := None;
       Q7_Mobilite := None; Q8_Formation := None; Q9_Entreprenariat := None;
       Q10_LinkedIn := None; Q11_Candidatures := None; Q12_Mentorat := None |};
    {| ID := Some 2; Age := Some 25; Sexe := None; Diplome := Some "X";
       Q1_Domaine := None; Q2_Stage := None; Q3_Difficulte := Some "B";
       Q4_Informatique := None; Q5_Langues := None; Q6_Salaire_ZAR := None;
       Q7_Mobilite := None; Q8_Formation := None; Q9_Entreprenariat := None;
       Q10_LinkedIn := None; Q11_Candidatures := None; Q12_Mentorat := None |} ].

Definition two_rows : DataFrame :=
  [ {| ID := Some 1; Age := Some 22; Sexe := Some "M"; Diplome := Some "Licence";
       Q1_Domaine := None; Q2_Stage := Some "Oui"; Q3_Difficulte := None;
       Q4_Informatique := None; Q5_Langues := None; Q6_Salaire_ZAR := Some 12000;
       Q7_Mobilite := None; Q8_Formation := None; Q9_Entreprenariat := None;
       Q10_LinkedIn := None; Q11_Candidatures := None; Q12_Mentorat := None |};
    {| ID := Some 2; Age := Some 30; Sexe := Some "F"; Diplome := Some "Master";
       Q1_Domaine := None; Q2_Stage := None; Q3_Difficulte := None;
       Q4_Informatique := None; Q5_Langues := None; Q6_Salaire_ZAR := None;
       Q7_Mobilite := None; Q8_Formation := None; Q9_Entreprenariat := None;
       Q10_LinkedIn := None; Q11_Candidatures := None; Q12_Mentorat := None |} ].

(** ** Row appender: identifiers and the form (lines 388-417) *)

(** [Series.max()]: the largest present value; [None] (NaN) when there is
    none. *)
Definition series_max (s : Series (option Z)) : option Z :=
  match dropna s with
  | [] => None
  | x :: xs => Some (foldr Z.max x xs)
  end.

(** The values of the form widgets (lines 392-408).  The number inputs
    and the slider give Python ints.  The four select boxes whose options
    are the values of a column of the dataset give [None] when that
    column holds no value. *)
Record Form := {
  age : Z; sexe : string; dipl : option string; domaine : option string;
  stage : string; diff : option string; info : string; langues : option string;
  salaire : Z; mobilite : string; form : Z; entre : string;
  li : string; candid : Z; mentor : string
}.

(** Lines 411-417. *)
Definition new_row (i : Z) (f : Form) : Row :=
  {| ID := Some i; Age := Some (age f); Sexe := Some (sexe f);
     Diplome := dipl f; Q1_Domaine := domaine f;
     Q2_Stage := Some (stage f); Q3_Difficulte := diff f;
     Q4_Informatique := Some (info f); Q5_Langues := langues f;
     Q6_Salaire_ZAR := Some (salaire f); Q7_Mobilite := Some (mobilite f);
     Q8_Formation := Some (form f); Q9_Entreprenariat := Some (entre f);
     Q10_LinkedIn := Some (li f); Q11_Candidatures := Some (candid f);
     Q12_Mentorat := Some (mentor f) |}.

(** [k] is the largest identifier of a table. *)
Definition max_id (k : Z) (t : DataFrame) : Prop :=
  (∃ r, r ∈ t ∧ ID r = Some k) ∧ ∀ r x, r ∈ t → ID r = Some x → x ≤ k.

Definition a_form : Form :=
  {| age := 23; sexe := "M"; dipl := Some "Licence"; domaine := Some "Finance";
     stage := "Oui"; diff := Some "Experience"; info := "Moyen";
     langues := Some "Anglais";
     salaire := 12000; mobilite := "Oui"; form := 4; entre := "Non";
     li := "Oui"; candid := 5; mentor := "Non" |}.

(** ** Keyword extractor (lines 269-283) *)

(** A Python [str]: the sequence of its Unicode code points. *)
Abbreviation pystr := (list N).

(** The code points of a literal written in UTF-8. *)
Fixpoint decode_utf8 (bytes : list N) : pystr :=
  (match bytes with
   | [] => []
   | b :: rest =>
       if b <? 128 then b :: decode_utf8 rest
       else if b <? 224 then
         match rest with
         | c1 :: rest' => (b mod 32 * 64 + c1 mod 64) :: decode_utf8 rest'
         | _ => []
         end
       else if b <? 240 then
         match rest with
         | c1 :: c2 :: rest' =>
             (b mod 16 * 4096 + c1 mod 64 * 64 + c2 mod 64) :: decode_utf8 rest'
         | _ => []
         end
       else
         match rest with
         | c1 :: c2 :: c3 :: rest' =>
             (b mod 8 * 262144 + c1 mod 64 * 4096 + c2 mod 64 * 64 + c3 mod 64)
             :: decode_utf8 rest'
         | _ => []
         end
   end)%N.

Definition bytes_of (s : string) : list N :=
  Ascii.N_of_ascii <$> String.list_ascii_of_string s.

Definition u (s : string) : pystr := decode_utf8 (bytes_of s).

(** What the extractor takes from the Unicode database of the Python
    runtime: [str.lower], [str.isalnum] on one character and
    [str.isspace] on one character.  The regular-expression classes [\w]
    and [\s] on [str] patterns and [str.split()] are defined from the last
    two. *)
Record UnicodeData := {
  str_lower : pystr → pystr;
  isalnum : N → bool;
  isspace : N → bool
}.

(** [\w]: alphanumeric or the underscore. *)
Definition is_word (U : UnicodeData) (c : N) : bool := isalnum U c || (c =? 95)%N.

(** [re.sub(r"[^\w\s]", " ", txt)] *)
Definition re_sub_punct (U : UnicodeData) (txt : pystr) : pystr :=
  (λ c, if is_word U c || isspace U c then c else 32%N) <$> txt.

(** [txt.replace(old, " ")] for a one-character [old]. *)
Definition replace_char (old : N) (txt : pystr) : pystr :=
  (λ c, if (c =? old)%N then 32%N else c) <$> txt.

(** [txt.split()]: the maximal runs of non-whitespace characters.  [cur]
    is the run being read, last character first. *)
Fixpoint split_from (U : UnicodeData) (cur : pystr) (txt : pystr) : list pystr :=
  match txt with
  | [] => match cur with [] => [] | _ => [reverse cur] end
  | c :: txt' =>
      if isspace U c
      then match cur with
           | [] => split_from U [] txt'
           | _ => reverse cur :: split_from U [] txt'
           end
      else split_from U (c :: cur) txt'
  end.

Definition split (U : UnicodeData) (txt : pystr) : list pystr := split_from U [] txt.

(** Lines 270-275. *)
Definition stop_words : list pystr :=
  u <$> [ "le";"de";"un";"une";"et";"en";"à";"dans";"sur";"au";"aux";"du";"des";"la";"les";
          "je";"tu";"il";"elle";"nous";"vous";"ils";"elles";"est";"sont";"être";"avoir";"pour";
          "ce";"cet";"cette";"ces";"qui";"quoi";"dont";"où";"comment";"pourquoi";"quand";
          "avec";"par";"plus";"moins";"très";"tres";"bien";"mal";"ne";"pas";"se";"son";"sa";"ses" ].

(** [counter[w] += 1] on a [Counter]: a missing key counts as 0. *)
Definition incr (w : pystr) (counter : gmap pystr nat) : gmap pystr nat :=
  <[w := S (default 0%nat (counter !! w))]> counter.

(** The guard of line 281. *)
Definition keyword_ok (min_length : nat) (w : pystr) : Prop :=
  (min_length ≤ length w)%nat ∧ w ∉ stop_words.

(** Lines 278-279: the text the words are split from. *)
Definition normalise (U : UnicodeData) (t : pystr) : pystr :=
  let txt := re_sub_punct U (str_lower U t) in
  replace_char 39 (replace_char 8217 txt).

(** Lines 280-282: the inner loop over the words of one text. *)
Definition count_words (min_length : nat) (words : list pystr)
    (counter : gmap pystr nat) : gmap pystr nat :=
  foldl (λ counter w,
           if bool_decide (min_length ≤ length w)%nat && bool_decide (w ∉ stop_words)
           then incr w counter else counter)
        counter words.

(** Lines 269-283.  The texts are the present values of the Series
    ([series.dropna().astype(str)]). *)
Definition extract_keywords (U : UnicodeData) (series : Series (option pystr))
    (min_length : nat) : gmap pystr nat :=
  foldl (λ counter t, count_words min_length (split U (normalise U t)) counter)
        ∅ (dropna series).

(** Line 286: [freq = extract_keywords(dff[wc_col])], with the default
    [min_length=3]. *)
Definition freq (U : UnicodeData) (dff : DataFrame) (wc_col : Row → option string)
  : gmap pystr nat :=
  extract_keywords U (map (option_map u) (column wc_col dff)) 3.

(** The ASCII part of the Unicode database. *)
Definition ascii_lower (c : N) : N :=
  if (65 <=? c)%N && (c <=? 90)%N then (c + 32)%N else c.

Definition ascii_isalnum (c : N) : bool :=
  ((48 <=? c) && (c <=? 57) || (65 <=? c) && (c <=? 90)
   || (97 <=? c) && (c <=? 122))%N.

Definition ascii_isspace (c : N) : bool :=
  ((9 <=? c) && (c <=? 13) || (28 <=? c) && (c <=? 32))%N.

(** A Unicode database agrees with these on ASCII. *)
Definition ascii_compatible (U : UnicodeData) : Prop :=
  (∀ s, Forall (λ c, c < 128)%N s → str_lower U s = ascii_lower <$> s)
  ∧ (∀ c, (c < 128)%N → isalnum U c = ascii_isalnum c)
  ∧ (∀ c, (c < 128)%N → isspace U c = ascii_isspace c).

(** The database cut down to ASCII: other characters are left as they
    are and are neither alphanumeric nor whitespace. *)
Definition ascii_table : UnicodeData :=
  {| str_lower := fmap ascii_lower;
     isalnum := λ c, (c <? 128)%N && ascii_isalnum c;
     isspace := λ c, (c <? 128)%N && ascii_isspace c |}.

(** ** CSV export and reload (lines 124-129, 379-381) *)

(** A cell as pandas holds it: an int64, a float64 that is not NaN, a
    bool, a [str], or NaN.  [F] is the type of the float64 values. *)
Inductive value (F : Type) : Type :=
| VInt (z : Z)
| VFloat (x : F)
| VBool (b : bool)
| VStr (s : string)
| VNaN.
Arguments VInt {F} z.
Arguments VFloat {F} x.
Arguments VBool {F} b.
Arguments VStr {F} s.
Arguments VNaN {F}.

(** What the export and the loader take from pandas for one scalar: the
    float64 values with their text, and the loader's recognisers of a
    field: the NA tokens, the integers, the floats and the booleans. *)
Record Codec := {
  float : Type;
  float_of_int : Z → float;
  repr_float : float → string;
  is_na : string → bool;
  parse_int : string → option Z;
  parse_float : string → option float;
  parse_bool : string → option bool
}.

(** The text of an integer: its decimal digits, after "-" when negative. *)
Definition repr_int (z : Z) : string := NilZero.string_of_int (Z.to_int z).

Definition int64 (z : Z) : Prop := -2 ^ 63 ≤ z < 2 ^ 63.

(** What is assumed of the codec: the empty field is an NA token; the
    text of an int64 is read back as that integer; the text of a float is
    read back as that float and is not the text of an integer. *)
Definition codec_laws (L : Codec) : Prop :=
  is_na L "" = true
  ∧ (∀ z, int64 z → is_na L (repr_int z) = false ∧ parse_int L (repr_int z) = Some z)
  ∧ (∀ x, is_na L (repr_float L x) = false
          ∧ parse_int L (repr_float L x) = None
          ∧ parse_float L (repr_float L x) = Some x).

(** The field [to_csv] writes for a cell ([na_rep=""]). *)
Definition render (L : Codec) (v : value (float L)) : string :=
  match v with
  | VInt z => repr_int z
  | VFloat x => repr_float L x
  | VBool b => if b then "True" else "False"
  | VStr s => s
  | VNaN => ""
  end.

(** The columns of the survey table, in file order: numeric or text. *)
Inductive accessor :=
| Num (f : Row → option Z)
| Txt (f : Row → option string).

Definition schema : list (string * accessor) :=
  [ ("ID", Num ID); ("Âge", Num Age); ("Sexe", Txt Sexe); ("Diplôme", Txt Diplome);
    ("Q1_Domaine", Txt Q1_Domaine); ("Q2_Stage", Txt Q2_Stage);
    ("Q3_Difficulté", Txt Q3_Difficulte); ("Q4_Informatique", Txt Q4_Informatique);
    ("Q5_Langues", Txt Q5_Langues); ("Q6_Salaire_ZAR", Num Q6_Salaire_ZAR);
    ("Q7_Mobilité", Txt Q7_Mobilite); ("Q8_Formation", Num Q8_Formation);
    ("Q9_Entreprenariat", Txt Q9_Entreprenariat); ("Q10_LinkedIn", Txt Q10_LinkedIn);
    ("Q11_Candidatures", Num Q11_Candidatures); ("Q12_Mentorat", Txt Q12_Mentorat) ].

(** A numeric column of the dataset is int64 when no value is missing and
    float64 otherwise; a view keeps the dtype of its dataset. *)
Definition is_int64 (f : Row → option Z) (df : DataFrame) : bool :=
  forallb (λ r, bool_decide (is_Some (f r))) df.

(** The cell of a row of a view of [df] in a column. *)
Definition cell_of (L : Codec) (df : DataFrame) (a : accessor) (r : Row)
  : value (float L) :=
  match a with
  | Num f =>
      match f r with
      | Some z => if is_int64 f df then VInt z else VFloat (float_of_int L z)
      | None => VNaN
      end
  | Txt f =>
      match f r with
      | Some s => VStr s
      | None => VNaN
      end
  end.

(** A table with its cells: the column names, each with the cells of the
    column in row order. *)
Abbreviation Table L := (list (string * list (value (float L)))).

Definition to_table (L : Codec) (df dff : DataFrame) : Table L :=
  (λ c, (c.1, cell_of L df c.2 <$> dff)) <$> schema.

(** A CSV document: the fields of the header line and of each record.
    The dialect (separators, quoting, the byte-order mark of "utf-8-sig")
    is beneath this model. *)
Record CsvDoc := {
  header : list string;
  records : list (list string)
}.

(** Line 380: [dff.to_csv(index=False)], for a view [dff] of [df]. *)
Definition to_csv (L : Codec) (df dff : DataFrame) : CsvDoc :=
  {| header := schema.*1;
     records := (λ r, (λ c, render L (cell_of L df c.2 r)) <$> schema) <$> dff |}.

(** The loader's type inference for one column of fields.  The fields
    that are NA tokens are missing values; the others decide the type:
    integers if all are (floats when a value is missing), else floats,
    else booleans, else text. *)
Definition all_parse {A} (L : Codec) (p : string → option A) (fields : list string)
  : bool :=
  forallb (λ f, is_na L f || bool_decide (is_Some (p f))) fields.

Definition no_na (L : Codec) (fields : list string) : bool :=
  forallb (λ f, negb (is_na L f)) fields.

Definition convert {A} (L : Codec) (p : string → option A)
    (v : A → value (float L)) (f : string) : value (float L) :=
  if is_na L f then VNaN
  else match p f with Some x => v x | None => VNaN end.

Definition infer_column (L : Codec) (fields : list string) : list (value (float L)) :=
  if all_parse L (parse_int L) fields then
    if no_na L fields
    then convert L (parse_int L) VInt <$> fields
    else convert L (parse_int L) (λ z, VFloat (float_of_int L z)) <$> fields
  else if all_parse L (parse_float L) fields then
    convert L (parse_float L) VFloat <$> fields
  else if all_parse L (parse_bool L) fields then
    convert L (parse_bool L) VBool <$> fields
  else
    convert L Some (λ s, VStr s) <$> fields.

(** [str.isspace] on one character, which is also what [str.strip()]
    takes off: the whitespace of Unicode as Python has it. *)
Definition unicode_isspace (c : N) : bool :=
  ((9 <=? c) && (c <=? 13) || (28 <=? c) && (c <=? 32)
   || (c =? 133) || (c =? 160) || (c =? 5760)
   || (8192 <=? c) && (c <=? 8202)
   || (c =? 8232) || (c =? 8233) || (c =? 8239) || (c =? 8287) || (c =? 12288))%N.

(** The UTF-8 bytes of a code point, and the text of a [str]. *)
Definition encode_utf8 (c : N) : list N :=
  (if c <? 128 then [c]
   else if c <? 2048 then [192 + c / 64; 128 + c mod 64]
   else if c <? 65536 then [224 + c / 4096; 128 + c / 64 mod 64; 128 + c mod 64]
   else [240 + c / 262144; 128 + c / 4096 mod 64; 128 + c / 64 mod 64;
         128 + c mod 64])%N.

Definition text_of (p : pystr) : string :=
  String.string_of_list_ascii (Ascii.ascii_of_N <$> (p ≫= encode_utf8)).

(** [str.strip()] on a column name (line 127): the whitespace at both
    ends is taken off. *)
Fixpoint lstrip (p : pystr) : pystr :=
  match p with
  | c :: p' => if unicode_isspace c then lstrip p' else p
  | [] => []
  end.

Definition strip_points (p : pystr) : pystr :=
  reverse (lstrip (reverse (lstrip p))).

Definition strip (s : string) : string := text_of (strip_points (u s)).

(** Lines 125-129: [pd.read_csv] and the renaming of the columns. *)
Definition _read_csv (L : Codec) (doc : CsvDoc) : Table L :=
  imap (λ j name,
          (strip name,
           infer_column L ((λ rec, default "" (rec !! j)) <$> records doc)))
       (header doc).

(** A text column is read back as text when it has no present value that
    decides otherwise: not every present value reads as an integer, nor
    every one as a float, nor every one as a boolean. *)
Definition retyped (L : Codec) (texts : list string) : bool :=
  forallb (λ s, bool_decide (is_Some (parse_int L s))) texts
  || forallb (λ s, bool_decide (is_Some (parse_float L s))) texts
  || forallb (λ s, bool_decide (is_Some (parse_bool L s))) texts.

Definition keeps_text (L : Codec) (texts : list string) : Prop :=
  texts = [] ∨ retyped L texts = false.

(** What the round trip needs of a view: its integers are int64, its
    texts are not NA tokens, and its text columns are read back as text. *)
Definition exportable (L : Codec) (dff : DataFrame) : Prop :=
  Forall (λ c, match c.2 with
               | Num f => ∀ r z, r ∈ dff → f r = Some z → int64 z
               | Txt f => (∀ r s, r ∈ dff → f r = Some s → is_na L s = false)
                          ∧ keeps_text L (dropna (column f dff))
               end) schema.

(** A codec to compute with: the NA tokens of pandas, decimal integers,
    the floats with an integral value written "<digits>.0", and the
    boolean words of the loader. *)
Definition na_values : list string :=
  [ ""; "#N/A"; "#N/A N/A"; "#NA"; "-1.#IND"; "-1.#QNAN"; "-NaN"; "-nan";
    "1.#IND"; "1.#QNAN"; "<NA>"; "N/A"; "NA"; "NULL"; "NaN"; "None";
    "n/a"; "nan"; "null" ].

Definition plain_parse_int (s : string) : option Z :=
  Z.of_int <$> NilZero.int_of_string s.

Definition plain_repr_float (x : Z) : string := repr_int x +:+ ".0".

Definition plain_parse_float (s : string) : option Z :=
  match reverse (String.list_ascii_of_string s) with
  | "0"%char :: "."%char :: rest =>
      plain_parse_int (String.string_of_list_ascii (reverse rest))
  | _ => plain_parse_int s
  end.

Definition plain_parse_bool (s : string) : option bool :=
  if bool_decide (s ∈ ["True"; "TRUE"; "true"]) then Some true
  else if bool_decide (s ∈ ["False"; "FALSE"; "false"]) then Some false
  else None.

Definition plain : Codec :=
  {| float := Z;
     float_of_int := id;
     repr_float := plain_repr_float;
     is_na := λ s, bool_decide (s ∈ na_values);
     parse_int := plain_parse_int;
     parse_float := plain_parse_float;
     parse_bool := plain_parse_bool |}.

(** A dataset whose language column is text, and the view of its first
    row, selected by age. *)
Definition langues_rows : DataFrame :=
  [ {| ID := Some 1; Age := Some 22; Sexe := Some "M"; Diplome := Some "Licence";
       Q1_Domaine := Some "Finance"; Q2_Stage := Some "Oui";
       Q3_Difficulte := Some "Experience"; Q4_Informatique := Some "Moyen";
       Q5_Langues := Some "007"; Q6_Salaire_ZAR := Some 12000;
       Q7_Mobilite := Some "Oui"; Q8_Formation := Some 4;
       Q9_Entreprenariat := Some "Non"; Q10_LinkedIn := Some "Oui";
       Q11_Candidatures := Some 5; Q12_Mentorat := Some "Non" |};
    {| ID := Some 2; Age := Some 30; Sexe := Some "F"; Diplome := Some "Master";
       Q1_Domaine := Some "Droit"; Q2_Stage := Some "Non";
       Q3_Difficulte := Some "Reseau"; Q4_Informatique := Some "Faible";
       Q5_Langues := Some "Anglais"; Q6_Salaire_ZAR := Some 15000;
       Q7_Mobilite := Some "Non"; Q8_Formation := Some 3;
       Q9_Entreprenariat := Some "Oui"; Q10_LinkedIn := Some "Non";
       Q11_Candidatures := Some 2; Q12_Mentorat := Some "Oui" |} ].

(** A row with an identifier, an age and three answers, for examples. *)
Definition answer (i a : Z) (d q2 q3 : option string) : Row :=
  {| ID := Some i; Age := Some a; Sexe := None; Diplome := d;
     Q1_Domaine := None; Q2_Stage := q2; Q3_Difficulte := q3;
     Q4_Informatique := None; Q5_Langues := None; Q6_Salaire_ZAR := None;
     Q7_Mobilite := None; Q8_Formation := None; Q9_Entreprenariat := None;
     Q10_LinkedIn := None; Q11_Candidatures := None; Q12_Mentorat := None |}.

(** ** The sidebar widgets (lines 152-159) *)

(** [Series.min()]: the smallest present value; [None] (NaN) when there is
    none. *)
Definition series_min (s : Series (option Z)) : option Z :=
  match dropna s with
  | [] => None
  | x :: xs => Some (foldr Z.min x xs)
  end.

(** Line 152: [age_min, age_max = int(df["Âge"].min()), int(df["Âge"].max())].
    [None] is the [ValueError] of [int] on NaN.  Line 153 makes
    [(age_min, age_max)] the bounds and the initial value of the slider. *)
Definition age_bounds (df : DataFrame) : option (Z * Z) :=
  age_min ← series_min (column Age df);
  age_max ← series_max (column Age df);
  Some (age_min, age_max).

(** [Series.unique()]: the distinct values in order of first appearance;
    [seen] holds the values met so far. *)
Fixpoint unique_from (seen : list string) (s : Series string) : list string :=
  match s with
  | [] => []
  | x :: s' =>
      if decide (x ∈ seen) then unique_from seen s'
      else x :: unique_from (x :: seen) s'
  end.

Definition unique (s : Series string) : list string := unique_from [] s.

(** Lines 154-159: [sorted(df[col].dropna().unique().tolist())], the
    options of a multiselect. *)
Definition options (col : Row → option string) (df : DataFrame) : list string :=
  merge_sort str_le (unique (dropna (column col df))).

(** The rows that pass an age range and a list of constraints. *)
Definition passes (age : Z * Z) (cs : list Constraint) (r : Row) : Prop :=
  age_in_range age r ∧ Forall (λ c, member_if_active c r) cs.

#[export] Instance passes_dec age cs r : Decision (passes age cs r).
Proof. unfold passes. apply _. Defined.

(** A selection restricts no less than another: the other is empty (no
    constraint), or this one is a non-empty part of it. *)
Definition narrower_list (l' l : list string) : Prop :=
  l = [] ∨ (l' ≠ [] ∧ l' ⊆ l).

(** A filter state selects no more than another: its age range lies
    within the other's and each of its selections restricts no less. *)
Definition narrower (fs' fs : Filters) : Prop :=
  (f_age fs).1 ≤ (f_age fs').1 ∧ (f_age fs').2 ≤ (f_age fs).2
  ∧ narrower_list (f_sexe fs') (f_sexe fs)
  ∧ narrower_list (f_diplome fs') (f_diplome fs)
  ∧ narrower_list (f_domaine fs') (f_domaine fs)
  ∧ narrower_list (f_stage fs') (f_stage fs)
  ∧ narrower_list (f_mobilite fs') (f_mobilite fs)
  ∧ narrower_list (f_linkedin fs') (f_linkedin fs).

(** The filter state with every option of the internship widget selected
    on [two_rows]. *)
Definition stage_all : Filters :=
  {| f_age := (18, 60); f_sexe := []; f_diplome := [];
     f_domaine := []; f_stage := options Q2_Stage two_rows;
     f_mobilite := []; f_linkedin := [] |}.

(** ** Group counts and the long form of the cross-tabulation
    (lines 357, 366-367) *)

(** The order of the group keys: pairs of labels compared as Python
    compares tuples, the first components first. *)
Definition pair_le (p q : string * string) : Prop :=
  (p.1 ≠ q.1 ∧ str_le p.1 q.1) ∨ (p.1 = q.1 ∧ str_le p.2 q.2).

#[export] Instance pair_le_dec p q : Decision (pair_le p q).
Proof. unfold pair_le. apply _. Defined.

(** [df.groupby([a, b]).size().reset_index(name="Effectif")]: one record
    per pair of values observed together, in the order of the keys, with
    the number of rows of the group.  A row with a missing key belongs to
    no group (the default [dropna=True]). *)
Definition groupby_size (a b : Series (option string))
  : list (string * string * nat) :=
  let pairs := present_pairs a b in
  (λ p, (p, length (filter (p =.) pairs)))
    <$> merge_sort pair_le (remove_dups pairs).

(** Line 357: [grp = dff.groupby(["Diplôme", "Q7_Mobilité"]).size()
    .reset_index(name="Effectif")]. *)
Definition grp (dff : DataFrame) : list (string * string * nat) :=
  groupby_size (column Diplome dff) (column Q7_Mobilite dff).

(** [DataFrame.empty]: no row label or no column label. *)
Definition empty (t : CrossTab) : bool :=
  bool_decide (index t = []) || bool_decide (columns t = []).

(** Line 367: [ct.reset_index().melt(id_vars="Q3_Difficulté",
    var_name="Diplôme", value_name="Effectif")]: one record (row label,
    column label, count) per cell of the matrix, column after column. *)
Definition melt (t : CrossTab) : list (string * string * nat) :=
  mjoin (imap (λ j b, (λ row, (row.1, b, default 0%nat (row.2 !! j)))
                        <$> zip (index t) (values t))
              (columns t)).

(** The rows of a view where two columns are both present. *)
Definition both_present (a b : Row → option string) (r : Row) : Prop :=
  is_Some (a r) ∧ is_Some (b r).

#[export] Instance both_present_dec a b r : Decision (both_present a b r).
Proof. unfold both_present. apply _. Defined.

(** The words the loop of lines 277-282 goes through, in order: those of
    each present text of the Series. *)
Definition words_of (U : UnicodeData) (series : Series (option pystr)) : list pystr :=
  dropna series ≫= (λ t, split U (normalise U t)).

(** How often [w] occurs in a list of words. *)
Definition occurrences (w : pystr) (words : list pystr) : nat :=
  length (filter (w =.) words).

(** A character that [str.split()] keeps. *)
Definition visible (U : UnicodeData) (c : N) : Prop := isspace U c = false.

#[export] Instance visible_dec U c : Decision (visible U c).
Proof. unfold visible. apply _. Defined.

(** Two Series of answers used as concrete inputs. *)
(** A view in which two degrees occur twice and two once. *)
Definition tie_rows : DataFrame :=
  [ answer 1 22 (Some "w03") None None; answer 2 23 (Some "w01") None None;
    answer 3 24 (Some "w00") None None; answer 4 25 (Some "w04") None None;
    answer 5 26 (Some "w00") None None; answer 6 27 (Some "w04") None None ].

Definition answers : Series (option pystr) :=
  [Some (u "emploi stable"); None; Some (u "Stage, emploi")].

Definition answers' : Series (option pystr) :=
  [Some (u "Stage, emploi"); Some (u "emploi stable"); None].

(** The kind of a cell that is not NaN. *)
Inductive kind := KInt | KFloat | KBool | KStr.

Definition kind_of {F} (v : value F) : option kind :=
  match v with
  | VInt _ => Some KInt
  | VFloat _ => Some KFloat
  | VBool _ => Some KBool
  | VStr _ => Some KStr
  | VNaN => None
  end.

(** A [str] that does not start with whitespace, and one that has none
    at either end. *)
Definition starts_visible (p : pystr) : Prop :=
  match p with
  | c :: _ => unicode_isspace c = false
  | [] => True
  end.

Definition trimmed (p : pystr) : Prop :=
  starts_visible p ∧ starts_visible (reverse p).

(** A byte string that is the UTF-8 text of its code points. *)
Definition utf8_text (s : string) : Prop := text_of (u s) = s.

(** A document that [pd.read_csv] takes as it is, without renaming a
    column or refusing a line: the names of the header are UTF-8 texts,
    distinct and not empty, and no record has more fields than the
    header. *)
Definition well_formed (doc : CsvDoc) : Prop :=
  Forall utf8_text (header doc)
  ∧ NoDup (header doc)
  ∧ Forall (λ name, name ≠ "") (header doc)
  ∧ Forall (λ rec, (length rec ≤ length (header doc))%nat) (records doc).

(** A header whose second name is wrapped in no-break spaces, over one
    record. *)
Definition nbsp_doc : CsvDoc :=
  {| header := ["ID"; text_of ([160] ++ u "Âge" ++ [160])%N];
     records := [["1"; "22"]] |}.

(** ** The words of a text, as the specification has them *)

(** The characters that end a word: those that are not word characters,
    the whitespace, and the two apostrophes. *)
Definition separator (U : UnicodeData) (c : N) : bool :=
  negb (is_word U c) || isspace U c || (c =? 39)%N || (c =? 8217)%N.

(** The database whose whitespace is the separators: [split] with it
    cuts a text at every separator. *)
Definition at_separators (U : UnicodeData) : UnicodeData :=
  {| str_lower := str_lower U; isalnum := isalnum U; isspace := separator U |}.

(** The maximal runs of characters that are not separators, in the
    lower-case form of the text. *)
Definition tokens (U : UnicodeData) (t : pystr) : list pystr :=
  split (at_separators U) (str_lower U t).

(** ** Row appender, on the file (lines 388, 410-421) *)

(** The arithmetic of line 388.  [df["ID"].max()] is a NumPy int64 when
    the column holds no missing value: adding 1 wraps around at 2^63. *)
Definition wrap64 (z : Z) : Z := (z + 2 ^ 63) mod 2 ^ 64 - 2 ^ 63.

(** It is a float64 when the column has a missing value.  [round53] is
    the float nearest to an integer (53 significant bits, ties to the even
    one); the sum of two floats is the float nearest to their sum. *)
Definition round53 (z : Z) : Z :=
  let a := Z.abs z in
  if a <? 2 ^ 53 then z
  else
    let e := Z.log2 a - 52 in
    let q := a / 2 ^ e in
    let r := a mod 2 ^ e in
    let q' := if 2 * r <? 2 ^ e then q
              else if 2 ^ e <? 2 * r then q + 1
              else if Z.even q then q else q + 1 in
    Z.sgn z * (q' * 2 ^ e).

(** Line 388: [_id = int((df["ID"].max() if "ID" in df.columns else 0) + 1)],
    computed from the dataset [df] of the session.  [id_in_columns] tells
    whether [df] has an "ID" column.  [None] is the [ValueError] that
    [int] raises on NaN, when the column holds no identifier. *)
Definition _id (id_in_columns : bool) (df : DataFrame) : option Z :=
  if id_in_columns
  then m ← series_max (column ID df);
       Some (if is_int64 ID df then wrap64 (m + 1)
             else round53 (round53 m + 1))
  else Some (0 + 1).

(** The fields of one column of a document; a record that is too short
    has an empty field there. *)
Definition fields (j : nat) (doc : CsvDoc) : list string :=
  (λ rec, default "" (rec !! j)) <$> records doc.

(** [pd.read_csv] as line 419 calls it: one column per name of the
    header, under the name as the file has it (only [_read_csv] strips
    the names), each with the type the loader infers. *)
Definition read_csv (L : Codec) (doc : CsvDoc) : Table L :=
  imap (λ j name, (name, infer_column L (fields j doc))) (header doc).

Definition nrows {L : Codec} (t : Table L) : nat :=
  match t with
  | [] => 0
  | c :: _ => length c.2
  end.

Fixpoint column_named {L : Codec} (name : string) (t : Table L)
  : option (list (value (float L))) :=
  match t with
  | [] => None
  | c :: t' => if decide (c.1 = name) then Some c.2 else column_named name t'
  end.

(** [pd.DataFrame([new_row])]: one row under the sixteen keys of lines
    411-417. *)
Definition row_table (L : Codec) (r : Row) : Table L := to_table L [r] [r].

(** The cells of a column that [pd.concat] has put together.  Integers
    stay integers only when every cell is one: with a float or a missing
    value among numbers the column is float64 and its integers become
    floats.  A column that holds text or booleans keeps its cells as
    they are. *)
Definition numeric {F} (v : value F) : bool :=
  match v with
  | VInt _ | VFloat _ | VNaN => true
  | VBool _ | VStr _ => false
  end.

Definition integral {F} (v : value F) : bool :=
  match v with
  | VInt _ => true
  | _ => false
  end.

Definition coerce (L : Codec) (cells : list (value (float L)))
  : list (value (float L)) :=
  if forallb numeric cells && negb (forallb integral cells)
  then (λ v, match v with VInt z => VFloat (float_of_int L z) | _ => v end) <$> cells
  else cells.

(** Line 420: [pd.concat([base, row], ignore_index=True)] for a one-row
    table [row].  The columns are matched by name: those of [base] come
    first, each with the cell of [row] under the same name, or NaN when
    [row] has no such column; the columns that only [row] has follow,
    NaN in every row of [base]. *)
Definition concat (L : Codec) (base row : Table L) : Table L :=
  ((λ c, (c.1, coerce L (c.2 ++ [default VNaN (column_named c.1 row ≫= (.!! 0%nat))])))
     <$> base)
  ++ ((λ c, (c.1, coerce L (replicate (nrows base) VNaN ++ c.2)))
        <$> filter (λ c, c.1 ∉ base.*1) row).

(** Line 421: [to_csv(index=False)] of a table. *)
Definition write_csv (L : Codec) (t : Table L) : CsvDoc :=
  {| header := t.*1;
     records := (λ i, (λ c, render L (default VNaN (c.2 !! i))) <$> t)
                  <$> seq 0 (nrows t) |}.

(** [df.copy()], the dataset of the session as a table (line 419, when
    there is no file at [csv_path]). *)
Definition session_table (L : Codec) (id_in_columns : bool) (df : DataFrame)
  : Table L :=
  filter (λ c, id_in_columns = true ∨ c.1 ≠ "ID") (to_table L df df).

(** Lines 388 and 410-421.  [df] is the dataset of the session, [source]
    the document in the file at [csv_path] ([None] when there is no such
    file); the result is the document written back.  The identifier
    comes from [df], [base] from the file, read again. *)
Definition append (L : Codec) (df : DataFrame) (id_in_columns : bool)
    (source : option CsvDoc) (f : Form) : option CsvDoc :=
  i ← _id id_in_columns df;
  let base := match source with
              | Some doc => read_csv L doc
              | None => session_table L id_in_columns df
              end in
  Some (write_csv L (concat L base (row_table L (new_row i f)))).

(** *** The script from one run to the next *)

(** What outlasts a run of the script: the file at [csv_path], and the
    entry of [st.cache_data] for [_read_csv] (line 124), the dataset as
    it was last read, kept for 60 seconds. *)
Record App := {
  file : CsvDoc;
  cache : option DataFrame
}.

(** A dataset is what the loader makes of a document. *)
Definition loads (L : Codec) (doc : CsvDoc) (df : DataFrame) : Prop :=
  _read_csv L doc = to_table L df df.

(** Lines 131-146, without an upload: the dataset of a run is the cached
    one when there is one, else the file is read and cached. *)
Inductive run (L : Codec) : App → DataFrame → App → Prop :=
| run_cached app df :
    cache app = Some df → run L app df app
| run_read app df :
    cache app = None → loads L (file app) df →
    run L app df {| file := file app; cache := Some df |}.

(** The 60 seconds have passed. *)
Definition expire (app : App) : App := {| file := file app; cache := None |}.

(** A click on "Ajouter": in the run it starts, with the dataset [df],
    lines 388 and 410-421 write the file; the cache is not touched. *)
Definition submit (L : Codec) (df : DataFrame) (f : Form) (app : App) : option App :=
  doc ← append L df true (Some (file app)) f;
  Some {| file := doc; cache := cache app |}.

(** The next identifier is exact: it fits the type of the identifier
    column of the dataset (int64, or float64 when a value is missing). *)
Definition next_fits (df : DataFrame) (k : Z) : Prop :=
  if is_int64 ID df then -2 ^ 63 ≤ k < 2 ^ 63 - 1 else -2 ^ 53 < k < 2 ^ 53 - 1.

(** The dataset of the session after the first answer of [a_form] was
    added to [two_rows] and the file read again. *)
Definition reloaded_rows : DataFrame := two_rows ++ [new_row 3 a_form].

(** * Theorems *)

(** ** Filter engine *)

Lemma truthy_false {A} (l : list A) : truthy l = false ↔ l = [].
Proof. destruct l; simpl; split; congruence. Qed.

Lemma mask_and_map (p q : Row → bool) (df : DataFrame) :
  mask_and (map p df) (map q df) = map (λ r, p r && q r) df.
Proof.
  unfold mask_and. induction df as [|r df IH]; simpl; [done|]. by rewrite IH.
Qed.

Lemma mask_step_map (p : Row → bool) (c : Constraint) (df : DataFrame) :
  mask_step df (map p df) c = map (λ r, p r && member_b c r) df.
Proof.
  unfold mask_step, member_b, isin, column. destruct (truthy c.2).
  - rewrite map_map. apply mask_and_map.
  - apply map_ext. intros r. by rewrite andb_true_r.
Qed.

Lemma foldl_mask_step (df : DataFrame) (cs : list Constraint) (p : Row → bool) :
  foldl (mask_step df) (map p df) cs
  = map (λ r, p r && forallb (λ c, member_b c r) cs) df.
Proof.
  revert p. induction cs as [|c cs IH]; intros p; simpl.
  - apply map_ext. intros r. by rewrite andb_true_r.
  - rewrite mask_step_map, IH. apply map_ext. intros r.
    by rewrite andb_assoc.
Qed.

Lemma mask_from_map (df : DataFrame) (age : Z * Z) (cs : list Constraint) :
  mask_from df age cs = map (passes_b age cs) df.
Proof.
  unfold mask_from, between, column. rewrite map_map.
  apply (foldl_mask_step df cs (age_b age)).
Qed.

(** The six lines 163-168 are the fold of [mask_step] over [constraints]. *)
Lemma mask_of_constraints (df : DataFrame) (fs : Filters) :
  mask_of df fs = mask_from df (f_age fs) (constraints fs).
Proof. reflexivity. Qed.

Lemma boolean_index_map (P : Row → Prop) `{!∀ r, Decision (P r)}
    (p : Row → bool) (df : DataFrame) :
  (∀ r, p r = true ↔ P r) →
  boolean_index df (map p df) = filter P df.
Proof.
  intros Hp. induction df as [|r df IH]; [done|].
  rewrite filter_cons. cbn [map boolean_index]. rewrite IH.
  destruct (p r) eqn:E.
  - rewrite decide_True; [done|]. by apply Hp.
  - rewrite decide_False; [done|]. intros HP. apply Hp in HP. congruence.
Qed.

Lemma age_b_spec (age : Z * Z) (r : Row) :
  age_b age r = true ↔ age_in_range age r.
Proof.
  unfold age_b, age_in_range. destruct (Age r) as [a|].
  - rewrite andb_true_iff, !Z.leb_le. split.
    + intros H. eauto.
    + intros (a' & [= <-] & H). done.
  - split; [done|]. intros (a' & [=] & _).
Qed.

Lemma member_b_spec (c : Constraint) (r : Row) :
  member_b c r = true ↔ member_if_active c r.
Proof.
  unfold member_b, member_if_active. destruct (truthy c.2) eqn:E.
  - assert (c.2 ≠ []) as Hne.
    { intros H. apply truthy_false in H. congruence. }
    destruct (c.1 r) as [v|].
    + rewrite bool_decide_eq_true. split.
      * intros H _. eauto.
      * intros H. destruct (H Hne) as (v' & [= <-] & ?). done.
    + split; [done|]. intros H. destruct (H Hne) as (v' & [=] & _).
  - apply truthy_false in E. split; [|done]. intros _ H. done.
Qed.

Lemma passes_b_spec (fs : Filters) (r : Row) :
  passes_b (f_age fs) (constraints fs) r = true ↔ satisfies fs r.
Proof.
  unfold passes_b, satisfies.
  rewrite andb_true_iff, age_b_spec, forallb_forall, Forall_forall.
  split; intros [Ha Hc]; split; try done; intros c Hin.
  - apply member_b_spec, Hc. by apply list_elem_of_In.
  - apply member_b_spec, Hc. by apply list_elem_of_In.
Qed.

Lemma apply_filters_filter (df : DataFrame) (fs : Filters) :
  apply_filters df fs = filter (satisfies fs) df.
Proof.
  unfold apply_filters. rewrite mask_of_constraints, mask_from_map.
  apply boolean_index_map. apply passes_b_spec.
Qed.

(** C1.  The filtered view is the dataset restricted, in order, to the
    rows satisfying every active predicate: it is a subsequence of the
    dataset, every row occurs in it as often as it does among the
    satisfying rows of the dataset, and a row belongs to it exactly when it
    is a row of the dataset that satisfies the conjunction of the age range
    and of every non-empty set-membership constraint. *)
Theorem filtered_view_exact (df : DataFrame) (fs : Filters) :
  apply_filters df fs = filter (satisfies fs) df
  ∧ sublist (apply_filters df fs) df
  ∧ (∀ r, r ∈ apply_filters df fs ↔ r ∈ df ∧ satisfies fs r)
  ∧ (∀ r, count_occ Row_eq_dec (apply_filters df fs) r
          = if decide (satisfies fs r) then count_occ Row_eq_dec df r else 0%nat).
Proof.
  rewrite apply_filters_filter. split_and!.
  - done.
  - apply sublist_filter.
  - intros r. rewrite list_elem_of_filter. tauto.
  - intros r. induction df as [|x df IH].
    + by destruct (decide _).
    + rewrite filter_cons.
      destruct (decide (satisfies fs x)) as [Hx|Hx]; cbn [count_occ].
      * destruct (Row_eq_dec x r) as [->|]; rewrite IH; [|done].
        by rewrite !decide_True by done.
      * destruct (Row_eq_dec x r) as [->|]; rewrite IH; [|done].
        by rewrite !decide_False by done.
Qed.

Lemma forallb_delete {A} (f : A → bool) (l : list A) (i : nat) (x : A) :
  l !! i = Some x → f x = true → forallb f (delete i l) = forallb f l.
Proof.
  revert i. induction l as [|y l IH]; intros [|i] Hl Hx; simplify_eq/=.
  - by rewrite Hx.
  - by rewrite (IH i).
Qed.

(** C2.  When the allowed set of a categorical widget is empty, the
    filtered view is the one computed with that column's constraint
    removed from the filter altogether. *)
Theorem empty_constraint_is_no_constraint
    (df : DataFrame) (fs : Filters) (i : nat) (col : Row → option string) :
  constraints fs !! i = Some (col, []) →
  apply_filters df fs
  = boolean_index df (mask_from df (f_age fs) (delete i (constraints fs))).
Proof.
  intros Hi. unfold apply_filters.
  rewrite mask_of_constraints, !mask_from_map. f_equal.
  apply map_ext. intros r. unfold passes_b. f_equal.
  symmetry. by apply (forallb_delete _ _ i (col, [])).
Qed.

Lemma empty_constraint_is_no_constraint_witness :
  apply_filters two_rows (no_filter (18, 60))
  = boolean_index two_rows
      (mask_from two_rows (18, 60) (delete 1%nat (constraints (no_filter (18, 60))))).
Proof.
  apply (empty_constraint_is_no_constraint two_rows (no_filter (18, 60)) 1 Diplome).
  reflexivity.
Defined.

(** C10.  Whatever the filter state, every row of the filtered view has an
    age, and that age lies in the selected range: the age mask is always
    applied and is false on a missing value. *)
Theorem filtered_view_has_age (df : DataFrame) (fs : Filters) :
  Forall (λ r, ∃ a, Age r = Some a ∧ (f_age fs).1 ≤ a ≤ (f_age fs).2)
         (apply_filters df fs).
Proof.
  rewrite apply_filters_filter. apply Forall_forall. intros r Hr.
  apply list_elem_of_filter in Hr as [[Hage _] _]. exact Hage.
Qed.

(** ** KPIs *)

(** C4.  On a view without rows the count is 0 and the mean and the four
    rates take the placeholder 0: a finite number, not NaN. *)
Theorem kpis_on_empty_view (dff : DataFrame) :
  dff = [] →
  nb_rep dff = 0%nat ∧ avg_salary dff = Fin 0 ∧ stage_rate dff = Fin 0
  ∧ mob_rate dff = Fin 0 ∧ entre_rate dff = Fin 0 ∧ li_rate dff = Fin 0.
Proof. intros ->. by repeat split. Qed.

Lemma kpis_on_empty_view_witness :
  let dff := apply_filters two_rows (no_filter (40, 60)) in
  nb_rep dff = 0%nat ∧ avg_salary dff = Fin 0 ∧ stage_rate dff = Fin 0
  ∧ mob_rate dff = Fin 0 ∧ entre_rate dff = Fin 0 ∧ li_rate dff = Fin 0.
Proof. apply kpis_on_empty_view. reflexivity. Defined.

Lemma count_true_eq (col : Row → option string) (target : string) (dff : DataFrame) :
  length (List.filter id (eq_ (column col dff) target))
  = length (filter (λ r, col r = Some target) dff).
Proof.
  unfold eq_, column. induction dff as [|r dff IH]; [done|].
  rewrite filter_cons. cbn [map List.filter].
  destruct (decide (col r = Some target)) as [E|E].
  - rewrite bool_decide_eq_true_2 by done. cbn. by rewrite IH.
  - rewrite bool_decide_eq_false_2 by done. cbn. exact IH.
Qed.

Lemma rate_kpi_over_rows (col : Row → option string) (dff : DataFrame) :
  rate_kpi col dff = rate_over_rows col "Oui" dff.
Proof.
  unfold rate_kpi, rate_over_rows, nb_rep. destruct dff as [|r dff]; [done|].
  cbn [length]. unfold mean_bool.
  change (eq_ (column col (r :: dff)) "Oui")
    with (bool_decide (col r = Some "Oui") :: eq_ (column col dff) "Oui").
  cbn [times].
  change (bool_decide (col r = Some "Oui") :: eq_ (column col dff) "Oui")
    with (eq_ (column col (r :: dff)) "Oui").
  rewrite count_true_eq. unfold eq_, column. by rewrite !length_map.
Qed.

(** C3, as the code has it.  Each rate KPI is 100 times the number of rows
    whose value equals "Oui" divided by the number of rows of the view,
    and 0 on the view without rows: a row whose value is missing counts in
    the denominator like any row that does not match. *)
Theorem rate_counts_every_row (dff : DataFrame) :
  stage_rate dff = rate_over_rows Q2_Stage "Oui" dff
  ∧ mob_rate dff = rate_over_rows Q7_Mobilite "Oui" dff
  ∧ entre_rate dff = rate_over_rows Q9_Entreprenariat "Oui" dff
  ∧ li_rate dff = rate_over_rows Q10_LinkedIn "Oui" dff.
Proof. repeat split; apply rate_kpi_over_rows. Qed.

(** C3, as the specification words it, fails on a view with a missing
    value: of the two rows of [two_rows] one did an internship and one has
    no answer; the KPI is 50, the rate over the present values is 100. *)
Lemma rate_excludes_missing_counterexample :
  stage_rate two_rows = Fin (of_Z 50)
  ∧ rate_over_present Q2_Stage "Oui" two_rows = Fin (of_Z 100)
  ∧ stage_rate two_rows ≠ rate_over_present Q2_Stage "Oui" two_rows.
Proof.
  assert (stage_rate two_rows = Fin (of_Z 50)) as H1.
  { cbv -[Qcdiv Qcmult of_nat of_Z]. f_equal; apply Qc_is_canon; reflexivity. }
  assert (rate_over_present Q2_Stage "Oui" two_rows = Fin (of_Z 100)) as H2.
  { cbv -[Qcdiv Qcmult of_nat of_Z]. f_equal; apply Qc_is_canon; reflexivity. }
  split_and!; [done..|]. rewrite H1, H2. intros [=].
Qed.

(** ** Frequency tables *)

Section value_count.
Implicit Types (k x : string) (tbl : FrequencyTable) (s : list string).

Lemma keys_bump k tbl :
  keys (bump k tbl) = if decide (k ∈ keys tbl) then keys tbl else keys tbl ++ [k].
Proof.
  unfold keys. induction tbl as [|[k' n] tbl IH]; [done|]. cbn [bump].
  destruct (decide (k = k')) as [->|Hne].
  - cbn. rewrite decide_True; [done|]. apply list_elem_of_here.
  - cbn. rewrite IH. destruct (decide (k ∈ tbl.*1)) as [Hin|Hin].
    + rewrite decide_True; [done|]. by apply list_elem_of_further.
    + rewrite decide_False; [done|]. by intros [?|?]%elem_of_cons.
Qed.

Lemma sum_bump k tbl : sum_list (counts (bump k tbl)) = S (sum_list (counts tbl)).
Proof.
  unfold counts. induction tbl as [|[k' n] tbl IH]; [done|]. cbn [bump].
  destruct (decide (k = k')); cbn; [done|]. rewrite IH. lia.
Qed.

Lemma NoDup_keys_bump k tbl : NoDup (keys tbl) → NoDup (keys (bump k tbl)).
Proof.
  intros Hnd. rewrite keys_bump. destruct (decide (k ∈ keys tbl)); [done|].
  apply NoDup_app. split_and!; [done| |apply NoDup_singleton].
  intros x Hx ->%list_elem_of_singleton. done.
Qed.

Lemma count_of_bump k x tbl :
  count_of k (bump x tbl) = (count_of k tbl + if decide (k = x) then 1 else 0)%nat.
Proof.
  induction tbl as [|[k' n] tbl IH]; cbn [bump count_of].
  - destruct (decide (k = x)); done.
  - destruct (decide (x = k')) as [->|Hne]; cbn [count_of].
    + destruct (decide (k = k')); lia.
    + rewrite IH. destruct (decide (k = k')) as [->|]; [|done].
      rewrite decide_False by done. lia.
Qed.

Lemma count_of_elem k n tbl :
  NoDup (keys tbl) → (k, n) ∈ tbl → count_of k tbl = n.
Proof.
  unfold keys. induction tbl as [|[k' n'] tbl IH]; intros Hnd Hin.
  - by apply elem_of_nil in Hin.
  - apply NoDup_cons in Hnd as [Hk' Hnd]. cbn [count_of].
    apply elem_of_cons in Hin as [[= <- <-]|Hin].
    + by rewrite decide_True.
    + rewrite decide_False; [by apply IH|]. intros ->. apply Hk'.
      apply list_elem_of_fmap. by exists (k', n).
Qed.

Lemma foldl_bump_sum s tbl :
  sum_list (counts (foldl (λ tbl k, bump k tbl) tbl s))
  = (sum_list (counts tbl) + length s)%nat.
Proof.
  revert tbl. induction s as [|x s IH]; intros tbl; cbn [foldl length]; [lia|].
  rewrite IH, sum_bump. lia.
Qed.

Lemma foldl_bump_NoDup s tbl :
  NoDup (keys tbl) → NoDup (keys (foldl (λ tbl k, bump k tbl) tbl s)).
Proof.
  revert tbl. induction s as [|x s IH]; intros tbl Hnd; cbn [foldl]; [done|].
  by apply IH, NoDup_keys_bump.
Qed.

Lemma foldl_bump_count k s tbl :
  count_of k (foldl (λ tbl k, bump k tbl) tbl s)
  = (count_of k tbl + length (filter (k =.) s))%nat.
Proof.
  revert tbl. induction s as [|x s IH]; intros tbl; cbn [foldl].
  - cbn. lia.
  - rewrite IH, count_of_bump, filter_cons.
    destruct (decide (k = x)); cbn [length]; lia.
Qed.

Lemma foldl_bump_keys k s tbl :
  k ∈ keys (foldl (λ tbl k, bump k tbl) tbl s) ↔ k ∈ keys tbl ∨ k ∈ s.
Proof.
  revert tbl. induction s as [|x s IH]; intros tbl; cbn [foldl].
  - rewrite elem_of_nil. tauto.
  - rewrite IH, keys_bump, elem_of_cons.
    destruct (decide (x ∈ keys tbl)) as [Hx|Hx].
    + split; [tauto|]. intros [?|[->|?]]; tauto.
    + rewrite elem_of_app, list_elem_of_singleton. tauto.
Qed.

Lemma count_of_pos k tbl :
  Forall (λ e, 0 < e.2)%nat tbl → k ∈ keys tbl → (0 < count_of k tbl)%nat.
Proof.
  unfold keys. induction tbl as [|[k' n] tbl IH]; intros Hpos Hin.
  - by apply elem_of_nil in Hin.
  - apply Forall_cons in Hpos as [Hn Hpos]. cbn [count_of].
    destruct (decide (k = k')) as [->|Hne]; [done|].
    apply IH; [done|]. cbn in Hin. apply elem_of_cons in Hin as [?|?]; done.
Qed.

Lemma count_of_keys k tbl :
  NoDup (keys tbl) → k ∈ keys tbl → (k, count_of k tbl) ∈ tbl.
Proof.
  unfold keys. intros Hnd Hin. apply list_elem_of_fmap in Hin as [[k' n] [-> Hin]].
  cbn. by rewrite (count_of_elem k' n).
Qed.

End value_count.

Section sort_desc.
Implicit Types (e a b : string * nat) (l : FrequencyTable).

Lemma insert_desc_Permutation e l : insert_desc e l ≡ₚ e :: l.
Proof.
  induction l as [|e' l IH]; cbn [insert_desc]; [done|].
  destruct (e.2 <? e'.2)%nat; [|done]. rewrite IH. apply Permutation_swap.
Qed.

Lemma sort_desc_Permutation l : sort_desc l ≡ₚ l.
Proof.
  unfold sort_desc. induction l as [|e l IH]; cbn [foldr]; [done|].
  by rewrite insert_desc_Permutation, IH.
Qed.

Lemma insert_desc_sorted e l :
  StronglySorted count_ge l → StronglySorted count_ge (insert_desc e l).
Proof.
  induction 1 as [|e' l Hl IH Hall]; cbn [insert_desc].
  - repeat constructor.
  - destruct (e.2 <? e'.2)%nat eqn:E.
    + apply Nat.ltb_lt in E. constructor; [done|].
      rewrite insert_desc_Permutation. constructor; [|done].
      unfold count_ge. lia.
    + apply Nat.ltb_ge in E. constructor; [by constructor|].
      constructor; [done|]. eapply Forall_impl; [exact Hall|].
      unfold count_ge. intros; cbn in *. lia.
Qed.

Lemma sort_desc_sorted l : StronglySorted count_ge (sort_desc l).
Proof.
  unfold sort_desc. induction l as [|e l IH]; cbn [foldr]; [constructor|].
  by apply insert_desc_sorted.
Qed.

(** Stability: among the entries of any one count the sort changes
    nothing. *)
Lemma insert_desc_stable (c : nat) e l :
  filter (λ x, x.2 = c) (insert_desc e l) = filter (λ x, x.2 = c) (e :: l).
Proof.
  induction l as [|e' l IH]; cbn [insert_desc]; [done|].
  destruct (e.2 <? e'.2)%nat eqn:E; [|done]. apply Nat.ltb_lt in E.
  rewrite (filter_cons _ e'), IH, !filter_cons.
  destruct (decide (e'.2 = c)), (decide (e.2 = c)); try done. lia.
Qed.

Lemma sort_desc_stable (c : nat) l :
  filter (λ x, x.2 = c) (sort_desc l) = filter (λ x, x.2 = c) l.
Proof.
  unfold sort_desc. induction l as [|e l IH]; cbn [foldr]; [done|].
  by rewrite insert_desc_stable, !filter_cons, IH.
Qed.
End sort_desc.

Lemma sublist_filter_mono {A} (P : A → Prop) `{!∀ x, Decision (P x)} (k l : list A) :
  k `sublist_of` l → filter P k `sublist_of` filter P l.
Proof.
  induction 1 as [|x k l _ IH|x k l _ IH]; [done|..]; rewrite ?filter_cons.
  - destruct (decide (P x)); [by constructor|done].
  - destruct (decide (P x)); [by constructor|done].
Qed.

Lemma omap_split {A B} (f : A → option B) (l : list A) (l1 l2 : list B) (y : B) :
  omap f l = l1 ++ y :: l2 →
  ∃ v1 x v2, l = v1 ++ x :: v2 ∧ f x = Some y ∧ omap f v1 = l1 ∧ omap f v2 = l2.
Proof.
  revert l1. induction l as [|x l IH]; intros l1 Heq.
  - by destruct l1.
  - cbn in Heq. destruct (f x) as [z|] eqn:E.
    + destruct l1 as [|z' l1]; simplify_eq/=.
      * exists [], x, l. by rewrite E.
      * destruct (IH l1) as (v1 & x' & v2 & -> & Hx' & <- & <-); [done|].
        exists (x :: v1), x', v2. cbn. by rewrite E.
    + destruct (IH l1 Heq) as (v1 & x' & v2 & -> & Hx' & <- & <-).
      exists (x :: v1), x', v2. cbn. by rewrite E.
Qed.

Lemma dropna_column {A} (col : Row → option A) (view : DataFrame) :
  dropna (column col view) = omap col view.
Proof.
  unfold dropna, column. induction view as [|r view IH]; [done|].
  cbn. rewrite IH. by destruct (col r).
Qed.

Lemma length_dropna_column (col : Row → option string) (view : DataFrame) :
  (length (omap col view) + length (filter (λ r, col r = None) view))%nat
  = length view.
Proof.
  induction view as [|r view IH]; [done|]. rewrite filter_cons. cbn.
  destruct (col r) eqn:E; cbn.
  - rewrite decide_False by done. lia.
  - rewrite decide_True by done. cbn. lia.
Qed.

Lemma length_filter_omap {A B} `{EqDecision B} (h : A → option B) (k : B)
    (l : list A) :
  length (filter (k =.) (omap h l)) = length (filter (λ x, h x = Some k) l).
Proof.
  induction l as [|x l IH]; [done|]. rewrite filter_cons.
  change (omap h (x :: l))
    with (match h x with Some v => v :: omap h l | None => omap h l end).
  destruct (h x) as [v|] eqn:E.
  - rewrite filter_cons. destruct (decide (k = v)) as [->|Hne].
    + rewrite decide_True by done. cbn [length]. by rewrite IH.
    + rewrite decide_False by congruence. done.
  - rewrite decide_False by done. done.
Qed.

Lemma value_count_elem (s : list string) (k : string) (c : nat) :
  (k, c) ∈ value_count s ↔ (0 < c)%nat ∧ c = length (filter (k =.) s).
Proof.
  unfold value_count.
  pose proof (foldl_bump_NoDup s [] (NoDup_nil_2)) as Hnd.
  pose proof (foldl_bump_count k s []) as Hc. cbn [count_of Nat.add] in Hc.
  pose proof (foldl_bump_keys k s []) as Hk.
  set (tbl := foldl (λ tbl k, bump k tbl) [] s) in *.
  assert (k ∈ s ↔ (0 < length (filter (k =.) s))%nat) as Hpos.
  { split.
    - intros Hin. assert (k ∈ filter (k =.) s) as Hf by by apply list_elem_of_filter.
      destruct (filter (k =.) s); [by apply elem_of_nil in Hf|cbn; lia].
    - intros Hlen. destruct (filter (k =.) s) as [|x f] eqn:E; [cbn in Hlen; lia|].
      assert (x ∈ filter (k =.) s) as Hx by (rewrite E; apply list_elem_of_here).
      apply list_elem_of_filter in Hx as [-> ?]. done. }
  split.
  - intros Hin. rewrite <-(count_of_elem k c tbl Hnd Hin), Hc. split; [|done].
    apply Hpos. assert (k ∈ keys tbl) as Hkeys.
    { apply list_elem_of_fmap. by exists (k, c). }
    apply Hk in Hkeys as [Hnil|?]; [|done]. by apply elem_of_nil in Hnil.
  - intros [Hc0 ->]. rewrite <-Hc. apply count_of_keys; [done|].
    apply Hk. right. by apply Hpos.
Qed.

Lemma value_count_length (s : list string) :
  length (value_count s) = distinctValues s.
Proof.
  unfold distinctValues. rewrite <-(length_fmap fst (value_count s)).
  apply Permutation_length, NoDup_Permutation.
  - apply (foldl_bump_NoDup s []), NoDup_nil_2.
  - apply NoDup_remove_dups.
  - intros k. rewrite elem_of_remove_dups. unfold value_count.
    rewrite (foldl_bump_keys k s []), elem_of_nil. tauto.
Qed.

(** C5, as the code has it.  Whatever order the sort leaves equal counts
    in: the counts of [valueCounts] add up to the number of rows whose
    value is present (with the rows whose value is missing they add up to
    the row count of the view); every observed value has one entry,
    holding the number of rows that carry it; the entries are in
    descending order of count; and [topN] is the prefix of [valueCounts]
    of length min(n, number of distinct values). *)
Theorem value_counts_topN (S : SortValues) (view : DataFrame)
    (col : Row → option string) (n : nat) :
  let table := valueCounts S view col in
  (sum_list (counts table) + length (filter (λ r, col r = None) view))%nat
    = nb_rep view
  ∧ NoDup (keys table)
  ∧ (∀ k c, (k, c) ∈ table
            ↔ (0 < c)%nat ∧ c = length (filter (λ r, col r = Some k) view))
  ∧ StronglySorted count_ge table
  ∧ topN S view col n `prefix_of` table
  ∧ length (topN S view col n)
    = (n `min` distinctValues (dropna (column col view)))%nat.
Proof.
  unfold topN, head, valueCounts, value_counts. rewrite dropna_column.
  set (s := omap col view).
  pose proof (sort_values_Permutation S (value_count s)) as Hperm.
  cbn zeta. split_and!.
  - unfold counts. rewrite Hperm. fold (counts (value_count s)).
    unfold value_count. rewrite (foldl_bump_sum s []).
    apply length_dropna_column.
  - unfold keys. rewrite Hperm. apply (foldl_bump_NoDup s []), NoDup_nil_2.
  - intros k c. rewrite Hperm, value_count_elem. unfold s.
    by rewrite length_filter_omap.
  - apply sort_values_sorted.
  - apply prefix_take.
  - rewrite length_take, Hperm. by rewrite value_count_length.
Qed.

(** C5, as the specification words it, fails twice.  On a view with a
    missing value the counts do not add up to the row count: the one
    count of [two_rows] for the internship column is 1, the view has 2
    rows.  And the order of equal counts is not that of first occurrence
    under every sort [value_counts] may use: in [tie_rows] the degrees
    first occur in the order w03, w01, w00, w04, and [last_seen] gives
    w04 before w00 and w01 before w03. *)
Lemma value_counts_sum_counterexample :
  valueCounts first_seen two_rows Q2_Stage = [("Oui", 1%nat)]
  ∧ sum_list (counts (valueCounts first_seen two_rows Q2_Stage)) ≠ nb_rep two_rows
  ∧ dropna (column Diplome tie_rows) = ["w03"; "w01"; "w00"; "w04"; "w00"; "w04"]
  ∧ valueCounts last_seen tie_rows Diplome
    = [("w04", 2); ("w00", 2); ("w01", 1); ("w03", 1)]%nat
  ∧ topN last_seen tie_rows Diplome 1 = [("w04", 2%nat)].
Proof. split_and!; [reflexivity| |reflexivity..]. vm_compute. lia. Qed.

(** The tables of lines 208 and 236 are [valueCounts] of the degree and
    [topN] of the desired field with n = 10. *)
Lemma charts_frequency_tables (S : SortValues) (dff : DataFrame) :
  Charts.vc S dff = valueCounts S dff Diplome
  ∧ Charts.dom S dff = topN S dff Q1_Domaine 10.
Proof. done. Qed.

(** ** Cross-tabulation *)

Lemma present_pairs_column (f g : Row → option string) (view : DataFrame) :
  present_pairs (column f view) (column g view)
  = omap (λ r, match f r, g r with
               | Some a, Some b => Some (a, b)
               | _, _ => None
               end) view.
Proof.
  unfold present_pairs, column. induction view as [|r view IH]; [done|].
  cbn. rewrite IH. by destruct (f r), (g r).
Qed.

Lemma length_filter_pairs (f g : Row → option string) (a b : string)
    (view : DataFrame) :
  length (filter ((a, b) =.) (present_pairs (column f view) (column g view)))
  = length (filter (λ r, f r = Some a ∧ g r = Some b) view).
Proof.
  rewrite present_pairs_column, length_filter_omap. f_equal.
  apply list_filter_iff. intros r. destruct (f r), (g r); intuition congruence.
Qed.

Lemma elem_of_present_pairs (f g : Row → option string) (a b : string)
    (view : DataFrame) :
  (a, b) ∈ present_pairs (column f view) (column g view)
  ↔ ∃ r, r ∈ view ∧ f r = Some a ∧ g r = Some b.
Proof.
  rewrite present_pairs_column, list_elem_of_omap. split.
  - intros (r & Hr & Heq). exists r. split; [done|].
    destruct (f r), (g r); by simplify_eq.
  - intros (r & Hr & Ha & Hb). exists r. by rewrite Ha, Hb.
Qed.

(** C7, as the code has it.  The cross-tabulation has one row per
    distinct value that the first column takes on a view row where the
    second column is present too, one column per distinct value of the
    second column on such rows, and at every (row label, column label)
    position a cell holding the number of view rows with that pair of
    values: 0, not an absent cell, when the pair never occurs together. *)
Theorem crosstab_cells (view : DataFrame) (rowCol colCol : Row → option string) :
  let t := crossTab view rowCol colCol in
  NoDup (index t) ∧ NoDup (columns t)
  ∧ (∀ a, a ∈ index t ↔ ∃ r, r ∈ view ∧ rowCol r = Some a ∧ is_Some (colCol r))
  ∧ (∀ b, b ∈ columns t ↔ ∃ r, r ∈ view ∧ is_Some (rowCol r) ∧ colCol r = Some b)
  ∧ (∀ i j a b, index t !! i = Some a → columns t !! j = Some b →
       cell t i j
       = Some (length (filter (λ r, rowCol r = Some a ∧ colCol r = Some b) view))).
Proof.
  unfold crossTab, crosstab, cell. cbn zeta. cbn [index columns values].
  set (pairs := present_pairs (column rowCol view) (column colCol view)).
  split_and!.
  - rewrite merge_sort_Permutation. apply NoDup_remove_dups.
  - rewrite merge_sort_Permutation. apply NoDup_remove_dups.
  - intros a. rewrite merge_sort_Permutation, elem_of_remove_dups, list_elem_of_fmap.
    split.
    + intros ([a' b] & -> & Hin).
      apply elem_of_present_pairs in Hin as (r & Hr & Ha & Hb). eauto.
    + intros (r & Hr & Ha & [b Hb]). exists (a, b). split; [done|].
      apply elem_of_present_pairs. eauto.
  - intros b. rewrite merge_sort_Permutation, elem_of_remove_dups, list_elem_of_fmap.
    split.
    + intros ([a b'] & -> & Hin).
      apply elem_of_present_pairs in Hin as (r & Hr & Ha & Hb). eauto.
    + intros (r & Hr & [a Ha] & Hb). exists (a, b). split; [done|].
      apply elem_of_present_pairs. eauto.
  - intros i j a b Hi Hj. rewrite list_lookup_fmap, Hi. cbn.
    rewrite list_lookup_fmap, Hj. cbn. f_equal. apply length_filter_pairs.
Qed.

(** C7, as the specification words it, fails on a view with a missing
    value: in [ab_rows] the value "A" of the first column is observed, on
    a row whose degree is missing, and the table has no row for it. *)
Lemma crosstab_rows_counterexample :
  "A" ∈ observed Q3_Difficulte ab_rows
  ∧ index (crossTab ab_rows Q3_Difficulte Diplome) = ["B"]
  ∧ "A" ∉ index (crossTab ab_rows Q3_Difficulte Diplome).
Proof.
  split_and!.
  - apply list_elem_of_here.
  - reflexivity.
  - change (index _) with ["B"]. by intros [=]%list_elem_of_singleton.
Qed.

(** The table of line 365 is [crossTab] of the difficulty and the degree. *)
Lemma charts_crosstab (dff : DataFrame) :
  Charts.ct dff = crossTab dff Q3_Difficulte Diplome.
Proof. done. Qed.

(** ** Row appender *)

(** On a dataset without rows the identifier column holds no value:
    line 388 raises; without the column the identifier is 1. *)
Lemma foldr_max_spec (x : Z) (xs : list Z) :
  foldr Z.max x xs ∈ x :: xs ∧ ∀ y, y ∈ x :: xs → y ≤ foldr Z.max x xs.
Proof.
  induction xs as [|z xs [IHin IHle]]; cbn [foldr].
  - split; [apply list_elem_of_here|]. by intros y ->%list_elem_of_singleton.
  - split.
    + destruct (Z.max_spec z (foldr Z.max x xs)) as [[_ ->]|[_ ->]].
      * apply elem_of_cons in IHin as [->|?]; [apply list_elem_of_here|].
        by do 2 apply list_elem_of_further.
      * apply list_elem_of_further, list_elem_of_here.
    + intros y Hy. apply elem_of_cons in Hy as [->|Hy].
      * specialize (IHle x (list_elem_of_here _ _)). lia.
      * apply elem_of_cons in Hy as [->|Hy]; [lia|].
        specialize (IHle y (list_elem_of_further _ _ _ Hy)). lia.
Qed.

Lemma series_max_spec (df : DataFrame) :
  (∃ r, r ∈ df ∧ is_Some (ID r)) →
  ∃ m, series_max (column ID df) = Some m ∧ max_id m df.
Proof.
  intros (r & Hr & [x Hx]). unfold series_max. rewrite dropna_column.
  assert (x ∈ omap ID df) as Hin by (apply list_elem_of_omap; eauto).
  destruct (omap ID df) as [|y ys] eqn:E; [by apply elem_of_nil in Hin|].
  exists (foldr Z.max y ys). split; [done|].
  destruct (foldr_max_spec y ys) as [Hmem Hle]. split.
  - rewrite <-E in Hmem. apply list_elem_of_omap in Hmem as (r' & ? & ?). eauto.
  - intros r' x' Hr' Hx'. apply Hle. rewrite <-E. apply list_elem_of_omap. eauto.
Qed.

Lemma max_id_unique (k k' : Z) (t : DataFrame) : max_id k t → max_id k' t → k = k'.
Proof.
  intros [(r & Hr & Hk) Hle] [(r' & Hr' & Hk') Hle'].
  specialize (Hle r' k' Hr' Hk'). specialize (Hle' r k Hr Hk). lia.
Qed.

(** ** Keyword extractor *)

Example decode_accents :
  u "à" = [224%N] ∧ u "être" = [234; 116; 114; 101]%N ∧ u "’" = [8217%N]
  ∧ u "Emploi!" = [69; 109; 112; 108; 111; 105; 33]%N.
Proof. by vm_compute. Qed.

Lemma count_words_app (m : nat) (ws1 ws2 : list pystr) (counter : gmap pystr nat) :
  count_words m (ws1 ++ ws2) counter = count_words m ws2 (count_words m ws1 counter).
Proof. unfold count_words. by rewrite foldl_app. Qed.

Lemma extract_keywords_flat (U : UnicodeData) (series : Series (option pystr)) (m : nat) :
  extract_keywords U series m = count_words m (words_of U series) ∅.
Proof.
  unfold extract_keywords, words_of. generalize (∅ : gmap pystr nat).
  induction (dropna series) as [|t texts IH]; intros counter; cbn [foldl]; [done|].
  rewrite IH. change ((t :: texts) ≫= ?f) with (f t ++ (texts ≫= f)).
  by rewrite count_words_app.
Qed.

Lemma count_words_lookup (m : nat) (words : list pystr) (counter : gmap pystr nat)
    (w : pystr) :
  count_words m words counter !! w
  = if decide (keyword_ok m w ∧ (0 < occurrences w words)%nat)
    then Some (default 0%nat (counter !! w) + occurrences w words)%nat
    else counter !! w.
Proof.
  unfold count_words, occurrences. revert counter.
  induction words as [|x words IH]; intros counter; cbn [foldl].
  - rewrite decide_False; [done|]. cbn. lia.
  - rewrite IH, filter_cons. destruct (decide (w = x)) as [<-|Hne].
    + cbn [length]. destruct (decide (keyword_ok m w)) as [Hok|Hno].
      * destruct Hok as [Hlen Hstop].
        rewrite !bool_decide_eq_true_2 by done. cbn [andb].
        unfold incr. rewrite lookup_insert_eq. cbn [from_option id].
        rewrite (decide_True (P := _ ∧ (0 < S _)%nat)) by (split; [done|lia]).
        case_decide; [f_equal; lia|].
        destruct (filter (w =.) words) as [|y l].
        -- cbn [length]. f_equal. lia.
        -- exfalso. apply H. split; [done|]. cbn [length]. lia.
      * rewrite !decide_False by tauto.
        destruct (bool_decide _ && bool_decide _) eqn:E; [|done].
        apply andb_true_iff in E as [?%bool_decide_eq_true ?%bool_decide_eq_true].
        by destruct Hno.
    + destruct (bool_decide _ && bool_decide _); [|done].
      unfold incr. by rewrite lookup_insert_ne.
Qed.

Lemma extract_keywords_lookup (U : UnicodeData) (series : Series (option pystr))
    (m : nat) (w : pystr) :
  extract_keywords U series m !! w
  = if decide (keyword_ok m w ∧ (0 < occurrences w (words_of U series))%nat)
    then Some (occurrences w (words_of U series))
    else None.
Proof.
  rewrite extract_keywords_flat, count_words_lookup, lookup_empty. cbn [from_option id].
  by case_decide.
Qed.

Lemma occurrences_pos (w : pystr) (words : list pystr) :
  (0 < occurrences w words)%nat ↔ w ∈ words.
Proof.
  unfold occurrences. split.
  - intros Hpos. destruct (filter (w =.) words) as [|x l] eqn:E; [cbn in Hpos; lia|].
    assert (x ∈ filter (w =.) words) as Hx by (rewrite E; apply list_elem_of_here).
    apply list_elem_of_filter in Hx as [-> ?]. done.
  - intros Hin. assert (w ∈ filter (w =.) words) as Hw by (by apply list_elem_of_filter).
    destruct (filter (w =.) words); [by apply elem_of_nil in Hw|cbn; lia].
Qed.

Lemma extract_keywords_snoc (U : UnicodeData) (series : list (option pystr))
    (t : pystr) (min_length : nat) :
  extract_keywords U (series ++ [Some t]) min_length
  = count_words min_length (split U (normalise U t))
      (extract_keywords U series min_length).
Proof.
  unfold extract_keywords, dropna. by rewrite omap_app, foldl_app.
Qed.

Lemma Forall_fmap_pres {A} (P : A → Prop) (f : A → A) (l : list A) :
  (∀ x, P x → P (f x)) → Forall P l → Forall P (f <$> l).
Proof. intros Hf Hl. apply Forall_fmap. by eapply Forall_impl. Qed.

Section ascii.
Variable U : UnicodeData.
Hypothesis HU : ascii_compatible U.

Lemma isspace_ascii (c : N) : (c < 128)%N → isspace U c = isspace ascii_table c.
Proof.
  intros Hc. destruct HU as (_ & _ & ->); [|done]. cbn.
  apply N.ltb_lt in Hc. by rewrite Hc.
Qed.

Lemma is_word_ascii (c : N) : (c < 128)%N → is_word U c = is_word ascii_table c.
Proof.
  intros Hc. unfold is_word. destruct HU as (_ & -> & _); [|done]. cbn.
  apply N.ltb_lt in Hc. by rewrite Hc.
Qed.

Lemma split_from_ascii (cur txt : pystr) :
  Forall (λ c, c < 128)%N txt → split_from U cur txt = split_from ascii_table cur txt.
Proof.
  intros Htxt. revert cur. induction Htxt as [|c txt Hc _ IH]; intros cur; [done|].
  cbn [split_from]. rewrite (isspace_ascii c Hc).
  destruct (isspace ascii_table c); [|apply IH]. by rewrite IH.
Qed.

Lemma normalise_ascii (t : pystr) :
  Forall (λ c, c < 128)%N t →
  normalise U t = normalise ascii_table t
  ∧ Forall (λ c, c < 128)%N (normalise U t).
Proof.
  intros Ht. unfold normalise, replace_char, re_sub_punct.
  destruct HU as (-> & _ & _); [|done]. cbn [str_lower ascii_table].
  assert (Forall (λ c, c < 128)%N (ascii_lower <$> t)) as Hlow.
  { apply Forall_fmap_pres; [|done]. intros c Hc.
    unfold ascii_lower. destruct (_ && _) eqn:E; [|done].
    apply andb_true_iff in E as [_ E%N.leb_le]. lia. }
  split.
  - do 2 f_equal. apply Forall_fmap_ext_1.
    eapply Forall_impl; [exact Hlow|]. intros c Hc. cbn beta.
    by rewrite (is_word_ascii c Hc), (isspace_ascii c Hc).
  - repeat (apply Forall_fmap_pres; [intros c Hc; by case_match|]). done.
Qed.

Lemma words_ascii (t : pystr) :
  Forall (λ c, c < 128)%N t →
  split U (normalise U t) = split ascii_table (normalise ascii_table t).
Proof.
  intros Ht. destruct (normalise_ascii t Ht) as [Heq Hall]. unfold split.
  rewrite split_from_ascii by done. by rewrite Heq.
Qed.
End ascii.

Lemma ascii_table_compatible : ascii_compatible ascii_table.
Proof.
  split_and!; [done|..]; intros c Hc%N.ltb_lt; cbn; by rewrite Hc.
Qed.

Lemma split_from_map (U V : UnicodeData) (f : N → N) (cur txt : pystr) :
  (∀ c, isspace U (f c) = isspace V c ∧ (isspace V c = false → f c = c)) →
  split_from U cur (f <$> txt) = split_from V cur txt.
Proof.
  intros Hf. revert cur. induction txt as [|c txt IH]; intros cur; [done|].
  rewrite fmap_cons. cbn [split_from]. destruct (Hf c) as [-> Hc].
  destruct (isspace V c).
  - destruct cur; by rewrite IH.
  - rewrite Hc by done. apply IH.
Qed.

(** The words the extractor counts in a text are its tokens. *)
Lemma words_tokens (U : UnicodeData) (t : pystr) :
  isspace U 32 = true → split U (normalise U t) = tokens U t.
Proof.
  intros Hsp. unfold normalise, replace_char, re_sub_punct, tokens, split.
  rewrite <-!list_fmap_compose. apply split_from_map. intros c.
  cbn [compose isspace at_separators]. unfold separator.
  destruct (is_word U c) eqn:Ew, (isspace U c) eqn:Es; cbn [negb orb];
    destruct (N.eqb_spec c 8217) as [->|H1]; try (change (32 =? 39)%N with false);
    try (change (8217 =? 39)%N with false); cbn [orb];
    try destruct (N.eqb_spec c 39) as [->|H2]; cbn [orb];
    rewrite ?Hsp, ?Es; done.
Qed.

Lemma ascii_compatible_space (U : UnicodeData) : ascii_compatible U → isspace U 32 = true.
Proof. intros (_ & _ & H). by rewrite H. Qed.

Lemma extract_keywords_snoc_lookup (U : UnicodeData) (series : list (option pystr))
    (t w : pystr) (min_length : nat) :
  isspace U 32 = true →
  extract_keywords U (series ++ [Some t]) min_length !! w
  = if decide (keyword_ok min_length w ∧ (0 < occurrences w (tokens U t))%nat)
    then Some (default 0%nat (extract_keywords U series min_length !! w)
               + occurrences w (tokens U t))%nat
    else extract_keywords U series min_length !! w.
Proof.
  intros Hsp. by rewrite extract_keywords_snoc, count_words_lookup, words_tokens.
Qed.

Lemma extract_keywords_keys (U : UnicodeData) (series : list (option pystr))
    (min_length : nat) (w : pystr) :
  w ∈ dom (extract_keywords U series min_length) → keyword_ok min_length w.
Proof.
  intros [n Hn]%elem_of_dom. rewrite extract_keywords_lookup in Hn.
  case_decide as H; [|done]. apply H.
Qed.

(** C6, as the code has it.  On any Unicode database that agrees with
    ASCII on ASCII: the words counted in a text are its tokens, the
    maximal runs of letters, digits and underscores of its lower-case
    form, every other character and the two apostrophes being
    separators; one more text adds to the count of each word that passes
    the guard of line 281 the number of times the word is a token of the
    text, and changes nothing else; "Emploi!" and "emploi" both have the
    one token "emploi", so each sets the count of "emploi" to one more
    than it was (when the minimum length lets six letters through); two
    texts with the same lower-case form have the same tokens and make
    the same contribution; every key of the result, also with the default
    minimum length of line 286, has at least that many characters and is
    not a stop word; and a Series without a present value gives the empty
    counter. *)
Theorem extract_keywords_normalised (U : UnicodeData) :
  ascii_compatible U →
  (∀ t, split U (normalise U t) = tokens U t)
  ∧ (∀ series min_length t w,
      extract_keywords U (series ++ [Some t]) min_length !! w
      = if decide (keyword_ok min_length w ∧ (0 < occurrences w (tokens U t))%nat)
        then Some (default 0%nat (extract_keywords U series min_length !! w)
                   + occurrences w (tokens U t))%nat
        else extract_keywords U series min_length !! w)
  ∧ tokens U (u "Emploi!") = [u "emploi"]
  ∧ tokens U (u "emploi") = [u "emploi"]
  ∧ (∀ series min_length t, t ∈ [u "Emploi!"; u "emploi"] → (min_length ≤ 6)%nat →
      extract_keywords U (series ++ [Some t]) min_length
      = <[u "emploi" :=
            S (default 0%nat (extract_keywords U series min_length !! u "emploi"))]>
          (extract_keywords U series min_length))
  ∧ (∀ series min_length t1 t2, str_lower U t1 = str_lower U t2 →
      tokens U t1 = tokens U t2
      ∧ extract_keywords U (series ++ [Some t1]) min_length
        = extract_keywords U (series ++ [Some t2]) min_length)
  ∧ (∀ series min_length w,
      w ∈ dom (extract_keywords U series min_length) →
      (min_length ≤ length w)%nat ∧ w ∉ stop_words)
  ∧ (∀ dff wc_col w,
      w ∈ dom (freq U dff wc_col) → (3 ≤ length w)%nat ∧ w ∉ stop_words)
  ∧ (∀ series min_length,
      dropna series = [] → extract_keywords U series min_length = ∅).
Proof.
  intros HU. pose proof (ascii_compatible_space U HU) as Hsp.
  assert (tokens U (u "Emploi!") = [u "emploi"]) as H1.
  { rewrite <-words_tokens by done. rewrite (words_ascii U HU); [by vm_compute|].
    by apply (bool_decide_unpack _). }
  assert (tokens U (u "emploi") = [u "emploi"]) as H2.
  { rewrite <-words_tokens by done. rewrite (words_ascii U HU); [by vm_compute|].
    by apply (bool_decide_unpack _). }
  split_and!; [| |done|done|..].
  - intros t. by apply words_tokens.
  - intros series min_length t w. by apply extract_keywords_snoc_lookup.
  - intros series min_length t Ht Hlen.
    assert (tokens U t = [u "emploi"]) as Htok.
    { apply elem_of_cons in Ht as [->|Ht]; [done|].
      by apply list_elem_of_singleton in Ht as ->. }
    apply map_eq. intros w.
    rewrite extract_keywords_snoc_lookup, Htok by done. unfold occurrences.
    rewrite filter_cons, filter_nil.
    destruct (decide (w = u "emploi")) as [->|Hw].
    + rewrite lookup_insert_eq, decide_True; [f_equal; cbn; lia|].
      split; [|cbn; lia]. split; [done|]. by apply (bool_decide_unpack _).
    + rewrite lookup_insert_ne by done. rewrite decide_False; [done|].
      cbn. lia.
  - intros series min_length t1 t2 Heq. split.
    + unfold tokens. by rewrite Heq.
    + rewrite !extract_keywords_snoc. unfold normalise. by rewrite Heq.
  - intros series min_length w. apply extract_keywords_keys.
  - intros dff wc_col w. apply extract_keywords_keys.
  - intros series min_length Hnone. unfold extract_keywords. by rewrite Hnone.
Qed.

Lemma extract_keywords_normalised_witness :
  (∀ t, split ascii_table (normalise ascii_table t) = tokens ascii_table t)
  ∧ (∀ series min_length t w,
      extract_keywords ascii_table (series ++ [Some t]) min_length !! w
      = if decide (keyword_ok min_length w
                   ∧ (0 < occurrences w (tokens ascii_table t))%nat)
        then Some (default 0%nat (extract_keywords ascii_table series min_length !! w)
                   + occurrences w (tokens ascii_table t))%nat
        else extract_keywords ascii_table series min_length !! w)
  ∧ tokens ascii_table (u "Emploi!") = [u "emploi"]
  ∧ tokens ascii_table (u "emploi") = [u "emploi"]
  ∧ (∀ series min_length t, t ∈ [u "Emploi!"; u "emploi"] → (min_length ≤ 6)%nat →
      extract_keywords ascii_table (series ++ [Some t]) min_length
      = <[u "emploi" :=
            S (default 0%nat
                 (extract_keywords ascii_table series min_length !! u "emploi"))]>
          (extract_keywords ascii_table series min_length))
  ∧ (∀ series min_length t1 t2, str_lower ascii_table t1 = str_lower ascii_table t2 →
      tokens ascii_table t1 = tokens ascii_table t2
      ∧ extract_keywords ascii_table (series ++ [Some t1]) min_length
        = extract_keywords ascii_table (series ++ [Some t2]) min_length)
  ∧ (∀ series min_length w,
      w ∈ dom (extract_keywords ascii_table series min_length) →
      (min_length ≤ length w)%nat ∧ w ∉ stop_words)
  ∧ (∀ dff wc_col w,
      w ∈ dom (freq ascii_table dff wc_col) → (3 ≤ length w)%nat ∧ w ∉ stop_words)
  ∧ (∀ series min_length,
      dropna series = [] → extract_keywords ascii_table series min_length = ∅).
Proof.
  apply (extract_keywords_normalised ascii_table).
  split_and!; [done|..]; intros c Hc%N.ltb_lt; cbn; by rewrite Hc.
Defined.

(** C6, as the specification words it, fails: punctuation is not
    ignored, it ends a word, and the underscore is not punctuation for
    the extractor.  The text "emploi" counts the word "emploi"; the text
    "e-mploi" counts "mploi" (the word "e" is too short) and the text
    "emploi_" counts "emploi_": neither adds to the count of "emploi". *)
Lemma extract_keywords_punctuation_counterexample :
  extract_keywords ascii_table [Some (u "emploi")] 3 = {[ u "emploi" := 1%nat ]}
  ∧ extract_keywords ascii_table [Some (u "e-mploi")] 3 = {[ u "mploi" := 1%nat ]}
  ∧ extract_keywords ascii_table [Some (u "emploi_")] 3 = {[ u "emploi_" := 1%nat ]}
  ∧ extract_keywords ascii_table [Some (u "e-mploi")] 3 !! u "emploi" = None
  ∧ extract_keywords ascii_table [Some (u "emploi_")] 3 !! u "emploi" = None
  ∧ extract_keywords ascii_table [Some (u "e-mploi")] 3
    ≠ extract_keywords ascii_table [Some (u "emploi")] 3.
Proof.
  split_and!; [by vm_compute..|].
  intros H. apply (f_equal (λ m, m !! u "emploi")) in H. by vm_compute in H.
Qed.

(** ** CSV export and reload *)

Lemma to_int_not_nil (z : Z) :
  Z.to_int z ≠ Decimal.Pos Decimal.Nil ∧ Z.to_int z ≠ Decimal.Neg Decimal.Nil.
Proof.
  split; intros H; pose proof (f_equal Z.of_int H) as H';
    rewrite DecimalZ.of_to in H'; cbn in H'; subst z; discriminate H.
Qed.

Lemma plain_parse_repr_int (z : Z) : plain_parse_int (repr_int z) = Some z.
Proof.
  unfold plain_parse_int, repr_int. destruct (to_int_not_nil z) as [H1 H2].
  rewrite NilZero.isi by done. cbn. by rewrite DecimalZ.of_to.
Qed.

Lemma uint_of_string_dot (s : string) :
  NilEmpty.uint_of_string (s +:+ ".0") = None.
Proof.
  induction s as [|a s IH]; [done|].
  change (String a s +:+ ".0") with (String a (s +:+ ".0")).
  cbn [NilEmpty.uint_of_string]. by rewrite IH.
Qed.

Lemma plain_parse_int_dot (s : string) : plain_parse_int (s +:+ ".0") = None.
Proof.
  unfold plain_parse_int. destruct s as [|a s]; [done|].
  change (String a s +:+ ".0") with (String a (s +:+ ".0")).
  cbn [NilZero.int_of_string].
  destruct (Ascii.eqb a "-").
  - unfold NilZero.uint_of_string. rewrite uint_of_string_dot. by destruct (s +:+ ".0").
  - unfold NilZero.uint_of_string.
    change (String a (s +:+ ".0")) with (String a s +:+ ".0").
    rewrite uint_of_string_dot. done.
Qed.

Lemma list_ascii_of_string_app (s t : string) :
  String.list_ascii_of_string (s +:+ t)
  = String.list_ascii_of_string s ++ String.list_ascii_of_string t.
Proof.
  induction s as [|a s IH]; [done|].
  change (String a s +:+ t) with (String a (s +:+ t)).
  cbn [String.list_ascii_of_string]. by rewrite IH.
Qed.

Lemma plain_parse_repr_float (x : Z) : plain_parse_float (plain_repr_float x) = Some x.
Proof.
  unfold plain_parse_float, plain_repr_float.
  rewrite list_ascii_of_string_app, reverse_app. cbn [String.list_ascii_of_string].
  change (reverse ["."%char; "0"%char]) with ["0"%char; "."%char].
  cbn [app]. rewrite reverse_involutive, String.string_of_list_ascii_of_string.
  apply plain_parse_repr_int.
Qed.

Lemma plain_laws : codec_laws plain.
Proof.
  assert (∀ s, is_na plain s = true →
               plain_parse_int s = None ∧ plain_parse_float s = None) as Hna.
  { intros s Hs%bool_decide_eq_true. unfold na_values in Hs.
    repeat (apply elem_of_cons in Hs as [->|Hs]; [by vm_compute|]).
    by apply elem_of_nil in Hs. }
  split_and!; [done|..].
  - intros z _. split; [|apply plain_parse_repr_int].
    destruct (is_na plain (repr_int z)) eqn:E; [|done].
    apply Hna in E as [E _]. by rewrite plain_parse_repr_int in E.
  - intros x. split_and!.
    + destruct (is_na plain (repr_float plain x)) eqn:E; [|done].
      apply Hna in E as [_ E]. cbn in E. by rewrite plain_parse_repr_float in E.
    + apply plain_parse_int_dot.
    + apply plain_parse_repr_float.
Qed.

Lemma fmap_omap_present {A B C} (f : A → option B) (g : A → C) (h : B → C)
    (l : list A) :
  Forall (λ x, ∃ y, f x = Some y ∧ g x = h y) l → g <$> l = h <$> omap f l.
Proof.
  induction 1 as [|x l (y & Hy & Hg) _ IH]; [done|].
  change (omap f (x :: l))
    with (match f x with Some y => y :: omap f l | None => omap f l end).
  rewrite Hy, !fmap_cons, Hg. by f_equal.
Qed.

Section roundtrip.
Variable L : Codec.
Hypothesis HL : codec_laws L.

Lemma is_na_empty : is_na L "" = true.
Proof. apply HL. Qed.

Lemma convert_na {A} (p : string → option A) (v : A → value (float L)) (f : string) :
  is_na L f = true → convert L p v f = VNaN.
Proof. intros H. unfold convert. by rewrite H. Qed.

(** A column whose fields are all NA tokens is read as a column of NaN. *)
Lemma infer_all_missing (fields : list string) :
  Forall (λ f, is_na L f = true) fields →
  infer_column L fields = (λ _, VNaN) <$> fields.
Proof.
  intros Hna. unfold infer_column.
  assert (all_parse L (parse_int L) fields = true) as ->.
  { unfold all_parse. apply forallb_forall. intros f Hf%list_elem_of_In.
    rewrite Forall_forall in Hna. by rewrite (Hna f Hf). }
  destruct (no_na L fields); apply Forall_fmap_ext_1;
    (eapply Forall_impl; [exact Hna|]); intros f Hf; by apply convert_na.
Qed.

Lemma infer_ints (zs : list Z) :
  Forall int64 zs → infer_column L (repr_int <$> zs) = VInt <$> zs.
Proof.
  intros Hzs. destruct HL as (_ & Hint & _). unfold infer_column.
  assert (all_parse L (parse_int L) (repr_int <$> zs) = true) as ->.
  { unfold all_parse. apply forallb_forall. intros f Hf%list_elem_of_In.
    apply list_elem_of_fmap in Hf as (z & -> & Hz).
    rewrite Forall_forall in Hzs. destruct (Hint z (Hzs z Hz)) as [_ ->].
    by rewrite orb_true_r. }
  assert (no_na L (repr_int <$> zs) = true) as ->.
  { unfold no_na. apply forallb_forall. intros f Hf%list_elem_of_In.
    apply list_elem_of_fmap in Hf as (z & -> & Hz).
    rewrite Forall_forall in Hzs. by destruct (Hint z (Hzs z Hz)) as [-> _]. }
  rewrite <-list_fmap_compose. apply Forall_fmap_ext_1.
  eapply Forall_impl; [exact Hzs|]. intros z Hz. cbn. unfold convert.
  by destruct (Hint z Hz) as [-> ->].
Qed.

Lemma infer_floats (xs : list (option (float L))) :
  infer_column L (from_option (repr_float L) "" <$> xs)
  = from_option VFloat VNaN <$> xs.
Proof.
  destruct HL as (Hempty & _ & Hfloat).
  destruct (decide (Forall (λ o, o = None) xs)) as [Hnone|Hsome].
  - rewrite infer_all_missing.
    + rewrite <-list_fmap_compose. apply Forall_fmap_ext_1.
      eapply Forall_impl; [exact Hnone|]. by intros o ->.
    + apply Forall_fmap. eapply Forall_impl; [exact Hnone|]. by intros o ->.
  - apply not_Forall_Exists in Hsome; [|apply _].
    apply Exists_exists in Hsome as (o & Ho & Hx).
    destruct o as [x|]; [|by destruct Hx]. unfold infer_column.
    assert (all_parse L (parse_int L) (from_option (repr_float L) "" <$> xs) = false) as ->.
    { apply not_true_is_false. unfold all_parse. rewrite forallb_forall.
      intros Hall. specialize (Hall (repr_float L x)).
      destruct (Hfloat x) as (Hna & Hint & _). rewrite Hna, Hint in Hall.
      enough (false || bool_decide (is_Some (None : option Z)) = true) by done.
      apply Hall. apply list_elem_of_In, list_elem_of_fmap. by exists (Some x). }
    assert (all_parse L (parse_float L) (from_option (repr_float L) "" <$> xs) = true) as ->.
    { unfold all_parse. apply forallb_forall. intros f Hf%list_elem_of_In.
      apply list_elem_of_fmap in Hf as ([y|] & -> & _); cbn.
      - destruct (Hfloat y) as (_ & _ & ->). by rewrite orb_true_r.
      - by rewrite Hempty. }
    rewrite <-list_fmap_compose. apply list_fmap_ext. intros _ [y|] _; cbn.
    + unfold convert. by destruct (Hfloat y) as (-> & _ & ->).
    + by apply convert_na.
Qed.

Lemma all_parse_texts {A} (p : string → option A) (ss : list (option string)) :
  Forall (λ o, ∀ s, o = Some s → is_na L s = false) ss →
  all_parse L p (default "" <$> ss)
  = forallb (λ s, bool_decide (is_Some (p s))) (omap id ss).
Proof.
  destruct HL as (Hempty & _ & _).
  induction 1 as [|[s|] ss Hs _ IH]; [done|..]; cbn.
  - rewrite (Hs s eq_refl). cbn. f_equal. exact IH.
  - rewrite Hempty. cbn. exact IH.
Qed.

Lemma infer_texts (ss : list (option string)) :
  Forall (λ o, ∀ s, o = Some s → is_na L s = false) ss →
  keeps_text L (omap id ss) →
  infer_column L (default "" <$> ss) = from_option VStr VNaN <$> ss.
Proof.
  intros Hss [Hnil|Hkeep].
  - assert (Forall (λ o, o = None) ss) as Hnone.
    { clear Hss. induction ss as [|[s|] ss IH]; [done|done|].
      constructor; [done|]. by apply IH. }
    rewrite infer_all_missing.
    + rewrite <-list_fmap_compose. apply Forall_fmap_ext_1.
      eapply Forall_impl; [exact Hnone|]. by intros o ->.
    + apply Forall_fmap. eapply Forall_impl; [exact Hnone|].
      intros o ->. apply is_na_empty.
  - unfold retyped in Hkeep.
    apply orb_false_iff in Hkeep as [Hkeep Hbool].
    apply orb_false_iff in Hkeep as [Hint Hfloat].
    unfold infer_column. rewrite !all_parse_texts by done.
    rewrite Hint, Hfloat, Hbool. rewrite <-list_fmap_compose.
    apply Forall_fmap_ext_1. eapply Forall_impl; [exact Hss|].
    intros [s|] Hs; cbn.
    + unfold convert. by rewrite (Hs s eq_refl).
    + apply convert_na, is_na_empty.
Qed.

(** The fields of one column of a view are read back as its cells. *)
Lemma column_roundtrip (df dff : DataFrame) (a : accessor) :
  dff ⊆ df →
  match a with
  | Num f => ∀ r z, r ∈ dff → f r = Some z → int64 z
  | Txt f => (∀ r s, r ∈ dff → f r = Some s → is_na L s = false)
             ∧ keeps_text L (dropna (column f dff))
  end →
  infer_column L ((λ r, render L (cell_of L df a r)) <$> dff)
  = cell_of L df a <$> dff.
Proof.
  intros Hsub Ha. destruct a as [f|f].
  - destruct (is_int64 f df) eqn:E.
    + assert (Forall (λ r, is_Some (f r)) dff) as Hpres.
      { apply Forall_forall. intros r Hr. unfold is_int64 in E.
        rewrite forallb_forall in E. eapply bool_decide_eq_true, E.
        by apply list_elem_of_In, Hsub. }
      assert (Forall (λ r, ∃ z, f r = Some z
                ∧ cell_of L df (Num f) r = VInt z) dff) as Hcell.
      { eapply Forall_impl; [exact Hpres|]. intros r [z Hz]. exists z.
        cbn. by rewrite Hz, E. }
      rewrite (fmap_omap_present f (λ r, render L (cell_of L df (Num f) r)) repr_int).
      2:{ eapply Forall_impl; [exact Hcell|]. intros r (z & Hz & ->). eauto. }
      rewrite (fmap_omap_present f (cell_of L df (Num f)) VInt) by done.
      apply infer_ints. apply Forall_forall. intros z Hz.
      apply list_elem_of_omap in Hz as (r & Hr & Hz). by apply (Ha r).
    + assert ((λ r, render L (cell_of L df (Num f) r)) <$> dff
              = from_option (repr_float L) "" <$> ((λ r, float_of_int L <$> f r) <$> dff))
        as ->.
      { rewrite <-list_fmap_compose. apply list_fmap_ext. intros _ r _. cbn.
        rewrite E. by destruct (f r). }
      rewrite infer_floats, <-list_fmap_compose. apply list_fmap_ext.
      intros _ r _. cbn. rewrite E. by destruct (f r).
  - destruct Ha as [Hna Hkeep].
    assert ((λ r, render L (cell_of L df (Txt f) r)) <$> dff
            = default "" <$> (f <$> dff)) as ->.
    { rewrite <-list_fmap_compose. apply list_fmap_ext. intros _ r _. cbn.
      by destruct (f r). }
    rewrite infer_texts.
    + rewrite <-list_fmap_compose. apply list_fmap_ext. intros _ r _. cbn.
      by destruct (f r).
    + apply Forall_fmap, Forall_forall. intros r Hr s Hs. by apply (Hna r).
    + exact Hkeep.
Qed.

(** The same for a table over any list of columns. *)
Lemma table_roundtrip (df dff : DataFrame) (sch : list (string * accessor)) :
  dff ⊆ df →
  Forall (λ c, strip c.1 = c.1
               ∧ match c.2 with
                 | Num f => ∀ r z, r ∈ dff → f r = Some z → int64 z
                 | Txt f => (∀ r s, r ∈ dff → f r = Some s → is_na L s = false)
                            ∧ keeps_text L (dropna (column f dff))
                 end) sch →
  imap (λ j name,
          (strip name,
           infer_column L
             ((λ rec, default "" (rec !! j))
                <$> ((λ r, (λ c, render L (cell_of L df c.2 r)) <$> sch) <$> dff))))
       (sch.*1)
  = (λ c, (c.1, cell_of L df c.2 <$> dff)) <$> sch.
Proof.
  intros Hsub Hsch. apply list_eq. intros j.
  rewrite list_lookup_imap, !list_lookup_fmap.
  destruct (sch !! j) as [[name a]|] eqn:Ej; [|done]. cbn.
  rewrite Forall_forall in Hsch.
  destruct (Hsch (name, a)) as [Hname Ha].
  { apply list_elem_of_lookup. by exists j. }
  cbn in Hname, Ha. rewrite Hname. do 2 f_equal.
  rewrite <-list_fmap_compose.
  rewrite <-(column_roundtrip df dff a Hsub Ha). f_equal.
  apply list_fmap_ext. intros _ r _. cbn.
  by rewrite list_lookup_fmap, Ej.
Qed.
End roundtrip.

Lemma schema_names_stripped : Forall (λ c, strip c.1 = c.1) schema.
Proof. unfold schema. repeat constructor. Qed.

Lemma apply_filters_subseteq (df : DataFrame) (fs : Filters) :
  apply_filters df fs ⊆ df.
Proof.
  rewrite apply_filters_filter. intros r Hr.
  by apply list_elem_of_filter in Hr as [_ ?].
Qed.

(** C9, as the code has it.  For a codec that reads back the text of its
    own numbers, and a dialect that carries every field unchanged: when
    the integers of a filtered view are int64, its texts are not NA
    tokens, and each of its text columns has no present value or has
    present values that are not all read as integers, not all as floats
    and not all as booleans, the loader applied to the export of the view
    gives the table of the view: the same column names, and in every
    column the same cells in the same order. *)
Theorem export_reload_roundtrip (L : Codec) (df : DataFrame) (fs : Filters) :
  codec_laws L →
  exportable L (apply_filters df fs) →
  _read_csv L (to_csv L df (apply_filters df fs))
  = to_table L df (apply_filters df fs).
Proof.
  intros HL Hexp. unfold _read_csv, to_csv, to_table. cbn [header records].
  apply (table_roundtrip L HL df (apply_filters df fs) schema).
  - apply apply_filters_subseteq.
  - apply Forall_and. split; [apply schema_names_stripped|exact Hexp].
Qed.

Ltac each_row H :=
  repeat (apply elem_of_cons in H as [->|H]); [..|by apply elem_of_nil in H].

Ltac solve_exportable :=
  unfold exportable, schema;
  repeat (apply Forall_cons; split); [..|apply Forall_nil_2]; cbn [snd];
  lazymatch goal with
  | |- _ ∧ keeps_text _ _ =>
      split;
      [ let Hr := fresh in let Hs := fresh in
        intros ? ? Hr Hs; each_row Hr; cbn in Hs; simplify_eq; reflexivity
      | right; reflexivity ]
  | |- _ =>
      let Hr := fresh in let Hz := fresh in
      intros ? ? Hr Hz; each_row Hr; cbn in Hz; simplify_eq; unfold int64; lia
  end.

Lemma export_reload_roundtrip_witness :
  _read_csv plain (to_csv plain langues_rows
                     (apply_filters langues_rows (no_filter (18, 60))))
  = to_table plain langues_rows (apply_filters langues_rows (no_filter (18, 60))).
Proof.
  apply (export_reload_roundtrip plain langues_rows (no_filter (18, 60))).
  - exact plain_laws.
  - change (apply_filters langues_rows (no_filter (18, 60))) with langues_rows.
    unfold langues_rows. solve_exportable.
Defined.

(** C9, as the specification words it, fails on a view whose text column
    holds only digits: the dataset [langues_rows] is read back as it is,
    but in its view of the 22 year old the language "007" is read back as
    the integer 7. *)
Lemma export_reload_counterexample :
  let df := langues_rows in
  let dff := apply_filters df (no_filter (22, 22)) in
  _read_csv plain (to_csv plain df df) = to_table plain df df
  ∧ length dff = 1%nat
  ∧ to_table plain df dff !! 8%nat = Some ("Q5_Langues", [VStr "007"])
  ∧ _read_csv plain (to_csv plain df dff) !! 8%nat = Some ("Q5_Langues", [VInt 7])
  ∧ _read_csv plain (to_csv plain df dff) ≠ to_table plain df dff.
Proof.
  cbn zeta. split_and!; [by vm_compute..|].
  intros H. apply (f_equal (λ t, t !! 8%nat)) in H. vm_compute in H. discriminate H.
Qed.

(** ** The concrete scenarios of the specification *)

(** Ages 22, 25 and 30 under the range [23, 30]: the rows of ages 25 and
    30 remain. *)
Example scenario_age_range :
  let df := [answer 1 22 None None None; answer 2 25 None None None;
             answer 3 30 None None None] in
  column Age (apply_filters df (no_filter (23, 30))) = [Some 25; Some 30]
  ∧ nb_rep (apply_filters df (no_filter (23, 30))) = 2%nat.
Proof. by vm_compute. Qed.

(** "Oui", "Oui", "Non": the rate is 200/3, displayed as 66.7. *)
Example scenario_rate :
  stage_rate [answer 1 22 None (Some "Oui") None; answer 2 25 None (Some "Oui") None;
              answer 3 30 None (Some "Non") None]
  = Fin (of_Z 200 / of_Z 3).
Proof.
  cbv -[Qcdiv Qcmult of_nat of_Z]. f_equal; apply Qc_is_canon; reflexivity.
Qed.

(** Rows (A, X), (A, Y) and (B, X): the cell of (B, Y) is 0. *)
Example scenario_crosstab :
  let view := [answer 1 22 (Some "X") None (Some "A");
               answer 2 25 (Some "Y") None (Some "A");
               answer 3 30 (Some "X") None (Some "B")] in
  Charts.ct view
  = {| index := ["A"; "B"]; columns := ["X"; "Y"]; values := [[1; 1]; [1; 0]]%nat |}
  ∧ cell (Charts.ct view) 1 1 = Some 0%nat.
Proof. by vm_compute. Qed.

(** Degrees B, A, B, A, C: B and A tie at 2; they come in the order of
    their first rows under one sort and in the opposite order under the
    other. *)
Example scenario_ties :
  let view := [answer 1 22 (Some "B") None None; answer 2 23 (Some "A") None None;
               answer 3 24 (Some "B") None None; answer 4 25 (Some "A") None None;
               answer 5 26 (Some "C") None None] in
  Charts.vc first_seen view = [("B", 2); ("A", 2); ("C", 1)]%nat
  ∧ Charts.vc last_seen view = [("A", 2); ("B", 2); ("C", 1)]%nat
  ∧ topN first_seen view Diplome 2 = [("B", 2); ("A", 2)]%nat
  ∧ topN last_seen view Diplome 2 = [("A", 2); ("B", 2)]%nat.
Proof. by vm_compute. Qed.

(** * Further properties of the code *)

(** ** Filter engine: composition *)

Lemma passes_b_passes (age : Z * Z) (cs : list Constraint) (r : Row) :
  passes_b age cs r = true ↔ passes age cs r.
Proof.
  unfold passes_b, passes.
  rewrite andb_true_iff, age_b_spec, forallb_forall, Forall_forall.
  split; intros [Ha Hc]; split; try done; intros c Hin.
  - apply member_b_spec, Hc. by apply list_elem_of_In.
  - apply member_b_spec, Hc. by apply list_elem_of_In.
Qed.

Lemma mask_from_filter (df : DataFrame) (age : Z * Z) (cs : list Constraint) :
  boolean_index df (mask_from df age cs) = filter (passes age cs) df.
Proof. rewrite mask_from_map. apply boolean_index_map, passes_b_passes. Qed.

Lemma filter_idemp {A} (P : A → Prop) `{!∀ x, Decision (P x)} (l : list A) :
  filter P (filter P l) = filter P l.
Proof. rewrite list_filter_filter. apply list_filter_iff. tauto. Qed.

(** X1.  Filtering is idempotent: applying a filter state to the view it
    produced changes nothing. *)
Theorem apply_filters_idempotent (df : DataFrame) (fs : Filters) :
  apply_filters (apply_filters df fs) fs = apply_filters df fs.
Proof. rewrite !apply_filters_filter. apply filter_idemp. Qed.

(** X2.  Applying two filter states one after the other keeps, in order,
    exactly the rows of the dataset that satisfy both, whichever comes
    first. *)
Theorem apply_filters_compose (df : DataFrame) (fs1 fs2 : Filters) :
  apply_filters (apply_filters df fs1) fs2
  = filter (λ r, satisfies fs1 r ∧ satisfies fs2 r) df
  ∧ apply_filters (apply_filters df fs1) fs2
    = apply_filters (apply_filters df fs2) fs1.
Proof.
  rewrite !apply_filters_filter, !list_filter_filter. split.
  - apply list_filter_iff. tauto.
  - apply list_filter_iff. tauto.
Qed.

Lemma narrower_member (col : Row → option string) (l' l : list string) (r : Row) :
  narrower_list l' l → member_if_active (col, l') r → member_if_active (col, l) r.
Proof.
  unfold member_if_active. cbn. intros [Hnil|[Hne Hsub]] Hm; [done|]. intros _.
  destruct (Hm Hne) as (v & Hv & Hin). exists v. split; [done|]. by apply Hsub.
Qed.

Lemma narrower_satisfies (fs' fs : Filters) (r : Row) :
  narrower fs' fs → satisfies fs' r → satisfies fs r.
Proof.
  intros (Hlo & Hhi & H1 & H2 & H3 & H4 & H5 & H6) [(a & Ha & Hrange) Hall]. split.
  - exists a. split; [done|lia].
  - unfold constraints in *.
    repeat (apply Forall_cons in Hall as [? Hall]).
    repeat (apply Forall_cons; split); [..|apply Forall_nil_2];
      eapply narrower_member; eassumption.
Qed.

(** X3.  Narrowing the filters never brings a row back: when a filter
    state selects no more than another, its view is the other's view
    filtered once more, hence a subsequence of it with no more rows. *)
Theorem apply_filters_narrower (df : DataFrame) (fs' fs : Filters) :
  narrower fs' fs →
  apply_filters df fs' = apply_filters (apply_filters df fs) fs'
  ∧ apply_filters df fs' `sublist_of` apply_filters df fs
  ∧ (nb_rep (apply_filters df fs') ≤ nb_rep (apply_filters df fs))%nat.
Proof.
  intros Hn.
  assert (apply_filters df fs' = apply_filters (apply_filters df fs) fs') as Heq.
  { rewrite !apply_filters_filter, list_filter_filter. apply list_filter_iff.
    intros r. split; [|tauto]. intros Hr. split; [done|].
    by apply (narrower_satisfies fs' fs). }
  split_and!; [done|..].
  - rewrite Heq, (apply_filters_filter (apply_filters df fs)). apply sublist_filter.
  - unfold nb_rep. apply sublist_length. rewrite Heq.
    rewrite (apply_filters_filter (apply_filters df fs)). apply sublist_filter.
Qed.

Lemma apply_filters_narrower_witness :
  let fs := no_filter (18, 60) in
  let fs' := {| f_age := (20, 25); f_sexe := ["M"]; f_diplome := [];
                f_domaine := []; f_stage := []; f_mobilite := [];
                f_linkedin := [] |} in
  apply_filters two_rows fs' = apply_filters (apply_filters two_rows fs) fs'
  ∧ apply_filters two_rows fs' `sublist_of` apply_filters two_rows fs
  ∧ (nb_rep (apply_filters two_rows fs') ≤ nb_rep (apply_filters two_rows fs))%nat.
Proof.
  apply apply_filters_narrower. unfold narrower, narrower_list. cbn.
  split_and!; try lia; by left.
Defined.

(** ** The sidebar widgets *)

Lemma foldr_min_spec (x : Z) (xs : list Z) :
  foldr Z.min x xs ∈ x :: xs ∧ ∀ y, y ∈ x :: xs → foldr Z.min x xs ≤ y.
Proof.
  induction xs as [|z xs [IHin IHle]]; cbn [foldr].
  - split; [apply list_elem_of_here|]. by intros y ->%list_elem_of_singleton.
  - split.
    + destruct (Z.min_spec z (foldr Z.min x xs)) as [[_ ->]|[_ ->]].
      * apply list_elem_of_further, list_elem_of_here.
      * apply elem_of_cons in IHin as [->|?]; [apply list_elem_of_here|].
        by do 2 apply list_elem_of_further.
    + intros y Hy. apply elem_of_cons in Hy as [->|Hy].
      * specialize (IHle x (list_elem_of_here _ _)). lia.
      * apply elem_of_cons in Hy as [->|Hy]; [lia|].
        specialize (IHle y (list_elem_of_further _ _ _ Hy)). lia.
Qed.

Lemma filter_ext_in {A} (P Q : A → Prop) `{!∀ x, Decision (P x)}
    `{!∀ x, Decision (Q x)} (l : list A) :
  (∀ x, x ∈ l → (P x ↔ Q x)) → filter P l = filter Q l.
Proof.
  induction l as [|x l IH]; intros Hext; [done|]. rewrite !filter_cons.
  rewrite IH by (intros y Hy; apply Hext; by right).
  destruct (decide (P x)) as [HP|HP].
  - rewrite decide_True; [done|]. by apply Hext; [left|].
  - rewrite decide_False; [done|]. intros HQ. apply HP, Hext; [by left|done].
Qed.

Lemma satisfies_no_filter (age : Z * Z) (r : Row) :
  satisfies (no_filter age) r ↔ age_in_range age r.
Proof.
  unfold satisfies. split; [by intros [? _]|]. intros Ha. split; [done|].
  cbn. repeat constructor; by intros [].
Qed.

(** X4.  The slider of line 153 starts on the whole span of the ages:
    when some row has an age, its bounds are the smallest and the largest
    age of the dataset and the view under these bounds with no other
    filter is the dataset without the rows whose age is missing; when no
    row has an age (so also on a dataset without rows) line 152 raises. *)
Theorem default_age_range (df : DataFrame) :
  match age_bounds df with
  | Some (age_min, age_max) =>
      age_min ≤ age_max
      ∧ (∃ r, r ∈ df ∧ Age r = Some age_min)
      ∧ (∃ r, r ∈ df ∧ Age r = Some age_max)
      ∧ apply_filters df (no_filter (age_min, age_max))
        = filter (λ r, is_Some (Age r)) df
  | None => Forall (λ r, Age r = None) df
  end.
Proof.
  unfold age_bounds, series_min, series_max. rewrite dropna_column.
  destruct (omap Age df) as [|x xs] eqn:E; cbn.
  - apply Forall_forall. intros r Hr. destruct (Age r) as [a|] eqn:Ea; [|done].
    assert (a ∈ omap Age df) as Hin by (apply list_elem_of_omap; eauto).
    rewrite E in Hin. by apply elem_of_nil in Hin.
  - destruct (foldr_min_spec x xs) as [Hmin_in Hmin].
    destruct (foldr_max_spec x xs) as [Hmax_in Hmax].
    rewrite <-E in Hmin_in, Hmax_in.
    apply list_elem_of_omap in Hmin_in as (r1 & Hr1 & Ha1).
    apply list_elem_of_omap in Hmax_in as (r2 & Hr2 & Ha2).
    split_and!; [|by eauto..|].
    + apply Hmin. destruct (foldr_max_spec x xs) as [H _]. exact H.
    + rewrite apply_filters_filter. apply filter_ext_in. intros r Hr.
      rewrite satisfies_no_filter. unfold age_in_range. cbn. split.
      * intros (a & -> & _). by eexists.
      * intros [a Ha]. exists a. split; [done|].
        assert (a ∈ x :: xs) as Hin.
        { rewrite <-E. apply list_elem_of_omap. eauto. }
        split; [by apply Hmin|by apply Hmax].
Qed.

#[export] Instance str_le_total : Total str_le.
Proof. intros a b. apply String.leb_total. Qed.

Lemma unique_from_spec (seen s : list string) :
  NoDup (unique_from seen s)
  ∧ ∀ x, x ∈ unique_from seen s ↔ x ∈ s ∧ x ∉ seen.
Proof.
  revert seen. induction s as [|y s IH]; intros seen; cbn [unique_from].
  - split; [constructor|]. intros x. rewrite elem_of_nil. tauto.
  - destruct (decide (y ∈ seen)) as [Hy|Hy].
    + destruct (IH seen) as [Hnd Hin]. split; [done|]. intros x.
      rewrite Hin, elem_of_cons. split; [tauto|].
      intros [[->|?] ?]; [done|tauto].
    + destruct (IH (y :: seen)) as [Hnd Hin]. split.
      * apply NoDup_cons. split; [|done]. rewrite Hin, not_elem_of_cons. tauto.
      * intros x. rewrite elem_of_cons, Hin, not_elem_of_cons, elem_of_cons.
        destruct (decide (x = y)) as [->|]; tauto.
Qed.

Lemma elem_of_options (col : Row → option string) (df : DataFrame) (v : string) :
  v ∈ options col df ↔ ∃ r, r ∈ df ∧ col r = Some v.
Proof.
  unfold options, unique. rewrite merge_sort_Permutation.
  destruct (unique_from_spec [] (dropna (column col df))) as [_ ->].
  rewrite dropna_column, list_elem_of_omap, elem_of_nil. tauto.
Qed.

(** X5.  The options of a multiselect (lines 154-159) are the values
    present in the column of the dataset, each once, in ascending order;
    a missing value is never an option. *)
Theorem options_sorted_distinct (col : Row → option string) (df : DataFrame) :
  Sorted str_le (options col df)
  ∧ NoDup (options col df)
  ∧ (∀ v, v ∈ options col df ↔ ∃ r, r ∈ df ∧ col r = Some v).
Proof.
  split_and!.
  - apply Sorted_merge_sort. apply _.
  - unfold options, unique. rewrite merge_sort_Permutation.
    apply unique_from_spec.
  - intros v. unfold options, unique. rewrite merge_sort_Permutation.
    destruct (unique_from_spec [] (dropna (column col df))) as [_ ->].
    rewrite dropna_column, list_elem_of_omap, elem_of_nil. tauto.
Qed.

Lemma Forall_delete_lookup {A} (P : A → Prop) (l : list A) (i : nat) (x : A) :
  l !! i = Some x → Forall P l ↔ P x ∧ Forall P (delete i l).
Proof.
  revert i. induction l as [|y l IH]; intros [|i] Hi; simplify_eq/=.
  - by rewrite Forall_cons.
  - rewrite !Forall_cons, (IH i Hi). tauto.
Qed.

(** X6.  Selecting every option of a widget is not the same as selecting
    none: when the column has a present value in the dataset, the view
    under all of its options is the view without that constraint with the
    rows whose value is missing taken out. *)
Theorem select_all_options_drops_missing (df : DataFrame) (fs : Filters)
    (i : nat) (col : Row → option string) :
  constraints fs !! i = Some (col, options col df) →
  (∃ r, r ∈ df ∧ is_Some (col r)) →
  apply_filters df fs
  = filter (λ r, is_Some (col r))
      (boolean_index df (mask_from df (f_age fs) (delete i (constraints fs)))).
Proof.
  intros Hi (r0 & Hr0 & [v0 Hv0]).
  unfold apply_filters. rewrite mask_of_constraints, !mask_from_filter.
  rewrite list_filter_filter. apply filter_ext_in. intros r Hr. unfold passes.
  rewrite (Forall_delete_lookup _ _ i _ Hi).
  assert (member_if_active (col, options col df) r ↔ is_Some (col r)) as ->; [|tauto].
  unfold member_if_active. cbn. split.
  - intros Hm. destruct Hm as (v & -> & _); [|by eexists].
    intros Hnil. assert (v0 ∈ options col df) as Hin by (apply elem_of_options; eauto).
    rewrite Hnil in Hin. by apply elem_of_nil in Hin.
  - intros [v Hv] _. exists v. split; [done|]. apply elem_of_options. eauto.
Qed.

Lemma select_all_options_drops_missing_witness :
  apply_filters two_rows stage_all
  = filter (λ r, is_Some (Q2_Stage r))
      (boolean_index two_rows
         (mask_from two_rows (f_age stage_all) (delete 3%nat (constraints stage_all)))).
Proof.
  apply (select_all_options_drops_missing two_rows stage_all 3 Q2_Stage).
  - reflexivity.
  - eexists. split; [apply list_elem_of_here|]. by eexists.
Defined.

(** ** KPIs: range and edge cases *)

Lemma ratio_Q (a b : nat) :
  (0 < b)%nat →
  ((of_nat a / of_nat b * of_Z 100)%Qc
   == inject_Z (100 * Z.of_nat a) / inject_Z (Z.of_nat b))%Q.
Proof.
  intros Hb. unfold of_nat, of_Z, Qcdiv, Qcmult, Qcinv. cbn [this Q2Qc].
  rewrite !Qred_correct. rewrite inject_Z_mult. field.
  intros H. unfold Qeq in H. cbn in H. lia.
Qed.

Lemma inject_nat_pos (b : nat) : (0 < b)%nat → (0 < inject_Z (Z.of_nat b))%Q.
Proof. intros Hb. change 0%Q with (inject_Z 0). rewrite <-Zlt_Qlt. lia. Qed.

Lemma ratio_bounds (a b : nat) :
  (a ≤ b)%nat → (0 < b)%nat →
  (0 <= of_nat a / of_nat b * of_Z 100)%Qc
  ∧ (of_nat a / of_nat b * of_Z 100 <= of_Z 100)%Qc.
Proof.
  intros Hab Hb. unfold Qcle. rewrite ratio_Q by done.
  pose proof (inject_nat_pos b Hb) as Hpos. split.
  - apply Qle_shift_div_l; [done|]. rewrite Qmult_0_l.
    change 0%Q with (inject_Z 0). rewrite <-Zle_Qle. lia.
  - apply Qle_shift_div_r; [done|]. unfold of_Z. cbn [this Q2Qc].
    rewrite Qred_correct, <-inject_Z_mult, <-Zle_Qle. nia.
Qed.

Lemma rate_kpi_range (col : Row → option string) (dff : DataFrame) :
  ∃ q, rate_kpi col dff = Fin q ∧ (0 <= q)%Qc ∧ (q <= of_Z 100)%Qc.
Proof.
  rewrite rate_kpi_over_rows. unfold rate_over_rows.
  destruct dff as [|r dff].
  - exists 0%Qc. by split_and!.
  - eexists. split; [done|]. apply ratio_bounds.
    + apply length_filter.
    + cbn. lia.
Qed.

(** X7.  Each of the four rate KPIs is a number between 0 and 100 on
    every view: never NaN, whatever values are missing. *)
Theorem rates_between_0_and_100 (dff : DataFrame) :
  Forall (λ kpi : DataFrame → number,
            ∃ q, kpi dff = Fin q ∧ (0 <= q)%Qc ∧ (q <= of_Z 100)%Qc)
         [stage_rate; mob_rate; entre_rate; li_rate].
Proof. repeat (apply Forall_cons; split); [..|apply Forall_nil_2]; apply rate_kpi_range. Qed.

Lemma sum_bounds (lo hi : Z) (l : list Z) :
  Forall (λ y, lo ≤ y ≤ hi) l →
  lo * Z.of_nat (length l) ≤ foldr Z.add 0 l ≤ hi * Z.of_nat (length l).
Proof.
  induction 1 as [|y l Hy _ IH]; cbn [foldr length]; [lia|]. nia.
Qed.

Lemma mean_Q (total : Z) (n : nat) :
  (0 < n)%nat →
  ((of_Z total / of_nat n)%Qc == inject_Z total / inject_Z (Z.of_nat n))%Q.
Proof.
  intros Hn. unfold of_nat, of_Z, Qcdiv, Qcinv, Qcmult. cbn [this Q2Qc].
  rewrite !Qred_correct. field.
  intros H. unfold Qeq in H. cbn in H. lia.
Qed.

(** X8.  The average salary of a view is the placeholder 0 when the view
    has no row, NaN when the view has rows but none with a salary (the
    guard on the row count does not cover this case), and otherwise a
    number between the lowest and the highest salary of the view. *)
Theorem avg_salary_cases (dff : DataFrame) :
  match avg_salary dff with
  | NaN => dff ≠ [] ∧ Forall (λ r, Q6_Salaire_ZAR r = None) dff
  | Fin q =>
      (dff = [] ∧ q = 0%Qc)
      ∨ ∃ lo hi, series_min (column Q6_Salaire_ZAR dff) = Some lo
                 ∧ series_max (column Q6_Salaire_ZAR dff) = Some hi
                 ∧ (of_Z lo <= q)%Qc ∧ (q <= of_Z hi)%Qc
  end.
Proof.
  unfold avg_salary, nb_rep. destruct dff as [|r dff]; [by left|].
  cbn [length]. unfold mean, series_min, series_max. rewrite dropna_column.
  destruct (omap Q6_Salaire_ZAR (r :: dff)) as [|x xs] eqn:E.
  - split; [done|]. apply Forall_forall. intros r' Hr'.
    destruct (Q6_Salaire_ZAR r') as [z|] eqn:Ez; [|done].
    assert (z ∈ omap Q6_Salaire_ZAR (r :: dff)) as Hin
      by (apply list_elem_of_omap; eauto).
    rewrite E in Hin. by apply elem_of_nil in Hin.
  - right. exists (foldr Z.min x xs), (foldr Z.max x xs). split_and!; [done..| |].
    + destruct (foldr_min_spec x xs) as [_ Hmin].
      destruct (sum_bounds (foldr Z.min x xs) (foldr Z.max x xs) (x :: xs)) as [Hlo _].
      { apply Forall_forall. intros y Hy. split; [by apply Hmin|].
        by apply foldr_max_spec. }
      unfold Qcle. rewrite mean_Q by (cbn; lia).
      apply Qle_shift_div_l; [apply inject_nat_pos; cbn; lia|].
      unfold of_Z. cbn [this Q2Qc]. rewrite Qred_correct, <-inject_Z_mult, <-Zle_Qle.
      exact Hlo.
    + destruct (foldr_min_spec x xs) as [_ Hmin].
      destruct (sum_bounds (foldr Z.min x xs) (foldr Z.max x xs) (x :: xs)) as [_ Hhi].
      { apply Forall_forall. intros y Hy. split; [by apply Hmin|].
        by apply foldr_max_spec. }
      unfold Qcle. rewrite mean_Q by (cbn; lia).
      apply Qle_shift_div_r; [apply inject_nat_pos; cbn; lia|].
      unfold of_Z. cbn [this Q2Qc]. rewrite Qred_correct, <-inject_Z_mult, <-Zle_Qle.
      exact Hhi.
Qed.

Lemma Qdiv_eq_inject (n d m : Z) :
  0 < d → (inject_Z n / inject_Z d == inject_Z m)%Q ↔ n = m * d.
Proof.
  intros Hd.
  assert (¬ (inject_Z d == 0)%Q) as Hne.
  { intros H. unfold Qeq in H. cbn in H. lia. }
  split.
  - intros H. apply inject_Z_injective. rewrite inject_Z_mult, <-H. field. done.
  - intros ->. rewrite inject_Z_mult. field. done.
Qed.

Lemma Fin_eq_of_Z (q : Qc) (z : Z) : Fin q = Fin (of_Z z) ↔ (q == inject_Z z)%Q.
Proof.
  split.
  - intros [= ->]. unfold of_Z. cbn [this Q2Qc]. apply Qred_correct.
  - intros H. f_equal. apply Qc_is_canon. unfold of_Z. cbn [this Q2Qc].
    by rewrite Qred_correct.
Qed.

Lemma length_filter_all {A} (P : A → Prop) `{!∀ x, Decision (P x)} (l : list A) :
  length (filter P l) = length l ↔ Forall P l.
Proof.
  induction l as [|x l IH]; [by split|]. rewrite filter_cons, Forall_cons.
  pose proof (length_filter P l).
  destruct (decide (P x)); cbn [length]; rewrite <-IH.
  - split; [intros [= ?]; by split|intros [_ ->]; done].
  - split; [lia|intros [? _]; done].
Qed.

Lemma length_filter_none {A} (P : A → Prop) `{!∀ x, Decision (P x)} (l : list A) :
  length (filter P l) = 0%nat ↔ Forall (λ x, ¬ P x) l.
Proof.
  induction l as [|x l IH]; [by split|]. rewrite filter_cons, Forall_cons.
  destruct (decide (P x)); cbn [length]; rewrite <-?IH.
  - split; [done|intros [? _]; done].
  - split; [by split|by intros [_ ?]].
Qed.

(** X9.  A rate KPI is 100 exactly when the view has rows and every row
    answers "Oui", and 0 exactly when no row answers "Oui", which is also
    the case of the view without rows. *)
Theorem rate_extremes (col : Row → option string) (dff : DataFrame) :
  (rate_kpi col dff = Fin (of_Z 100)
   ↔ dff ≠ [] ∧ Forall (λ r, col r = Some "Oui") dff)
  ∧ (rate_kpi col dff = Fin (of_Z 0)
     ↔ Forall (λ r, col r ≠ Some "Oui") dff).
Proof.
  rewrite rate_kpi_over_rows. unfold rate_over_rows.
  destruct dff as [|r dff].
  - split.
    + split; [intros [=]|by intros [? _]].
    + split; [by constructor|]. intros _. f_equal; by apply Qc_is_canon.
  - set (view := r :: dff).
    assert (0 < Z.of_nat (length view)) as Hpos by (cbn; lia).
    rewrite !Fin_eq_of_Z, !ratio_Q by (cbn; lia).
    rewrite !Qdiv_eq_inject by done. split.
    + rewrite <-length_filter_all. split; [|intros [_ ->]; lia].
      intros H. split; [done|]. lia.
    + rewrite <-(length_filter_none (λ r, col r = Some "Oui")). lia.
Qed.

(** ** Frequency tables: empty tables and the top of the ranking *)

Lemma value_count_nil (s : list string) : value_count s = [] ↔ s = [].
Proof.
  split; [|by intros ->]. intros Hnil. destruct s as [|x s]; [done|].
  assert (x ∈ keys (value_count (x :: s))) as Hin.
  { unfold value_count. apply foldl_bump_keys. right. apply list_elem_of_here. }
  rewrite Hnil in Hin. by apply elem_of_nil in Hin.
Qed.

Lemma omap_nil_Forall {A B} (f : A → option B) (l : list A) :
  omap f l = [] ↔ Forall (λ x, f x = None) l.
Proof.
  induction l as [|x l IH]; [by split|]. rewrite Forall_cons, <-IH.
  change (omap f (x :: l))
    with (match f x with Some y => y :: omap f l | None => omap f l end).
  destruct (f x).
  - split; [done|by intros [? _]].
  - split; [by split|by intros [_ ?]].
Qed.

(** X10.  The table of [value_counts] is empty, so that the chart is
    replaced by the "Aucune donnée" notice, exactly when no row of the
    view has a value in the column; the same holds of its first n
    entries for n > 0. *)
Theorem value_counts_empty (S : SortValues) (view : DataFrame)
    (col : Row → option string) (n : nat) :
  (valueCounts S view col = [] ↔ Forall (λ r, col r = None) view)
  ∧ (topN S view col (Datatypes.S n) = [] ↔ Forall (λ r, col r = None) view).
Proof.
  assert (valueCounts S view col = [] ↔ Forall (λ r, col r = None) view) as Hvc.
  { unfold valueCounts, value_counts. rewrite dropna_column, <-omap_nil_Forall.
    rewrite <-value_count_nil. split.
    - intros H. apply Permutation_nil_r. by rewrite <-(sort_values_Permutation S), H.
    - intros H. apply Permutation_nil_r. by rewrite (sort_values_Permutation S), H. }
  split; [done|]. rewrite <-Hvc. unfold topN, head.
  destruct (valueCounts S view col); by cbn.
Qed.

(** X11.  The first n entries of [value_counts] are the n most frequent
    values: there are at most n of them, and no value left out has a
    higher count than a value kept.  Line 236 keeps n = 10. *)
Theorem topN_most_frequent (S : SortValues) (view : DataFrame)
    (col : Row → option string) (n : nat) :
  (length (topN S view col n) ≤ n)%nat
  ∧ ∀ e e', e ∈ topN S view col n → e' ∈ valueCounts S view col →
            e' ∉ topN S view col n → (e'.2 ≤ e.2)%nat.
Proof.
  unfold topN, head. split.
  - rewrite length_take. lia.
  - intros e e' He He' Hout.
    pose proof (sort_values_sorted S (value_count (dropna (column col view)))) as Hs.
    fold (value_counts S (column col view)) in Hs.
    fold (valueCounts S view col) in Hs.
    rewrite <-(take_drop n (valueCounts S view col)) in Hs, He'.
    apply StronglySorted_app in Hs as [Hcross _].
    apply elem_of_app in He' as [?|He']; [done|]. by apply (Hcross e e').
Qed.

(** ** Group counts and cross-tabulation: totals *)

Lemma sum_list_fmap_add {A} (f g : A → nat) (k : list A) :
  sum_list ((λ x, f x + g x)%nat <$> k) = (sum_list (f <$> k) + sum_list (g <$> k))%nat.
Proof. induction k as [|x k IH]; [done|]. cbn. rewrite IH. lia. Qed.

Lemma sum_indicator {K} `{EqDecision K} (c : K) (k : list K) :
  NoDup k →
  sum_list ((λ x, if decide (c = x) then 1 else 0)%nat <$> k)
  = if decide (c ∈ k) then 1%nat else 0%nat.
Proof.
  induction 1 as [|x k Hx Hnd IH]; [done|]. cbn. rewrite IH.
  destruct (decide (c = x)) as [->|Hne].
  - rewrite decide_False by done. rewrite decide_True; [done|]. by left.
  - destruct (decide (c ∈ k)) as [Hin|Hin].
    + rewrite decide_True; [done|]. by right.
    + rewrite decide_False; [done|]. by intros [?|?]%elem_of_cons.
Qed.

(** Counting the elements of a list key by key, over keys that are
    distinct and cover the list, counts every element once. *)
Lemma sum_counts_by {A K} `{EqDecision K} (key : A → K) (k : list K) (l : list A) :
  NoDup k → (∀ x, x ∈ l → key x ∈ k) →
  sum_list ((λ c, length (filter (λ x, key x = c) l)) <$> k) = length l.
Proof.
  intros Hnd. induction l as [|y l IH]; intros Hcover.
  - clear. induction k as [|c k IHk]; [done|]. cbn. exact IHk.
  - assert ((λ c, length (filter (λ x, key x = c) (y :: l))) <$> k
            = (λ c, (if decide (key y = c) then 1 else 0)
                    + length (filter (λ x, key x = c) l))%nat <$> k) as ->.
    { apply list_fmap_ext. intros _ c _. rewrite filter_cons.
      by destruct (decide (key y = c)). }
    rewrite sum_list_fmap_add, sum_indicator by done.
    rewrite decide_True by (apply Hcover; by left).
    rewrite IH by (intros x Hx; apply Hcover; by right). done.
Qed.

Lemma length_omap {A B} (h : A → option B) (l : list A) :
  length (omap h l) = length (filter (λ x, is_Some (h x)) l).
Proof.
  induction l as [|x l IH]; [done|]. rewrite filter_cons.
  change (omap h (x :: l))
    with (match h x with Some y => y :: omap h l | None => omap h l end).
  destruct (h x) as [y|] eqn:E.
  - rewrite decide_True by by eexists. cbn [length]. by rewrite IH.
  - rewrite decide_False; [done|]. by intros [? [=]].
Qed.

Lemma present_pairs_length (f g : Row → option string) (view : DataFrame) :
  length (present_pairs (column f view) (column g view))
  = length (filter (both_present f g) view).
Proof.
  rewrite present_pairs_column, length_omap. f_equal.
  apply list_filter_iff. intros r. unfold both_present.
  destruct (f r), (g r); split; try (intros [[? [=]] ?]); try (intros [? [? [=]]]);
    try (intros [? [=]]); try done; try (intros _; by eexists).
Qed.

#[export] Instance pair_le_total : Total pair_le.
Proof.
  intros p q. unfold pair_le. destruct (decide (p.1 = q.1)) as [E|E].
  - destruct (str_le_total p.2 q.2); [left; right|right; right]; done.
  - destruct (str_le_total p.1 q.1); [left; left|right; left]; split; congruence.
Qed.

(** X12.  The group counts of line 357 have one record per pair of
    values that some row of the view holds together, in the order of the
    pairs, with the number of such rows (never 0), and the counts add up
    to the number of rows in which both values are present. *)
Theorem groupby_size_counts (view : DataFrame) (a b : Row → option string) :
  let g := groupby_size (column a view) (column b view) in
  NoDup (g.*1) ∧ Sorted pair_le (g.*1)
  ∧ (∀ x y n, (x, y, n) ∈ g
              ↔ (0 < n)%nat
                ∧ n = length (filter (λ r, a r = Some x ∧ b r = Some y) view))
  ∧ sum_list (g.*2) = length (filter (both_present a b) view).
Proof.
  unfold groupby_size. cbn zeta.
  set (pairs := present_pairs (column a view) (column b view)).
  set (ks := merge_sort pair_le (remove_dups pairs)).
  assert (ks ≡ₚ remove_dups pairs) as Hks by apply merge_sort_Permutation.
  assert (NoDup ks) as Hnd by (rewrite Hks; apply NoDup_remove_dups).
  assert (∀ p, p ∈ ks ↔ p ∈ pairs) as Hin.
  { intros p. by rewrite Hks, elem_of_remove_dups. }
  split_and!.
  - rewrite <-list_fmap_compose. by rewrite list_fmap_id.
  - rewrite <-list_fmap_compose, list_fmap_id. apply Sorted_merge_sort, _.
  - intros x y n. rewrite list_elem_of_fmap. unfold pairs at 1.
    rewrite <-length_filter_pairs. fold pairs. split.
    + intros (p & [= <- ->] & Hp). split; [|done].
      apply Hin in Hp.
      assert ((x, y) ∈ filter ((x, y) =.) pairs) as Hf
        by by apply list_elem_of_filter.
      destruct (filter ((x, y) =.) pairs); [by apply elem_of_nil in Hf|cbn; lia].
    + intros [Hpos ->]. exists (x, y). split; [done|]. apply Hin.
      destruct (filter ((x, y) =.) pairs) as [|p f] eqn:E; [cbn in Hpos; lia|].
      assert (p ∈ filter ((x, y) =.) pairs) as Hp by (rewrite E; left).
      apply list_elem_of_filter in Hp as [-> ?]. done.
  - rewrite <-list_fmap_compose.
    rewrite <-present_pairs_length. fold pairs.
    rewrite <-(sum_counts_by id ks pairs Hnd) by (intros p ?; by apply Hin).
    f_equal. apply list_fmap_ext. intros _ p _. cbn. f_equal.
    apply list_filter_iff. intros q. cbn. split; by intros ->.
Qed.

Lemma filter_pair_split (a b : string) (pairs : list (string * string)) :
  length (filter ((a, b) =.) pairs)
  = length (filter (λ p, p.2 = b) (filter (λ p, p.1 = a) pairs)).
Proof.
  rewrite list_filter_filter. f_equal. apply list_filter_iff.
  intros [x y]. cbn. split; [by intros [= -> ->]|by intros [-> ->]].
Qed.

Lemma filter_pair_split' (a b : string) (pairs : list (string * string)) :
  length (filter ((a, b) =.) pairs)
  = length (filter (λ p, p.1 = a) (filter (λ p, p.2 = b) pairs)).
Proof.
  rewrite list_filter_filter. f_equal. apply list_filter_iff.
  intros [x y]. cbn. split; [by intros [= -> ->]|by intros [-> ->]].
Qed.

Lemma sorted_distinct_nil (l : list string) :
  merge_sort str_le (remove_dups l) = [] ↔ l = [].
Proof.
  split; [|by intros ->]. intros H.
  assert (remove_dups l ≡ₚ []) as Hp by (by rewrite <-(merge_sort_Permutation str_le), H).
  apply Permutation_nil_r in Hp. destruct l as [|x l]; [done|].
  assert (x ∈ remove_dups (x :: l)) as Hin by (apply elem_of_remove_dups; left).
  rewrite Hp in Hin. by apply elem_of_nil in Hin.
Qed.

Section crosstab_totals.
Variables (view : DataFrame) (rowCol colCol : Row → option string).
Let pairs := present_pairs (column rowCol view) (column colCol view).
Let idx := merge_sort str_le (remove_dups pairs.*1).
Let cls := merge_sort str_le (remove_dups pairs.*2).

Lemma idx_spec : NoDup idx ∧ ∀ p, p ∈ pairs → p.1 ∈ idx.
Proof.
  unfold idx. split.
  - rewrite merge_sort_Permutation. apply NoDup_remove_dups.
  - intros p Hp. rewrite merge_sort_Permutation, elem_of_remove_dups.
    by apply list_elem_of_fmap_2.
Qed.

Lemma cls_spec : NoDup cls ∧ ∀ p, p ∈ pairs → p.2 ∈ cls.
Proof.
  unfold cls. split.
  - rewrite merge_sort_Permutation. apply NoDup_remove_dups.
  - intros p Hp. rewrite merge_sort_Permutation, elem_of_remove_dups.
    by apply list_elem_of_fmap_2.
Qed.

(** The cells of the row of a label add up to the pairs with that label. *)
Lemma row_sum (a : string) :
  sum_list ((λ b, length (filter ((a, b) =.) pairs)) <$> cls)
  = length (filter (λ p, p.1 = a) pairs).
Proof.
  destruct cls_spec as [Hnd Hcover].
  rewrite <-(sum_counts_by snd cls (filter (λ p, p.1 = a) pairs) Hnd).
  - f_equal. apply list_fmap_ext. intros _ b _. apply filter_pair_split.
  - intros p [_ Hp]%list_elem_of_filter. by apply Hcover.
Qed.

Lemma col_sum (b : string) :
  sum_list ((λ a, length (filter ((a, b) =.) pairs)) <$> idx)
  = length (filter (λ p, p.2 = b) pairs).
Proof.
  destruct idx_spec as [Hnd Hcover].
  rewrite <-(sum_counts_by fst idx (filter (λ p, p.2 = b) pairs) Hnd).
  - f_equal. apply list_fmap_ext. intros _ a _. apply filter_pair_split'.
  - intros p [_ Hp]%list_elem_of_filter. by apply Hcover.
Qed.

Lemma matrix_total :
  sum_list ((λ a, sum_list ((λ b, length (filter ((a, b) =.) pairs)) <$> cls)) <$> idx)
  = length pairs.
Proof.
  destruct idx_spec as [Hnd Hcover].
  rewrite <-(sum_counts_by fst idx pairs Hnd Hcover).
  f_equal. apply list_fmap_ext. intros _ a _. apply row_sum.
Qed.

Lemma idx_nil : idx = [] ↔ pairs = [].
Proof.
  unfold idx. rewrite sorted_distinct_nil. split; [apply fmap_nil_inv|by intros ->].
Qed.

Lemma cls_nil : cls = [] ↔ pairs = [].
Proof.
  unfold cls. rewrite sorted_distinct_nil. split; [apply fmap_nil_inv|by intros ->].
Qed.
End crosstab_totals.

Lemma length_filter_omap_pred {A B} (h : A → option B) (P : B → Prop) (Q : A → Prop)
    `{!∀ y, Decision (P y)} `{!∀ x, Decision (Q x)} (l : list A) :
  (∀ x, Q x ↔ ∃ y, h x = Some y ∧ P y) →
  length (filter P (omap h l)) = length (filter Q l).
Proof.
  intros HQ. induction l as [|x l IH]; [done|]. rewrite (filter_cons Q).
  change (omap h (x :: l))
    with (match h x with Some y => y :: omap h l | None => omap h l end).
  destruct (h x) as [y|] eqn:E.
  - rewrite filter_cons. destruct (decide (P y)) as [HP|HP].
    + rewrite decide_True by (apply HQ; eauto). cbn [length]. by rewrite IH.
    + rewrite decide_False; [done|]. intros (y' & Hy' & ?)%HQ. congruence.
  - rewrite decide_False; [done|]. intros (y' & Hy' & ?)%HQ. congruence.
Qed.

(** X13.  The cross-tabulation is a rectangular matrix under labels in
    ascending order; the cells of a row add up to the number of rows of
    the view with that row value and a present column value, all the
    cells to the number of rows in which both values are present; and the
    table is empty (line 366) exactly when no row has both values. *)
Theorem crosstab_shape_totals (view : DataFrame) (rowCol colCol : Row → option string) :
  let t := crossTab view rowCol colCol in
  Sorted str_le (index t) ∧ Sorted str_le (columns t)
  ∧ length (values t) = length (index t)
  ∧ Forall (λ row, length row = length (columns t)) (values t)
  ∧ (∀ i a, index t !! i = Some a →
       ∃ row, values t !! i = Some row
         ∧ sum_list row
           = length (filter (λ r, rowCol r = Some a ∧ is_Some (colCol r)) view))
  ∧ sum_list (sum_list <$> values t)
    = length (filter (both_present rowCol colCol) view)
  ∧ (empty t = true ↔ Forall (λ r, ¬ both_present rowCol colCol r) view).
Proof.
  unfold crossTab, crosstab, empty. cbn zeta. cbn [index columns values].
  split_and!.
  - apply Sorted_merge_sort, _.
  - apply Sorted_merge_sort, _.
  - by rewrite length_fmap.
  - apply Forall_fmap, Forall_forall. intros a _. cbn. by rewrite length_fmap.
  - intros i a Hi. eexists. split.
    + rewrite list_lookup_fmap, Hi. done.
    + rewrite row_sum, present_pairs_column.
      apply length_filter_omap_pred. intros r. cbn.
      destruct (rowCol r) as [x|], (colCol r) as [y|]; split.
      all: try (intros [[= ->] _]; by eexists).
      all: try (intros (p & [= <-] & <-); split; [done|by eexists]).
      all: try (intros [_ [? [=]]]).
      all: try (intros [[=] _]).
      all: try (intros (p & [=] & _)).
  - rewrite <-list_fmap_compose, <-present_pairs_length.
    rewrite <-(matrix_total view rowCol colCol). done.
  - rewrite orb_true_iff, !bool_decide_eq_true.
    rewrite idx_nil, cls_nil, <-length_filter_none, <-present_pairs_length.
    split.
    + by intros [->| ->].
    + intros H. left. by apply nil_length_inv.
Qed.

Lemma zip_fmap_diag {A B} (F : A → B) (l : list A) :
  zip l (F <$> l) = (λ a, (a, F a)) <$> l.
Proof. induction l as [|a l IH]; [done|]. cbn. by rewrite IH. Qed.

Lemma sum_list_join_snd {A} (ls : list (list (A * nat))) :
  sum_list ((mjoin ls).*2) = sum_list ((λ l, sum_list (l.*2)) <$> ls).
Proof.
  induction ls as [|l ls IH]; [done|]. cbn.
  rewrite fmap_app, sum_list_with_app. by rewrite <-IH.
Qed.

(** The long form of a cross-tabulation, column label by column label. *)
Lemma melt_crosstab (rows cols : Series (option string)) :
  let pairs := present_pairs rows cols in
  melt (crosstab rows cols)
  = mjoin ((λ b, (λ a, (a, b, length (filter ((a, b) =.) pairs)))
                   <$> index (crosstab rows cols))
             <$> columns (crosstab rows cols)).
Proof.
  unfold melt, crosstab. cbn zeta. cbn [index columns values].
  set (pairs := present_pairs rows cols).
  set (idx := merge_sort str_le (remove_dups pairs.*1)).
  set (cls := merge_sort str_le (remove_dups pairs.*2)).
  f_equal. rewrite zip_fmap_diag. etrans; [|apply imap_const]. apply imap_ext.
  intros j b Hj. cbn. rewrite <-list_fmap_compose. apply list_fmap_ext.
  intros _ a _. cbn. by rewrite list_lookup_fmap, Hj.
Qed.

(** X14.  The long form that feeds the heat map (line 367) has one
    record for every combination of a row label and a column label of
    the cross-tabulation, combinations that never occur together
    included, with the number of rows of the view holding that pair; its
    counts add up to the number of rows in which both values are
    present. *)
Theorem melt_every_combination (view : DataFrame) (rowCol colCol : Row → option string) :
  let t := crossTab view rowCol colCol in
  length (melt t) = (length (index t) * length (columns t))%nat
  ∧ (∀ a b n, (a, b, n) ∈ melt t
              ↔ a ∈ index t ∧ b ∈ columns t
                ∧ n = length (filter (λ r, rowCol r = Some a ∧ colCol r = Some b) view))
  ∧ sum_list ((melt t).*2) = length (filter (both_present rowCol colCol) view).
Proof.
  unfold crossTab. cbn zeta. rewrite melt_crosstab. cbn zeta.
  set (pairs := present_pairs (column rowCol view) (column colCol view)).
  split_and!.
  - rewrite length_join, <-list_fmap_compose.
    set (t := crosstab (column rowCol view) (column colCol view)).
    assert ((length ∘ (λ b, (λ a, (a, b, length (filter ((a, b) =.) pairs)))
                              <$> index t)) <$> columns t
            = (λ _, length (index t)) <$> columns t) as ->.
    { apply list_fmap_ext. intros _ b _. cbn. by rewrite length_fmap. }
    rewrite sum_list_fmap_const. lia.
  - intros a b n. rewrite list_elem_of_join. unfold pairs.
    rewrite <-length_filter_pairs. split.
    + intros (l & Hin & Hl). apply list_elem_of_fmap in Hl as (b' & -> & Hb').
      apply list_elem_of_fmap in Hin as (a' & [= -> -> ->] & Ha'). done.
    + intros (Ha & Hb & ->).
      exists ((λ a, (a, b, length (filter ((a, b) =.)
                (present_pairs (column rowCol view) (column colCol view)))))
                <$> index (crosstab (column rowCol view) (column colCol view))).
      split.
      * apply list_elem_of_fmap. by exists a.
      * apply list_elem_of_fmap. by exists b.
  - rewrite sum_list_join_snd, <-list_fmap_compose, <-present_pairs_length.
    fold pairs.
    destruct (cls_spec view rowCol colCol) as [Hnd Hcover].
    rewrite <-(sum_counts_by snd _ pairs Hnd Hcover).
    f_equal. apply list_fmap_ext. intros _ b _. cbn.
    rewrite <-list_fmap_compose. apply (col_sum view rowCol colCol b).
Qed.

(** ** Keyword extractor: the counter as a whole *)

(** X15.  The counter holds exactly the words that pass the guard of line
    281 and occur in some present text, each with the number of its
    occurrences over all the texts. *)
Theorem extract_keywords_counts (U : UnicodeData) (series : Series (option pystr))
    (min_length : nat) (w : pystr) (n : nat) :
  extract_keywords U series min_length !! w = Some n
  ↔ (min_length ≤ length w)%nat ∧ (w ∉ stop_words)
    ∧ w ∈ words_of U series ∧ n = occurrences w (words_of U series).
Proof.
  rewrite extract_keywords_lookup. unfold keyword_ok.
  pose proof (occurrences_pos w (words_of U series)) as Hpos.
  case_decide as H; split.
  - intros [= <-]. tauto.
  - intros (_ & _ & _ & ->). done.
  - done.
  - intros (? & ? & ? & _). tauto.
Qed.

(** X16.  The counter of two Series put end to end is the sum, word by
    word, of the counters of the two. *)
Theorem extract_keywords_app (U : UnicodeData) (s1 s2 : Series (option pystr))
    (min_length : nat) :
  extract_keywords U (s1 ++ s2) min_length
  = union_with (λ a b, Some (a + b)%nat)
      (extract_keywords U s1 min_length) (extract_keywords U s2 min_length).
Proof.
  apply map_eq. intros w. rewrite lookup_union_with, !extract_keywords_lookup.
  unfold words_of, dropna, occurrences. rewrite omap_app, bind_app, filter_app, length_app.
  generalize (length (filter (w =.) (omap id s1 ≫= λ t, split U (normalise U t)))).
  generalize (length (filter (w =.) (omap id s2 ≫= λ t, split U (normalise U t)))).
  intros n2 n1. destruct (decide (keyword_ok min_length w)) as [Hok|Hno].
  - destruct n1, n2; repeat case_decide; cbn; try done; try (f_equal; lia);
      exfalso; intuition lia.
  - by rewrite !decide_False by tauto.
Qed.

(** X17.  The counter does not depend on the order of the answers. *)
Theorem extract_keywords_order (U : UnicodeData) (s s' : Series (option pystr))
    (min_length : nat) :
  s ≡ₚ s' → extract_keywords U s min_length = extract_keywords U s' min_length.
Proof.
  intros Hp. apply map_eq. intros w. rewrite !extract_keywords_lookup.
  assert (occurrences w (words_of U s) = occurrences w (words_of U s')) as ->; [|done].
  unfold occurrences, words_of, dropna. by rewrite Hp.
Qed.

Lemma extract_keywords_order_witness :
  extract_keywords ascii_table answers 3 = extract_keywords ascii_table answers' 3.
Proof.
  apply (extract_keywords_order ascii_table answers answers' 3).
  unfold answers, answers'.
  etrans; [apply perm_skip, perm_swap|apply perm_swap].
Defined.

(** X18.  Raising the minimum length only removes the keys that are too
    short: the counts of the others do not change. *)
Theorem extract_keywords_min_length (U : UnicodeData) (series : Series (option pystr))
    (m m' : nat) :
  (m ≤ m')%nat →
  extract_keywords U series m'
  = filter (λ kv, (m' ≤ length kv.1)%nat) (extract_keywords U series m).
Proof.
  intros Hle. apply map_eq. intros w.
  rewrite map_lookup_filter, !extract_keywords_lookup. unfold keyword_ok.
  generalize (occurrences w (words_of U series)). intros n.
  repeat case_decide; cbn; try case_guard; try done; exfalso;
    cbn [fst] in *; destruct_and?; first [tauto | lia | naive_solver lia].
Qed.

Lemma extract_keywords_min_length_witness :
  extract_keywords ascii_table answers 6
  = filter (λ kv, (6 ≤ length kv.1)%nat) (extract_keywords ascii_table answers 3).
Proof. apply (extract_keywords_min_length ascii_table answers 3 6). lia. Defined.

Lemma split_from_join (U : UnicodeData) (cur txt : pystr) :
  mjoin (split_from U cur txt) = reverse cur ++ filter (visible U) txt.
Proof.
  revert cur. induction txt as [|c txt IH]; intros cur; cbn [split_from].
  - destruct cur; [done|]. cbn. by rewrite !app_nil_r.
  - rewrite filter_cons. destruct (decide (visible U c)) as [Hv|Hv]; unfold visible in Hv.
    + rewrite Hv, IH, reverse_cons, <-app_assoc. done.
    + apply not_false_is_true in Hv. rewrite Hv.
      destruct cur as [|d cur]; [apply IH|].
      change (mjoin (?x :: ?l)) with (x ++ mjoin l). by rewrite IH.
Qed.

Lemma split_from_nonempty (U : UnicodeData) (cur txt : pystr) :
  Forall (λ w, w ≠ []) (split_from U cur txt).
Proof.
  assert (∀ d (l : pystr), reverse (d :: l) ≠ []) as Hrev.
  { intros d l H%(f_equal length). rewrite length_reverse in H. done. }
  revert cur. induction txt as [|c txt IH]; intros cur; cbn [split_from].
  - destruct cur; [apply Forall_nil_2|]. apply Forall_cons. split; [apply Hrev|apply Forall_nil_2].
  - destruct (isspace U c); [|apply IH].
    destruct cur; [apply IH|]. apply Forall_cons. split; [apply Hrev|apply IH].
Qed.

Lemma split_chars (U : UnicodeData) (txt w : pystr) (c : N) :
  w ∈ split U txt → c ∈ w → c ∈ txt ∧ visible U c.
Proof.
  intros Hw Hc. apply and_comm, (list_elem_of_filter (visible U)).
  pose proof (split_from_join U [] txt) as Hjoin. cbn in Hjoin. rewrite <-Hjoin.
  apply list_elem_of_join. eauto.
Qed.

(** X19.  [txt.split()] (line 280) gives words that are not empty and hold
    no whitespace; put end to end they are the text without its
    whitespace; there is no word exactly when the text is all
    whitespace. *)
Theorem split_words (U : UnicodeData) (txt : pystr) :
  Forall (λ w, w ≠ [] ∧ Forall (visible U) w) (split U txt)
  ∧ mjoin (split U txt) = filter (visible U) txt
  ∧ (split U txt = [] ↔ Forall (λ c, isspace U c = true) txt).
Proof.
  pose proof (split_from_join U [] txt) as Hjoin. cbn in Hjoin.
  pose proof (split_from_nonempty U [] txt) as Hne. fold (split U txt) in *.
  split_and!; [|done|].
  - apply Forall_forall. intros w Hw. split.
    + by apply (proj1 (Forall_forall _ _) Hne).
    + apply Forall_forall. intros c Hc. by eapply split_chars.
  - split.
    + intros Hnil. rewrite Hnil in Hjoin. apply Forall_forall. intros c Hc.
      destruct (isspace U c) eqn:E; [done|].
      assert (c ∈ filter (visible U) txt) as Hin by by apply list_elem_of_filter.
      rewrite <-Hjoin in Hin. by apply elem_of_nil in Hin.
    + intros Hall. destruct (split U txt) as [|w ws]; [done|].
      apply Forall_cons in Hne as [Hw _]. destruct w as [|c w]; [done|].
      assert (c ∈ filter (visible U) txt) as Hin.
      { rewrite <-Hjoin. cbn. apply list_elem_of_here. }
      apply list_elem_of_filter in Hin as [Hvis Hin].
      apply (proj1 (Forall_forall _ _) Hall) in Hin. unfold visible in Hvis. congruence.
Qed.

Lemma normalise_chars (U : UnicodeData) (t : pystr) (c : N) :
  c ∈ normalise U t →
  c = 32%N ∨ ((is_word U c || isspace U c) = true ∧ c ≠ 39%N ∧ c ≠ 8217%N).
Proof.
  unfold normalise, replace_char, re_sub_punct.
  intros (c1 & -> & Hc1)%list_elem_of_fmap.
  destruct (N.eqb_spec c1 39); [by left|].
  apply list_elem_of_fmap in Hc1 as (c2 & -> & Hc2).
  destruct (N.eqb_spec c2 8217); [by left|].
  apply list_elem_of_fmap in Hc2 as (c3 & -> & _).
  destruct (is_word U c3 || isspace U c3) eqn:E; [by right|by left].
Qed.

Lemma elem_of_words_of (U : UnicodeData) (series : Series (option pystr)) (w : pystr) :
  w ∈ words_of U series ↔ ∃ t, Some t ∈ series ∧ w ∈ split U (normalise U t).
Proof.
  unfold words_of, dropna. rewrite list_elem_of_bind. split.
  - intros (t & Hw & (o & Ho & Ht)%list_elem_of_omap). cbn in Ht. subst o. eauto.
  - intros (t & Ht & Hw). exists t. split; [done|]. apply list_elem_of_omap. eauto.
Qed.

(** X20.  When the space is whitespace for the Unicode database, every
    character of every key of the counter is a word character (a letter,
    a digit or the underscore), and none is whitespace, an apostrophe or a
    typographic apostrophe. *)
Theorem keyword_characters (U : UnicodeData) (series : Series (option pystr))
    (min_length : nat) (w : pystr) :
  isspace U 32 = true →
  w ∈ dom (extract_keywords U series min_length) →
  Forall (λ c, is_word U c = true ∧ isspace U c = false ∧ c ≠ 39%N ∧ c ≠ 8217%N) w.
Proof.
  intros Hsp [n Hn]%elem_of_dom.
  rewrite extract_keywords_lookup in Hn. case_decide as H; [|done].
  destruct H as [_ Hocc%occurrences_pos].
  apply elem_of_words_of in Hocc as (t & _ & Hw).
  apply Forall_forall. intros c Hc.
  destruct (split_chars U _ w c Hw Hc) as [Hin Hvis]. unfold visible in Hvis.
  destruct (normalise_chars U t c Hin) as [->|(Hcls & ? & ?)]; [congruence|].
  rewrite Hvis, orb_false_r in Hcls. done.
Qed.

Lemma keyword_characters_witness :
  u "emploi" ∈ dom (extract_keywords ascii_table answers 3)
  ∧ Forall (λ c, is_word ascii_table c = true ∧ isspace ascii_table c = false
                 ∧ c ≠ 39%N ∧ c ≠ 8217%N) (u "emploi").
Proof.
  assert (u "emploi" ∈ dom (extract_keywords ascii_table answers 3)) as Hdom.
  { apply elem_of_dom. exists 2%nat. by vm_compute. }
  split; [done|].
  apply (keyword_characters ascii_table answers 3 (u "emploi")); [reflexivity|done].
Defined.

(** ** CSV loader and export: shape, missing values, single columns *)

Lemma infer_column_cases (L : Codec) (fields : list string) :
  ∃ (A : Type) (p : string → option A) (v : A → value (float L)) (k : kind),
    infer_column L fields = convert L p v <$> fields
    ∧ all_parse L p fields = true
    ∧ (∀ x, kind_of (v x) = Some k)
    ∧ (k = KInt → no_na L fields = true)
    ∧ (k = KStr → all_parse L (parse_int L) fields = false
                  ∧ all_parse L (parse_float L) fields = false
                  ∧ all_parse L (parse_bool L) fields = false).
Proof.
  unfold infer_column.
  destruct (all_parse L (parse_int L) fields) eqn:E1.
  { destruct (no_na L fields) eqn:E2.
    - by exists Z, (parse_int L), VInt, KInt.
    - by exists Z, (parse_int L), (λ z, VFloat (float_of_int L z)), KFloat. }
  destruct (all_parse L (parse_float L) fields) eqn:E2.
  { by exists (float L), (parse_float L), VFloat, KFloat. }
  destruct (all_parse L (parse_bool L) fields) eqn:E3.
  { by exists bool, (parse_bool L), VBool, KBool. }
  exists string, Some, (λ s, VStr s), KStr. split_and!; try done.
  unfold all_parse. apply forallb_forall. intros f _.
  rewrite bool_decide_eq_true_2 by done. apply orb_true_r.
Qed.

Lemma convert_cell (L : Codec) {A} (p : string → option A) (v : A → value (float L))
    (k : kind) (fields : list string) (f : string) :
  all_parse L p fields = true → (∀ x, kind_of (v x) = Some k) → f ∈ fields →
  if is_na L f then convert L p v f = VNaN
  else ∃ x, p f = Some x ∧ convert L p v f = v x.
Proof.
  intros Hall Hk Hf. unfold all_parse in Hall. rewrite forallb_forall in Hall.
  specialize (Hall f (proj1 (list_elem_of_In _ _) Hf)). unfold convert.
  destruct (is_na L f); [done|]. cbn in Hall.
  apply bool_decide_eq_true in Hall as [x Hx]. rewrite Hx. eauto.
Qed.

(** X24.  What the loader's type inference gives for a column of fields,
    whatever the codec: one cell per field; a cell is NaN exactly when
    its field is an NA token; the cells that are not NaN are all of one
    kind; and a column that holds an integer holds only integers. *)
Theorem infer_column_cells (L : Codec) (fields : list string) :
  length (infer_column L fields) = length fields
  ∧ (∀ i f, fields !! i = Some f →
       (infer_column L fields !! i = Some VNaN ↔ is_na L f = true))
  ∧ (∃ k, Forall (λ v, v = VNaN ∨ kind_of v = Some k) (infer_column L fields))
  ∧ (∀ z, VInt z ∈ infer_column L fields →
       Forall (λ v, ∃ z', v = VInt z') (infer_column L fields)).
Proof.
  destruct (infer_column_cases L fields) as (A & p & v & k & -> & Hall & Hk & Hint & _).
  split_and!.
  - apply length_fmap.
  - intros i f Hf. rewrite list_lookup_fmap, Hf. cbn.
    assert (f ∈ fields) as Hin by (apply list_elem_of_lookup; eauto).
    pose proof (convert_cell L p v k fields f Hall Hk Hin) as Hc.
    destruct (is_na L f).
    + rewrite Hc. done.
    + destruct Hc as (x & _ & ->). specialize (Hk x).
      split; [|done]. intros [= Hv]. by rewrite Hv in Hk.
  - exists k. apply Forall_fmap, Forall_forall. intros f Hin. cbn.
    pose proof (convert_cell L p v k fields f Hall Hk Hin) as Hc.
    destruct (is_na L f); [by left|]. destruct Hc as (x & _ & ->). by right.
  - intros z (f & Hz & Hin)%list_elem_of_fmap.
    pose proof (convert_cell L p v k fields f Hall Hk Hin) as Hc.
    assert (k = KInt) as ->.
    { destruct (is_na L f); [by rewrite Hc in Hz|].
      destruct Hc as (x & _ & Hx). rewrite Hx in Hz. specialize (Hk x).
      rewrite <-Hz in Hk. by injection Hk as <-. }
    specialize (Hint eq_refl). unfold no_na in Hint. rewrite forallb_forall in Hint.
    apply Forall_fmap, Forall_forall. intros g Hg. cbn.
    pose proof (convert_cell L p v KInt fields g Hall Hk Hg) as Hc'.
    specialize (Hint g (proj1 (list_elem_of_In _ _) Hg)).
    apply negb_true_iff in Hint. rewrite Hint in Hc'.
    destruct Hc' as (x & _ & ->). specialize (Hk x).
    destruct (v x); try done. by eexists.
Qed.

Lemma read_csv_column (L : Codec) (df dff : DataFrame) (j : nat) (name : string)
    (a : accessor) :
  schema !! j = Some (name, a) →
  _read_csv L (to_csv L df dff) !! j
  = Some (strip name, infer_column L ((λ r, render L (cell_of L df a r)) <$> dff)).
Proof.
  intros Hj. unfold _read_csv, to_csv. cbn [header records].
  rewrite list_lookup_imap, list_lookup_fmap, Hj. cbn [fmap option_fmap option_map fst].
  rewrite <-list_fmap_compose.
  assert ((λ rec : list string, default "" (rec !! j))
            ∘ (λ r, (λ c : string * accessor, render L (cell_of L df c.2 r)) <$> schema)
            <$> dff
          = (λ r, render L (cell_of L df a r)) <$> dff) as ->; [|done].
  apply list_fmap_ext. intros _ r _. cbn [compose].
  by rewrite list_lookup_fmap, Hj.
Qed.

Lemma to_table_column (L : Codec) (df dff : DataFrame) (j : nat) (name : string)
    (a : accessor) :
  schema !! j = Some (name, a) →
  to_table L df dff !! j = Some (name, cell_of L df a <$> dff).
Proof. intros Hj. unfold to_table. by rewrite list_lookup_fmap, Hj. Qed.

Lemma schema_name_stripped (j : nat) (name : string) (a : accessor) :
  schema !! j = Some (name, a) → strip name = name.
Proof.
  intros Hj. pose proof schema_names_stripped as H. rewrite Forall_forall in H.
  apply (H (name, a)). apply list_elem_of_lookup. eauto.
Qed.

(** X25.  Whatever the text columns hold, the export of a view read back
    has the column names of the table, and every numeric column whose
    values are int64 comes back as it was. *)
Theorem export_reload_numeric (L : Codec) (df dff : DataFrame) (j : nat)
    (name : string) (f : Row → option Z) :
  codec_laws L → dff ⊆ df →
  schema !! j = Some (name, Num f) →
  (∀ r z, r ∈ dff → f r = Some z → int64 z) →
  (_read_csv L (to_csv L df dff)).*1 = (to_table L df dff).*1
  ∧ _read_csv L (to_csv L df dff) !! j = to_table L df dff !! j.
Proof.
  intros HL Hsub Hj Hint. split.
  - apply list_eq. intros i. rewrite !list_lookup_fmap.
    destruct (schema !! i) as [[n a]|] eqn:Hi.
    + rewrite (read_csv_column L df dff i n a Hi), (to_table_column L df dff i n a Hi).
      cbn. by rewrite (schema_name_stripped i n a Hi).
    + unfold _read_csv, to_csv, to_table. cbn [header records].
      by rewrite list_lookup_imap, !list_lookup_fmap, Hi.
  - rewrite (read_csv_column L df dff j name _ Hj), (to_table_column L df dff j name _ Hj).
    rewrite (schema_name_stripped j name _ Hj).
    by rewrite (column_roundtrip L HL df dff (Num f) Hsub Hint).
Qed.

Lemma export_reload_numeric_witness :
  let dff := apply_filters langues_rows (no_filter (22, 22)) in
  (_read_csv plain (to_csv plain langues_rows dff)).*1
  = (to_table plain langues_rows dff).*1
  ∧ _read_csv plain (to_csv plain langues_rows dff) !! 9%nat
    = to_table plain langues_rows dff !! 9%nat.
Proof.
  apply (export_reload_numeric plain langues_rows
           (apply_filters langues_rows (no_filter (22, 22))) 9
           "Q6_Salaire_ZAR" Q6_Salaire_ZAR).
  - exact plain_laws.
  - apply apply_filters_subseteq.
  - reflexivity.
  - intros r z Hr Hz.
    change (apply_filters langues_rows (no_filter (22, 22)))
      with (take 1 langues_rows) in Hr.
    cbn in Hr. each_row Hr. cbn in Hz. simplify_eq. unfold int64. lia.
Defined.

(** X26.  A text column of a view whose values are not NA tokens comes
    back from the export as it was exactly when it has no present value,
    or its present values are not all integers, nor all floats, nor all
    booleans for the loader. *)
Theorem export_reload_text_iff (L : Codec) (df dff : DataFrame) (j : nat)
    (name : string) (f : Row → option string) :
  codec_laws L →
  schema !! j = Some (name, Txt f) →
  (∀ r s, r ∈ dff → f r = Some s → is_na L s = false) →
  _read_csv L (to_csv L df dff) !! j = to_table L df dff !! j
  ↔ keeps_text L (dropna (column f dff)).
Proof.
  intros HL Hj Hna.
  rewrite (read_csv_column L df dff j name _ Hj), (to_table_column L df dff j name _ Hj).
  rewrite (schema_name_stripped j name _ Hj).
  assert ((λ r, render L (cell_of L df (Txt f) r)) <$> dff
          = default "" <$> (f <$> dff)) as Hfields.
  { rewrite <-list_fmap_compose. apply list_fmap_ext. intros _ r _. cbn.
    by destruct (f r). }
  assert (Forall (λ o, ∀ s, o = Some s → is_na L s = false) (f <$> dff)) as Hpres.
  { apply Forall_fmap, Forall_forall. intros r Hr s Hs. by apply (Hna r). }
  rewrite Hfields. split.
  - intros [= Heq]. rewrite dropna_column.
    destruct (omap f dff) as [|s texts] eqn:E; [by left|right].
    assert (s ∈ omap f dff) as Hs by (rewrite E; apply list_elem_of_here).
    apply list_elem_of_omap in Hs as (r & Hr & Hs).
    apply list_elem_of_lookup in Hr as [i Hi].
    destruct (infer_column_cases L (default "" <$> (f <$> dff)))
      as (A & p & v & k & Hinf & Hall & Hk & _ & Hstr).
    rewrite Hinf in Heq. apply (f_equal (λ l, l !! i)) in Heq.
    rewrite !list_lookup_fmap, Hi in Heq. cbn in Heq. rewrite Hs in Heq.
    cbn in Heq. injection Heq as Heq.
    assert (s ∈ default "" <$> (f <$> dff)) as Hin.
    { apply list_elem_of_fmap. exists (Some s). split; [done|].
      apply list_elem_of_fmap. exists r. split; [done|].
      apply list_elem_of_lookup. eauto. }
    pose proof (convert_cell L p v k _ s Hall Hk Hin) as Hc.
    rewrite (Hna r s) in Hc by (done || (apply list_elem_of_lookup; eauto)).
    destruct Hc as (x & _ & Hx). rewrite Hx in Heq. specialize (Hk x).
    rewrite Heq in Hk. injection Hk as <-.
    destruct (Hstr eq_refl) as (Hi1 & Hi2 & Hi3).
    rewrite (all_parse_texts L HL) in Hi1 by done.
    rewrite (all_parse_texts L HL) in Hi2 by done.
    rewrite (all_parse_texts L HL) in Hi3 by done.
    rewrite <-E, <-dropna_column. unfold retyped, dropna, column.
    apply orb_false_iff. split; [apply orb_false_iff; split|]; done.
  - intros Hkeep. do 2 f_equal. rewrite <-Hfields.
    apply (column_roundtrip L HL dff dff (Txt f)); [done|]. by split.
Qed.

Lemma export_reload_text_iff_witness :
  _read_csv plain (to_csv plain langues_rows langues_rows) !! 8%nat
  = to_table plain langues_rows langues_rows !! 8%nat
  ↔ keeps_text plain (dropna (column Q5_Langues langues_rows)).
Proof.
  apply (export_reload_text_iff plain langues_rows langues_rows 8
           "Q5_Langues" Q5_Langues).
  - exact plain_laws.
  - reflexivity.
  - intros r s Hr Hs. unfold langues_rows in Hr. each_row Hr; cbn in Hs; simplify_eq;
      reflexivity.
Defined.

(** ** Column names of the loaded table *)

Lemma lstrip_fix (p : pystr) : starts_visible p → lstrip p = p.
Proof. destruct p as [|c p]; [done|]. cbn. by intros ->. Qed.

Lemma lstrip_starts (p : pystr) : starts_visible (lstrip p).
Proof.
  induction p as [|c p IH]; [done|]. cbn [lstrip].
  by destruct (unicode_isspace c) eqn:E.
Qed.

Lemma lstrip_suffix (p : pystr) : ∃ pre, p = pre ++ lstrip p.
Proof.
  induction p as [|c p [pre IH]]; [by exists []|]. cbn [lstrip].
  destruct (unicode_isspace c); [|by exists []].
  exists (c :: pre). cbn. by f_equal.
Qed.

Lemma rstrip_starts (p : pystr) :
  starts_visible p → starts_visible (reverse (lstrip (reverse p))).
Proof.
  intros Hp. destruct (lstrip_suffix (reverse p)) as [pre Hpre].
  apply (f_equal reverse) in Hpre. rewrite reverse_involutive, reverse_app in Hpre.
  destruct (reverse (lstrip (reverse p))) as [|c t]; [done|].
  rewrite Hpre in Hp. exact Hp.
Qed.

Lemma strip_points_trimmed (p : pystr) : trimmed (strip_points p).
Proof.
  unfold trimmed, strip_points. split.
  - apply rstrip_starts, lstrip_starts.
  - rewrite reverse_involutive. apply lstrip_starts.
Qed.

Lemma strip_points_fix (p : pystr) : trimmed p → strip_points p = p.
Proof.
  intros [H1 H2]. unfold strip_points.
  by rewrite (lstrip_fix _ H1), (lstrip_fix _ H2), reverse_involutive.
Qed.

(** X27.  On a document that [pd.read_csv] takes as it is (names that are
    UTF-8 texts, distinct and not empty, no record longer than the
    header), the loader gives one column per header field, in file order,
    named by the stripped field; every name is the text of a [str]
    without whitespace, ASCII or not, at either end; every column has one
    cell per record, also when records are short; and a header whose
    names carry no such whitespace is kept as it is. *)
Theorem read_csv_shape (L : Codec) (doc : CsvDoc) :
  well_formed doc →
  (_read_csv L doc).*1 = strip <$> header doc
  ∧ Forall (λ c, (∃ p, c.1 = text_of p ∧ trimmed p)
                 ∧ length c.2 = length (records doc)) (_read_csv L doc)
  ∧ (Forall (λ name, trimmed (u name)) (header doc) →
     (_read_csv L doc).*1 = header doc).
Proof.
  intros (Hutf & _).
  assert ((_read_csv L doc).*1 = strip <$> header doc) as Hnames.
  { unfold _read_csv. apply list_eq. intros j.
    rewrite !list_lookup_fmap, list_lookup_imap. by destruct (header doc !! j). }
  split_and!; [done|..].
  - apply Forall_and. split.
    + apply (Forall_fmap fst (λ name, ∃ p, name = text_of p ∧ trimmed p)).
      rewrite Hnames. apply Forall_fmap, Forall_forall. intros s _.
      exists (strip_points (u s)). split; [done|apply strip_points_trimmed].
    + apply Forall_forall. intros c (j & Hj)%list_elem_of_lookup.
      unfold _read_csv in Hj. rewrite list_lookup_imap in Hj.
      destruct (header doc !! j); [|done]. cbn in Hj. injection Hj as <-. cbn.
      destruct (infer_column_cases L ((λ rec, default "" (rec !! j)) <$> records doc))
        as (A & p & v & k & -> & _).
      by rewrite !length_fmap.
  - intros Hall. rewrite Hnames. rewrite <-(list_fmap_id (header doc)) at 2.
    apply Forall_fmap_ext_1, Forall_forall. intros s Hs.
    rewrite Forall_forall in Hall, Hutf. unfold strip.
    rewrite (strip_points_fix _ (Hall s Hs)). apply (Hutf s Hs).
Qed.

Lemma read_csv_shape_witness :
  (_read_csv plain nbsp_doc).*1 = strip <$> header nbsp_doc
  ∧ Forall (λ c, (∃ p, c.1 = text_of p ∧ trimmed p)
                 ∧ length c.2 = length (records nbsp_doc)) (_read_csv plain nbsp_doc)
  ∧ (Forall (λ name, trimmed (u name)) (header nbsp_doc) →
     (_read_csv plain nbsp_doc).*1 = header nbsp_doc).
Proof.
  apply (read_csv_shape plain nbsp_doc).
  split_and!; [|by apply (bool_decide_unpack _)..].
  repeat (apply Forall_cons; split); [by vm_compute..|apply Forall_nil_2].
Defined.

(** The no-break spaces around a name are taken off, as the ASCII
    whitespace is. *)
Example strip_no_break_space :
  (_read_csv plain nbsp_doc).*1 = ["ID"; "Âge"]
  ∧ strip "  Q1_Domaine " = "Q1_Domaine".
Proof. by vm_compute. Qed.

(** X28.  The counter is empty (line 287 shows the word cloud only when it
    is not) exactly when no word of any present text passes the guard of
    line 281. *)
Theorem extract_keywords_empty_iff (U : UnicodeData) (series : Series (option pystr))
    (min_length : nat) :
  extract_keywords U series min_length = ∅
  ↔ Forall (λ w, ¬ keyword_ok min_length w) (words_of U series).
Proof.
  rewrite map_empty, Forall_forall. split.
  - intros Hnone w Hw Hok. specialize (Hnone w).
    rewrite extract_keywords_lookup, decide_True in Hnone; [done|].
    split; [done|]. by apply occurrences_pos.
  - intros Hall w. rewrite extract_keywords_lookup, decide_False; [done|].
    intros [Hok Hocc%occurrences_pos]. by apply (Hall w).
Qed.

(** ** Row appender: the file from one append to the next *)

Lemma series_max_max_id (df : DataFrame) (m : Z) :
  series_max (column ID df) = Some m ↔ max_id m df.
Proof.
  split.
  - intros Hm. assert (∃ r, r ∈ df ∧ is_Some (ID r)) as Hex.
    { unfold series_max in Hm. rewrite dropna_column in Hm.
      destruct (omap ID df) as [|y ys] eqn:E; [done|].
      assert (y ∈ omap ID df) as Hy by (rewrite E; apply list_elem_of_here).
      apply list_elem_of_omap in Hy as (r & ? & ?). by exists r. }
    destruct (series_max_spec df Hex) as (m' & Hm' & Hmax). congruence.
  - intros Hmax. assert (∃ r, r ∈ df ∧ is_Some (ID r)) as Hex.
    { destruct Hmax as [(r & ? & ?) _]. by exists r. }
    destruct (series_max_spec df Hex) as (m' & Hm' & Hmax').
    by rewrite (max_id_unique _ _ _ Hmax Hmax').
Qed.

Lemma wrap64_small (z : Z) : -2 ^ 63 ≤ z < 2 ^ 63 → wrap64 z = z.
Proof. intros Hz. unfold wrap64. rewrite Z.mod_small; lia. Qed.

Lemma round53_small (z : Z) : -2 ^ 53 < z < 2 ^ 53 → round53 z = z.
Proof.
  intros Hz. unfold round53. cbn zeta.
  destruct (Z.ltb_spec (Z.abs z) (2 ^ 53)); [done|lia].
Qed.

Lemma _id_next (df : DataFrame) (k : Z) :
  max_id k df → next_fits df k → _id true df = Some (k + 1).
Proof.
  intros Hmax%series_max_max_id Hfit. unfold _id, next_fits in *.
  rewrite Hmax. cbn [mbind option_bind]. destruct (is_int64 ID df).
  - by rewrite wrap64_small by lia.
  - rewrite (round53_small k) by lia. by rewrite round53_small by lia.
Qed.

Lemma column_named_lookup (L : Codec) (t : Table L) (j : nat) (name : string)
    (cells : list (value (float L))) :
  NoDup (t.*1) → t !! j = Some (name, cells) → column_named name t = Some cells.
Proof.
  revert j. induction t as [|c t IH]; intros j Hnd Hj; [done|].
  rewrite fmap_cons in Hnd. apply NoDup_cons in Hnd as [Hc Hnd]. cbn [column_named].
  destruct j as [|j]; cbn in Hj.
  - injection Hj as ->. by rewrite decide_True.
  - rewrite decide_False; [by eapply IH|]. intros Heq. apply Hc. rewrite Heq.
    apply (list_elem_of_fmap_2 fst t (name, cells)). by eapply list_elem_of_lookup_2.
Qed.

Lemma length_infer_column (L : Codec) (fs : list string) :
  length (infer_column L fs) = length fs.
Proof.
  destruct (infer_column_cases L fs) as (A & p & v & k & -> & _). apply length_fmap.
Qed.

Lemma length_coerce (L : Codec) (cells : list (value (float L))) :
  length (coerce L cells) = length cells.
Proof. unfold coerce. case_match; [apply length_fmap|done]. Qed.

Lemma coerce_integral (L : Codec) (zs : list Z) : coerce L (VInt <$> zs) = VInt <$> zs.
Proof.
  unfold coerce.
  assert (forallb integral (VInt (F := float L) <$> zs) = true) as ->; [|by rewrite andb_false_r].
  apply forallb_forall. by intros v (z & -> & _)%list_elem_of_In%list_elem_of_fmap.
Qed.

Lemma fmap_seq_lookup {A B} (g : A → B) (d : A) (l : list A) :
  (λ i, g (default d (l !! i))) <$> seq 0 (length l) = g <$> l.
Proof.
  apply list_eq. intros i. rewrite !list_lookup_fmap.
  destruct (l !! i) as [x|] eqn:E.
  - rewrite lookup_seq_lt by by eapply lookup_lt_Some. cbn. by rewrite E.
  - rewrite lookup_seq_ge; [done|]. by apply lookup_ge_None.
Qed.

Lemma schema_NoDup : NoDup (schema.*1).
Proof. by apply (bool_decide_unpack _). Qed.

Lemma row_table_column (L : Codec) (r : Row) (j : nat) (name : string) (a : accessor) :
  schema !! j = Some (name, a) →
  column_named name (row_table L r) = Some [cell_of L [r] a r].
Proof.
  intros Hj. apply (column_named_lookup L _ j).
  - unfold row_table, to_table. rewrite <-list_fmap_compose.
    apply schema_NoDup.
  - unfold row_table, to_table. by rewrite list_lookup_fmap, Hj.
Qed.

Lemma read_csv_names (L : Codec) (doc : CsvDoc) : (read_csv L doc).*1 = header doc.
Proof.
  unfold read_csv. apply list_eq. intros j.
  rewrite list_lookup_fmap, list_lookup_imap. by destruct (header doc !! j).
Qed.

(** [_read_csv] is [read_csv] followed by the renaming of line 127. *)
Lemma read_csv_strip (L : Codec) (doc : CsvDoc) :
  _read_csv L doc = (λ c, (strip c.1, c.2)) <$> read_csv L doc.
Proof.
  unfold _read_csv, read_csv. apply list_eq. intros j.
  rewrite list_lookup_fmap, !list_lookup_imap. by destruct (header doc !! j).
Qed.

(** The document written back, column by column, for a file on the
    columns of the survey. *)
Lemma append_column (L : Codec) (doc : CsvDoc) (r : Row) (j : nat) (name : string)
    (a : accessor) :
  header doc = schema.*1 →
  schema !! j = Some (name, a) →
  let doc' := write_csv L (concat L (read_csv L doc) (row_table L r)) in
  header doc' = header doc
  ∧ length (records doc') = S (length (records doc))
  ∧ fields j doc'
    = render L <$> coerce L (infer_column L (fields j doc) ++ [cell_of L [r] a r]).
Proof.
  intros Hhead Hj. cbn zeta.
  pose proof (read_csv_names L doc) as Hnames.
  set (F := λ c : string * list (value (float L)),
         (c.1, coerce L (c.2 ++ [default VNaN (column_named c.1 (row_table L r)
                                                ≫= (.!! 0%nat))]))).
  assert (concat L (read_csv L doc) (row_table L r) = F <$> read_csv L doc) as ->.
  { unfold concat. fold F.
    assert (filter (λ c, c.1 ∉ (read_csv L doc).*1) (row_table L r) = []) as ->;
      [|by rewrite app_nil_r].
    rewrite Hnames, Hhead. apply nil_length_inv, length_filter_none, Forall_forall.
    intros c Hc Hout. apply Hout. unfold row_table, to_table in Hc.
    apply list_elem_of_fmap in Hc as (c' & -> & Hc'). cbn.
    by apply (list_elem_of_fmap_2 fst schema c'). }
  assert (∀ i c, read_csv L doc !! i = Some c → length (F c).2 = S (length (records doc)))
    as Hlen.
  { intros i c Hc. unfold read_csv in Hc. rewrite list_lookup_imap in Hc.
    destruct (header doc !! i); [|done]. cbn in Hc. injection Hc as <-. cbn.
    rewrite length_coerce, length_app, length_infer_column. unfold fields.
    rewrite length_fmap. cbn. lia. }
  assert (nrows (F <$> read_csv L doc) = S (length (records doc))) as Hn.
  { destruct (read_csv L doc) as [|c t] eqn:E.
    - by rewrite Hhead in Hnames.
    - cbn [fmap list_fmap nrows]. by apply (Hlen 0%nat c). }
  assert (read_csv L doc !! j = Some (name, infer_column L (fields j doc))) as Hcol.
  { unfold read_csv. rewrite list_lookup_imap, Hhead, list_lookup_fmap, Hj. done. }
  split_and!.
  - cbn [header write_csv]. rewrite <-list_fmap_compose. exact Hnames.
  - cbn [records write_csv]. by rewrite length_fmap, length_seq.
  - unfold fields at 1. cbn [records write_csv]. rewrite <-list_fmap_compose, Hn.
    rewrite <-(fmap_seq_lookup (render L) VNaN).
    rewrite length_coerce, length_app, length_infer_column. unfold fields at 2.
    rewrite length_fmap. cbn [length]. rewrite Nat.add_1_r.
    apply list_fmap_ext. intros _ i _. cbn [compose].
    rewrite !list_lookup_fmap, Hcol. unfold F.
    cbn -[column_named row_table coerce infer_column cell_of render].
    by rewrite (row_table_column L r j name a Hj).
Qed.

Lemma append_ids (L : Codec) (df : DataFrame) (doc : CsvDoc) (f : Form)
    (zs : list Z) (i : Z) :
  codec_laws L → header doc = schema.*1 →
  fields 0 doc = repr_int <$> zs → Forall int64 zs →
  _id true df = Some i →
  ∃ doc', append L df true (Some doc) f = Some doc'
          ∧ header doc' = header doc
          ∧ length (records doc') = S (length (records doc))
          ∧ fields 0 doc' = repr_int <$> (zs ++ [i]).
Proof.
  intros HL Hhead Hids Hzs Hi. unfold append. rewrite Hi. cbn [mbind option_bind].
  eexists. split; [done|].
  destruct (append_column L doc (new_row i f) 0 "ID" (Num ID) Hhead eq_refl)
    as (H1 & H2 & H3).
  split_and!; [done..|]. rewrite H3, Hids, (infer_ints L HL) by done.
  change (cell_of L [new_row i f] (Num ID) (new_row i f)) with (VInt (F := float L) i).
  change [VInt (F := float L) i] with (VInt (F := float L) <$> [i]).
  rewrite <-fmap_app, coerce_integral, <-list_fmap_compose. done.
Qed.

Lemma max_id_of_column (df : DataFrame) (ids : list Z) (m : Z) :
  column ID df = Some <$> ids → m ∈ ids → (∀ z, z ∈ ids → z ≤ m) → max_id m df.
Proof.
  intros Hcol Hm Hle. split.
  - assert (Some m ∈ column ID df) as Hin by (rewrite Hcol; by apply list_elem_of_fmap_2).
    apply list_elem_of_fmap in Hin as (r & ? & ?). eauto.
  - intros r x Hr Hx. apply Hle.
    assert (Some x ∈ column ID df) as Hin.
    { rewrite <-Hx. by apply (list_elem_of_fmap_2 ID). }
    rewrite Hcol in Hin. by apply list_elem_of_fmap in Hin as (z & [= ->] & ?).
Qed.

(** The identifiers of a dataset loaded from a file whose identifier
    fields are integers. *)
Lemma loads_ids (L : Codec) (doc : CsvDoc) (df : DataFrame) (ids : list Z) :
  codec_laws L → header doc = schema.*1 →
  fields 0 doc = repr_int <$> ids → Forall int64 ids →
  loads L doc df →
  column ID df = Some <$> ids ∧ is_int64 ID df = true.
Proof.
  intros HL Hhead Hids Hint Hload. unfold loads in Hload.
  apply (f_equal (λ t, t !! 0%nat)) in Hload.
  unfold _read_csv, to_table in Hload. rewrite list_lookup_imap, Hhead in Hload.
  cbn in Hload. injection Hload as Hload. fold (fields 0 doc) in Hload.
  rewrite Hids, (infer_ints L HL) in Hload by done.
  assert (∀ r, r ∈ df → ∃ z, ID r = Some z ∧ is_int64 ID df = true
                             ∧ cell_of L df (Num ID) r = VInt z) as Hrow.
  { intros r Hr.
    assert (cell_of L df (Num ID) r ∈ VInt (F := float L) <$> ids) as Hc.
    { rewrite Hload. by apply list_elem_of_fmap_2. }
    apply list_elem_of_fmap in Hc as (z & Hc & _). cbn in Hc.
    destruct (ID r) as [x|] eqn:Ex; [|done].
    destruct (is_int64 ID df) eqn:Eb; [|done].
    injection Hc as ->. exists z. split_and!; [done..|]. cbn. by rewrite Ex, Eb. }
  split.
  - set (g := from_option (VInt (F := float L)) VNaN).
    assert (Inj (=) (=) g) as Hg.
    { intros [x|] [y|] Hxy; cbn in Hxy; by simplify_eq. }
    change (column ID df) with (ID <$> df). apply (inj (fmap g)).
    rewrite <-!list_fmap_compose. etrans; [|etrans; [symmetry; exact Hload|]].
    + apply Forall_fmap_ext_1, Forall_forall.
      intros r Hr. destruct (Hrow r Hr) as (z & Hz & _ & Hc).
      cbn [compose]. by rewrite Hz, Hc.
    + by apply list_fmap_ext.
  - destruct df as [|r df']; [done|].
    by destruct (Hrow r (list_elem_of_here _ _)) as (_ & _ & ? & _).
Qed.

(** C8.  The defect, on the file that holds the answers 1 and 2.  The
    page is drawn: the file is read and the dataset cached.  "Ajouter" is
    clicked: the run finds the cached dataset, whose largest identifier
    is 2, and the file gets a third row with the identifier 3.  "Ajouter"
    is clicked again before the cache is 60 seconds old: the run finds
    the same dataset again, and the file, whose largest identifier is now
    3, gets a fourth row with the identifier 3 once more, not 4.  Once
    the cache has expired the dataset is read again and the next
    identifier is 4. *)
Theorem append_stale_session :
  let doc0 := to_csv plain two_rows two_rows in
  let app0 := {| file := doc0; cache := None |} in
  ∃ app1 app2 app3 app2' app4,
    run plain app0 two_rows app1
    ∧ submit plain two_rows a_form app1 = Some app2
    ∧ run plain app2 two_rows app2
    ∧ submit plain two_rows a_form app2 = Some app3
    ∧ fields 0 (file app1) = ["1"; "2"]
    ∧ fields 0 (file app2) = ["1"; "2"; "3"]
    ∧ fields 0 (file app3) = ["1"; "2"; "3"; "3"]
    ∧ length (records (file app3)) = 4%nat
    ∧ run plain (expire app2) reloaded_rows app2'
    ∧ submit plain reloaded_rows a_form app2' = Some app4
    ∧ fields 0 (file app4) = ["1"; "2"; "3"; "4"].
Proof.
  cbn zeta. eexists _, _, _, _, _. split_and!.
  - apply run_read; [done|]. by vm_compute.
  - by vm_compute.
  - by apply run_cached.
  - by vm_compute.
  - by vm_compute.
  - by vm_compute.
  - by vm_compute.
  - by vm_compute.
  - apply run_read; [done|]. by vm_compute.
  - by vm_compute.
  - by vm_compute.
Qed.

(** X21.  Appending fails (the [ValueError] of line 388) exactly when the
    dataset of the session has an identifier column without any
    identifier in it, whatever the file holds and whatever is typed in
    the form. *)
Theorem append_fails_iff (L : Codec) (df : DataFrame) (id_in_columns : bool)
    (source : option CsvDoc) (f : Form) :
  append L df id_in_columns source f = None
  ↔ id_in_columns = true ∧ Forall (λ r, ID r = None) df.
Proof.
  assert (_id id_in_columns df = None
          ↔ id_in_columns = true ∧ Forall (λ r, ID r = None) df) as Hid.
  { unfold _id, series_max. rewrite dropna_column, <-omap_nil_Forall.
    destruct id_in_columns; [|by split; [|intros []]].
    destruct (omap ID df); cbn [mbind option_bind]; split; (done || by intros []). }
  rewrite <-Hid. unfold append.
  by destruct (_id id_in_columns df); cbn [mbind option_bind].
Qed.

(** X22.  For a file on the columns of the survey whose identifiers are
    distinct int64 numbers, none above the largest identifier k of the
    dataset of the session, and k + 1 fitting the type of the identifier
    column: the append writes the file back with the same header, one
    more record, and the identifiers it had followed by k + 1; they are
    still distinct. *)
Theorem append_keeps_ids_distinct (L : Codec) (df : DataFrame) (doc : CsvDoc)
    (f : Form) (zs : list Z) (k : Z) :
  codec_laws L →
  header doc = schema.*1 →
  fields 0 doc = repr_int <$> zs → Forall int64 zs → NoDup zs →
  (∀ z, z ∈ zs → z ≤ k) →
  max_id k df → next_fits df k →
  ∃ doc', append L df true (Some doc) f = Some doc'
          ∧ header doc' = header doc
          ∧ length (records doc') = S (length (records doc))
          ∧ fields 0 doc' = repr_int <$> (zs ++ [k + 1])
          ∧ NoDup (zs ++ [k + 1]).
Proof.
  intros HL Hhead Hids Hint Hnd Hle Hmax Hfit.
  destruct (append_ids L df doc f zs (k + 1) HL Hhead Hids Hint (_id_next df k Hmax Hfit))
    as (doc' & Happ & H1 & H2 & H3).
  exists doc'. split_and!; [done..|].
  apply NoDup_app. split_and!; [done| |apply NoDup_singleton].
  intros z Hz ->%list_elem_of_singleton. specialize (Hle _ Hz). lia.
Qed.

Lemma append_keeps_ids_distinct_witness :
  ∃ doc', append plain two_rows true (Some (to_csv plain two_rows two_rows)) a_form
          = Some doc'
          ∧ header doc' = header (to_csv plain two_rows two_rows)
          ∧ length (records doc') = S (length (records (to_csv plain two_rows two_rows)))
          ∧ fields 0 doc' = repr_int <$> ([1; 2] ++ [2 + 1])
          ∧ NoDup ([1; 2] ++ [2 + 1]).
Proof.
  apply (append_keeps_ids_distinct plain two_rows
           (to_csv plain two_rows two_rows) a_form [1; 2] 2).
  - exact plain_laws.
  - reflexivity.
  - reflexivity.
  - repeat (apply Forall_cons; split); [unfold int64; lia..|apply Forall_nil_2].
  - by apply (bool_decide_unpack _).
  - intros z Hz. repeat (apply elem_of_cons in Hz as [->|Hz]); try lia.
    by apply elem_of_nil in Hz.
  - apply series_max_max_id. reflexivity.
  - unfold next_fits. cbn. lia.
Defined.

(** X23.  Two appends in a row on a file of the survey whose identifiers
    are int64 numbers up to the largest identifier k of the dataset of the
    session (an int64 column, k + 2 below 2^63).  The first append adds
    k + 1.  When the dataset of the session is loaded again from the file
    in between, the second append adds k + 2; when the session still
    holds the dataset from before the first append, the second append
    adds k + 1 once more. *)
Theorem append_twice (L : Codec) (df df' : DataFrame) (doc doc1 : CsvDoc)
    (f1 f2 : Form) (zs : list Z) (k : Z) :
  codec_laws L →
  header doc = schema.*1 →
  fields 0 doc = repr_int <$> zs → Forall int64 zs →
  (∀ z, z ∈ zs → z ≤ k) →
  max_id k df → is_int64 ID df = true → -2 ^ 63 ≤ k < 2 ^ 63 - 2 →
  append L df true (Some doc) f1 = Some doc1 →
  loads L doc1 df' →
  fields 0 doc1 = repr_int <$> (zs ++ [k + 1])
  ∧ (∃ doc2, append L df' true (Some doc1) f2 = Some doc2
             ∧ fields 0 doc2 = repr_int <$> (zs ++ [k + 1; k + 2]))
  ∧ (∃ doc2, append L df true (Some doc1) f2 = Some doc2
             ∧ fields 0 doc2 = repr_int <$> (zs ++ [k + 1; k + 1])).
Proof.
  intros HL Hhead Hids Hint Hle Hmax Hdt Hk Happ Hload.
  assert (_id true df = Some (k + 1)) as Hi.
  { apply _id_next; [done|]. unfold next_fits. rewrite Hdt. lia. }
  destruct (append_ids L df doc f1 zs (k + 1) HL Hhead Hids Hint Hi)
    as (doc1' & Happ' & Hhead1 & _ & Hids1).
  rewrite Happ in Happ'. injection Happ' as <-.
  rewrite Hhead in Hhead1.
  assert (Forall int64 (zs ++ [k + 1])) as Hint1.
  { apply Forall_app. split; [done|]. apply Forall_singleton. unfold int64. lia. }
  split_and!; [done|..].
  - destruct (loads_ids L doc1 df' _ HL Hhead1 Hids1 Hint1 Hload) as [Hcol Hdt'].
    assert (max_id (k + 1) df') as Hmax'.
    { apply (max_id_of_column df' (zs ++ [k + 1])); [done|..].
      - apply elem_of_app. right. apply list_elem_of_here.
      - intros z [Hz| ->%list_elem_of_singleton]%elem_of_app; [|lia].
        specialize (Hle z Hz). lia. }
    assert (_id true df' = Some (k + 1 + 1)) as Hi'.
    { apply _id_next; [done|]. unfold next_fits. rewrite Hdt'. lia. }
    destruct (append_ids L df' doc1 f2 _ (k + 1 + 1) HL Hhead1 Hids1 Hint1 Hi')
      as (doc2 & Happ2 & _ & _ & Hids2).
    exists doc2. split; [done|]. rewrite Hids2, <-app_assoc. cbn.
    by replace (k + 1 + 1) with (k + 2) by lia.
  - destruct (append_ids L df doc1 f2 _ (k + 1) HL Hhead1 Hids1 Hint1 Hi)
      as (doc2 & Happ2 & _ & _ & Hids2).
    exists doc2. split; [done|]. by rewrite Hids2, <-app_assoc.
Qed.

Lemma append_twice_witness :
  let doc0 := to_csv plain two_rows two_rows in
  let doc1 := write_csv plain
                (concat plain (read_csv plain doc0) (row_table plain (new_row 3 a_form))) in
  fields 0 doc1 = repr_int <$> ([1; 2] ++ [2 + 1])
  ∧ (∃ doc2, append plain reloaded_rows true (Some doc1) a_form = Some doc2
             ∧ fields 0 doc2 = repr_int <$> ([1; 2] ++ [2 + 1; 2 + 2]))
  ∧ (∃ doc2, append plain two_rows true (Some doc1) a_form = Some doc2
             ∧ fields 0 doc2 = repr_int <$> ([1; 2] ++ [2 + 1; 2 + 1])).
Proof.
  cbn zeta.
  apply (append_twice plain two_rows reloaded_rows (to_csv plain two_rows two_rows)
           _ a_form a_form [1; 2] 2).
  - exact plain_laws.
  - reflexivity.
  - reflexivity.
  - repeat (apply Forall_cons; split); [unfold int64; lia..|apply Forall_nil_2].
  - intros z Hz. repeat (apply elem_of_cons in Hz as [->|Hz]); try lia.
    by apply elem_of_nil in Hz.
  - apply series_max_max_id. reflexivity.
  - reflexivity.
  - lia.
  - reflexivity.
  - by vm_compute.
Defined.
